(** * clox: the single-pass bytecode compiler (src/src/compiler.c)

    A shallow embedding of the compiler: the parser record, the chain of
    compiler frames, the chain of class scopes and the chunk under
    construction are threaded through explicitly as one [State]; the C
    functions become state transformers with the names they have in
    compiler.c.  The mutually recursive descent functions are tied together
    by a fuel-indexed fixpoint, and the development proves that enough fuel
    always exists. *)

From Stdlib Require Import ZArith String List Bool Lia Ascii Sorted.
From stdpp Require Import base tactics option list.
Import ListNotations.

#[local] Open Scope string_scope.
#[local] Open Scope list_scope.
#[local] Open Scope Z_scope.

(** ** Tokens (scanner.h is an external collaborator) *)

Inductive TokenType : Set :=
| TOKEN_LEFT_PAREN | TOKEN_RIGHT_PAREN | TOKEN_LEFT_BRACE | TOKEN_RIGHT_BRACE
| TOKEN_COMMA | TOKEN_DOT | TOKEN_MINUS | TOKEN_PLUS | TOKEN_SEMICOLON
| TOKEN_SLASH | TOKEN_STAR
| TOKEN_BANG | TOKEN_BANG_EQUAL | TOKEN_EQUAL | TOKEN_EQUAL_EQUAL
| TOKEN_GREATER | TOKEN_GREATER_EQUAL | TOKEN_LESS | TOKEN_LESS_EQUAL
| TOKEN_IDENTIFIER | TOKEN_STRING | TOKEN_NUMBER
| TOKEN_AND | TOKEN_CLASS | TOKEN_ELSE | TOKEN_FALSE | TOKEN_FOR | TOKEN_FUN
| TOKEN_IF | TOKEN_NIL | TOKEN_OR | TOKEN_PRINT | TOKEN_RETURN | TOKEN_SUPER
| TOKEN_THIS | TOKEN_TRUE | TOKEN_VAR | TOKEN_WHILE
| TOKEN_ERROR | TOKEN_EOF.

Definition TokenType_eqb (a b : TokenType) : bool :=
  match a, b with
  | TOKEN_LEFT_PAREN, TOKEN_LEFT_PAREN | TOKEN_RIGHT_PAREN, TOKEN_RIGHT_PAREN
  | TOKEN_LEFT_BRACE, TOKEN_LEFT_BRACE | TOKEN_RIGHT_BRACE, TOKEN_RIGHT_BRACE
  | TOKEN_COMMA, TOKEN_COMMA | TOKEN_DOT, TOKEN_DOT | TOKEN_MINUS, TOKEN_MINUS
  | TOKEN_PLUS, TOKEN_PLUS | TOKEN_SEMICOLON, TOKEN_SEMICOLON
  | TOKEN_SLASH, TOKEN_SLASH | TOKEN_STAR, TOKEN_STAR | TOKEN_BANG, TOKEN_BANG
  | TOKEN_BANG_EQUAL, TOKEN_BANG_EQUAL | TOKEN_EQUAL, TOKEN_EQUAL
  | TOKEN_EQUAL_EQUAL, TOKEN_EQUAL_EQUAL | TOKEN_GREATER, TOKEN_GREATER
  | TOKEN_GREATER_EQUAL, TOKEN_GREATER_EQUAL | TOKEN_LESS, TOKEN_LESS
  | TOKEN_LESS_EQUAL, TOKEN_LESS_EQUAL | TOKEN_IDENTIFIER, TOKEN_IDENTIFIER
  | TOKEN_STRING, TOKEN_STRING | TOKEN_NUMBER, TOKEN_NUMBER
  | TOKEN_AND, TOKEN_AND | TOKEN_CLASS, TOKEN_CLASS | TOKEN_ELSE, TOKEN_ELSE
  | TOKEN_FALSE, TOKEN_FALSE | TOKEN_FOR, TOKEN_FOR | TOKEN_FUN, TOKEN_FUN
  | TOKEN_IF, TOKEN_IF | TOKEN_NIL, TOKEN_NIL | TOKEN_OR, TOKEN_OR
  | TOKEN_PRINT, TOKEN_PRINT | TOKEN_RETURN, TOKEN_RETURN
  | TOKEN_SUPER, TOKEN_SUPER | TOKEN_THIS, TOKEN_THIS | TOKEN_TRUE, TOKEN_TRUE
  | TOKEN_VAR, TOKEN_VAR | TOKEN_WHILE, TOKEN_WHILE | TOKEN_ERROR, TOKEN_ERROR
  | TOKEN_EOF, TOKEN_EOF => true
  | _, _ => false
  end.

(** A token's [start]/[length] pair into the source buffer is its lexeme, and
    [trailing] is the text that follows the lexeme at [start], up to the
    terminating NUL: the two together are the C string at [start], which
    [number] hands to [strtod] and [advance] hands on as the message of a
    [TOKEN_ERROR] token. *)
Record Token : Set := mkToken {
  type : TokenType;
  lexeme : string;
  line : Z;
  trailing : string;
}.

(** ** Values, chunks and function objects (chunk.h, value.h, object.h) *)

(** [NUMBER_VAL text] is the double that [strtod] reads at the start of
    [text]; the conversion itself plays no part in what the compiler emits. *)
Inductive Value : Type :=
| NUMBER_VAL (text : string)
| OBJ_STRING (chars : string)
| OBJ_FUNCTION (f : ObjFunction)
with ObjFunction : Type :=
| mkObjFunction (arity : Z) (upvalueCount : Z) (chunk : Chunk) (name : option string)
with Chunk : Type :=
| mkChunk (code : list Z) (lines : list Z) (constants : list Value).

Definition arity (f : ObjFunction) : Z := let '(mkObjFunction a _ _ _) := f in a.
Definition upvalueCount (f : ObjFunction) : Z := let '(mkObjFunction _ u _ _) := f in u.
Definition chunk (f : ObjFunction) : Chunk := let '(mkObjFunction _ _ c _) := f in c.
Definition name (f : ObjFunction) : option string := let '(mkObjFunction _ _ _ n) := f in n.
Definition code (c : Chunk) : list Z := let '(mkChunk b _ _) := c in b.
Definition lines (c : Chunk) : list Z := let '(mkChunk _ l _) := c in l.
Definition constants (c : Chunk) : list Value := let '(mkChunk _ _ k) := c in k.

(** Modelled from the spec: chunk.h is not part of the sources; the opcodes
    are numbered in the order in which the spec lists the emitted opcode set. *)
Definition OP_CONSTANT : Z := 0.
Definition OP_NIL : Z := 1.
Definition OP_TRUE : Z := 2.
Definition OP_FALSE : Z := 3.
Definition OP_POP : Z := 4.
Definition OP_GET_LOCAL : Z := 5.
Definition OP_SET_LOCAL : Z := 6.
Definition OP_GET_UPVALUE : Z := 7.
Definition OP_SET_UPVALUE : Z := 8.
Definition OP_GET_GLOBAL : Z := 9.
Definition OP_DEFINE_GLOBAL : Z := 10.
Definition OP_SET_GLOBAL : Z := 11.
Definition OP_GET_PROPERTY : Z := 12.
Definition OP_SET_PROPERTY : Z := 13.
Definition OP_GET_SUPER : Z := 14.
Definition OP_EQUAL : Z := 15.
Definition OP_GREATER : Z := 16.
Definition OP_LESS : Z := 17.
Definition OP_ADD : Z := 18.
Definition OP_SUBTRACT : Z := 19.
Definition OP_MULTIPLY : Z := 20.
Definition OP_DIVIDE : Z := 21.
Definition OP_NOT : Z := 22.
Definition OP_NEGATE : Z := 23.
Definition OP_PRINT : Z := 24.
Definition OP_JUMP : Z := 25.
Definition OP_JUMP_IF_FALSE : Z := 26.
Definition OP_LOOP : Z := 27.
Definition OP_CALL : Z := 28.
Definition OP_INVOKE : Z := 29.
Definition OP_SUPER_INVOKE : Z := 30.
Definition OP_CLOSURE : Z := 31.
Definition OP_CLOSE_UPVALUE : Z := 32.
Definition OP_RETURN : Z := 33.
Definition OP_CLASS : Z := 34.
Definition OP_INHERIT : Z := 35.
Definition OP_METHOD : Z := 36.

Definition UINT8_MAX : Z := 255.
Definition UINT8_COUNT : Z := 256.
Definition UINT16_MAX : Z := 65535.

(** Modelled from the spec: [writeChunk] (chunk.c) appends one byte and the
    line it came from. *)
Definition writeChunk (c : Chunk) (byte : Z) (ln : Z) : Chunk :=
  mkChunk (code c ++ [byte]) (lines c ++ [ln]) (constants c).

(** Modelled from the spec: [addConstant] (chunk.c) appends the value to the
    constant pool and returns its index. *)
Definition addConstant (c : Chunk) (v : Value) : Z * Chunk :=
  (Z.of_nat (length (constants c)),
   mkChunk (code c) (lines c) (constants c ++ [v])).

(** Modelled from the spec: [newFunction] (object.c) yields an anonymous
    function of arity 0 with no upvalues and an empty chunk. *)
Definition newFunction : ObjFunction := mkObjFunction 0 0 (mkChunk [] [] []) None.

(** ** The compiler's own data (compiler.c, lines 17-87) *)

Record Parser : Type := mkParser {
  current : Token;
  previous : Token;
  hadError : bool;
  panicMode : bool;
}.

Definition Precedence : Set := Z.
Definition PREC_NONE : Precedence := 0.
Definition PREC_ASSIGNMENT : Precedence := 1.
Definition PREC_OR : Precedence := 2.
Definition PREC_AND : Precedence := 3.
Definition PREC_EQUALITY : Precedence := 4.
Definition PREC_COMPARISON : Precedence := 5.
Definition PREC_TERM : Precedence := 6.
Definition PREC_FACTOR : Precedence := 7.
Definition PREC_UNARY : Precedence := 8.
Definition PREC_CALL : Precedence := 9.
Definition PREC_PRIMARY : Precedence := 10.

(** The function pointers of the rule table. *)
Inductive ParseFn : Set :=
| fn_grouping | fn_call | fn_dot | fn_unary | fn_binary | fn_variable
| fn_string | fn_number | fn_and | fn_or | fn_literal | fn_super | fn_this.

Record ParseRule : Set := mkRule {
  prefix : option ParseFn;
  infix : option ParseFn;
  precedence : Precedence;
}.

Record Local : Type := mkLocal {
  lname : Token;
  depth : Z;
  isCaptured : bool;
}.

Record Upvalue : Type := mkUpvalue {
  index : Z;
  isLocal : bool;
}.

Inductive FunctionType : Set :=
| TYPE_FUNCTION | TYPE_INITIALIZER | TYPE_METHOD | TYPE_SCRIPT.

(** One compiler frame.  [locals] is the live prefix
    [locals[0 .. localCount)] of the C array, so [localCount] is its length;
    [upvalues] likewise holds the entries written so far.  The [enclosing]
    pointer is the tail of the frame list kept in [State]. *)
Record Compiler : Type := mkCompiler {
  function : ObjFunction;
  ftype : FunctionType;
  locals : list Local;
  upvalues : list Upvalue;
  scopeDepth : Z;
}.

Definition localCount (c : Compiler) : Z := Z.of_nat (length (locals c)).

Record ClassCompiler : Type := mkClassCompiler {
  cname : Token;
  hasSuperclass : bool;
}.

(** The scanner as the compiler sees it: the tokens not yet handed out and
    the line the scanner stands on. *)
Record Scanner : Type := mkScanner {
  pending : list Token;
  sline : Z;
}.

(** One line written to stderr by [errorAt]. *)
Inductive Where : Type := AtEnd | AtNothing | AtLexeme (s : string).

Record Report : Type := mkReport {
  rline : Z;
  rwhere : Where;
  rmessage : string;
}.

(** The process-wide state: [parser], the global [current] frame pointer
    (here [compiler], with the frames reached through [enclosing] behind it),
    [currentClass] (the list is the chain, [[]] is NULL), the scanner, and
    what has been printed to stderr. *)
Record State : Type := mkState {
  scanner : Scanner;
  parser : Parser;
  compiler : Compiler;
  enclosing : list Compiler;
  currentClass : list ClassCompiler;
  stderr : list Report;
}.

Definition set_parser (p : Parser) (s : State) : State :=
  mkState (scanner s) p (compiler s) (enclosing s) (currentClass s) (stderr s).
Definition set_compiler (c : Compiler) (s : State) : State :=
  mkState (scanner s) (parser s) c (enclosing s) (currentClass s) (stderr s).
Definition set_currentClass (k : list ClassCompiler) (s : State) : State :=
  mkState (scanner s) (parser s) (compiler s) (enclosing s) k (stderr s).

Definition set_function (f : ObjFunction) (c : Compiler) : Compiler :=
  mkCompiler f (ftype c) (locals c) (upvalues c) (scopeDepth c).
Definition set_locals (l : list Local) (c : Compiler) : Compiler :=
  mkCompiler (function c) (ftype c) l (upvalues c) (scopeDepth c).
Definition set_scopeDepth (d : Z) (c : Compiler) : Compiler :=
  mkCompiler (function c) (ftype c) (locals c) (upvalues c) d.
Definition set_chunk (k : Chunk) (f : ObjFunction) : ObjFunction :=
  mkObjFunction (arity f) (upvalueCount f) k (name f).

Definition currentChunk (s : State) : Chunk := chunk (function (compiler s)).

Definition set_currentChunk (k : Chunk) (s : State) : State :=
  set_compiler (set_function (set_chunk k (function (compiler s))) (compiler s)) s.

(** ** Error reporting (lines 172-192) *)

Definition errorAt (token : Token) (message : string) (s : State) : State :=
  if panicMode (parser s) then s
  else
    let place :=
      match type token with
      | TOKEN_EOF => AtEnd
      | TOKEN_ERROR => AtNothing
      | _ => AtLexeme (lexeme token)
      end in
    mkState (scanner s)
            (mkParser (current (parser s)) (previous (parser s)) true true)
            (compiler s) (enclosing s) (currentClass s)
            (stderr s ++ [mkReport (line token) place message]).

Definition error (message : string) (s : State) : State :=
  errorAt (previous (parser s)) message s.

Definition errorAtCurrent (message : string) (s : State) : State :=
  errorAt (current (parser s)) message s.

(** ** Parser helpers (lines 194-220) *)

(** Modelled from the spec: [scanToken] (scanner.c) hands out the next token
    and, once the source is exhausted, [TOKEN_EOF] on every call. *)
Definition scanToken (sc : Scanner) : Token * Scanner :=
  match pending sc with
  | [] => (mkToken TOKEN_EOF "" (sline sc) "", sc)
  | t :: rest => (t, mkScanner rest (line t))
  end.

Definition set_current (t : Token) (s : State) : State :=
  set_parser (mkParser t (previous (parser s)) (hadError (parser s)) (panicMode (parser s))) s.

Definition set_scanner (sc : Scanner) (s : State) : State :=
  mkState sc (parser s) (compiler s) (enclosing s) (currentClass s) (stderr s).

(** The [for (;;)] of [advance]: one round per token scanned, by recursion on
    the tokens the scanner still holds ([toks] is [pending (scanner s)]). *)
Fixpoint advance_loop (toks : list Token) (s : State) : State :=
  match toks with
  | [] => set_current (fst (scanToken (scanner s))) s
  | t :: rest =>
      let s1 := set_current t (set_scanner (mkScanner rest (line t)) s) in
      match type t with
      | TOKEN_ERROR => advance_loop rest (errorAtCurrent (lexeme t ++ trailing t) s1)
      | _ => s1
      end
  end.

Definition advance (s : State) : State :=
  let p := parser s in
  advance_loop (pending (scanner s))
    (set_parser (mkParser (current p) (current p) (hadError p) (panicMode p)) s).

Definition check (ty : TokenType) (s : State) : bool :=
  TokenType_eqb (type (current (parser s))) ty.

Definition consume (ty : TokenType) (message : string) (s : State) : State :=
  if check ty s then advance s else errorAtCurrent message s.

Definition match_ (ty : TokenType) (s : State) : bool * State :=
  if negb (check ty s) then (false, s) else (true, advance s).

(** ** Emitting bytecode (lines 222-286) *)

Definition emitByte (byte : Z) (s : State) : State :=
  set_currentChunk (writeChunk (currentChunk s) byte (line (previous (parser s)))) s.

Definition emitBytes (byte1 byte2 : Z) (s : State) : State :=
  emitByte byte2 (emitByte byte1 s).

Definition emitReturn (s : State) : State :=
  let s1 :=
    match ftype (compiler s) with
    | TYPE_INITIALIZER => emitBytes OP_GET_LOCAL 0 s
    | _ => emitByte OP_NIL s
    end in
  emitByte OP_RETURN s1.

Definition makeConstant (value : Value) (s : State) : Z * State :=
  let '(constant, k) := addConstant (currentChunk s) value in
  let s1 := set_currentChunk k s in
  if constant >? UINT8_MAX then (0, error "Too many constants in one chunk." s1)
  else (constant mod 256, s1).

Definition emitConstant (value : Value) (s : State) : State :=
  let '(c, s1) := makeConstant value s in
  emitBytes OP_CONSTANT c s1.

Definition count (k : Chunk) : Z := Z.of_nat (length (code k)).

Definition emitJump (instruction : Z) (s : State) : Z * State :=
  let s1 := emitBytes 255 255 (emitByte instruction s) in
  (count (currentChunk s1) - 2, s1).

(** The outcome of a C function: it returns [a] in state [s], or the C
    program reads or writes outside an object (or calls through a null
    pointer), or the fuel of the model ran out. *)
Inductive Res (A : Type) : Type :=
| Ok (a : A) (s : State)
| Undefined
| OutOfFuel.
Arguments Ok {A} a s.
Arguments Undefined {A}.
Arguments OutOfFuel {A}.

Definition M (A : Type) : Type := State -> Res A.

Definition ret {A} (a : A) : M A := fun s => Ok a s.

Definition bind {A B} (m : M A) (k : A -> M B) : M B :=
  fun s => match m s with
           | Ok a s1 => k a s1
           | Undefined => Undefined
           | OutOfFuel => OutOfFuel
           end.

(** A C function that always returns: a state transformer, or a state
    transformer with a result. *)
Definition step (f : State -> State) : M unit := fun s => Ok tt (f s).
Definition run {A} (f : State -> A * State) : M A :=
  fun s => let '(a, s1) := f s in Ok a s1.
Definition gets {A} (f : State -> A) : M A := fun s => Ok (f s) s.
Definition undefined {A} : M A := fun _ => Undefined.
Definition when (b : bool) (m : M unit) : M unit := if b then m else ret tt.

Notation "x <- m ;; k" := (bind m (fun x => k))
  (at level 100, m at next level, right associativity, only parsing).
Notation "m ;; k" := (bind m (fun _ => k))
  (at level 100, right associativity, only parsing).

(** Stores to [code[offset]]; outside the bytes written so far the store is
    undefined. *)
Definition patchJump (offset : Z) : M unit := fun s =>
  let k := currentChunk s in
  let jump := count k - offset - 2 in
  let s1 := if jump >? UINT16_MAX then error "Too much code to jump over." s else s in
  let k1 := currentChunk s1 in
  if (0 <=? offset) && (offset + 1 <? count k1) then
    let bytes := <[Z.to_nat (offset + 1) := Z.land jump 255]>
                   (<[Z.to_nat offset := Z.land (Z.shiftr jump 8) 255]> (code k1)) in
    Ok tt (set_currentChunk (mkChunk bytes (lines k1) (constants k1)) s1)
  else Undefined.

Definition emitLoop (loopStart : Z) (s : State) : State :=
  let s1 := emitByte OP_LOOP s in
  let offset := count (currentChunk s1) - loopStart + 2 in
  let s2 := if offset >? UINT16_MAX then error "Loop body too large." s1 else s1 in
  emitBytes (Z.land (Z.shiftr offset 8) 255) (Z.land offset 255) s2.

(** ** Frames and scopes (lines 288-342) *)

(** A token made of a [start]/[length] pair only: [syntheticToken], and the
    name that [initCompiler] gives slot 0.  Its type and line are never read. *)
Definition syntheticToken (text : string) : Token := mkToken TOKEN_IDENTIFIER text 0 "".

(** The frame that [initCompiler] fills in; [prev] is [parser.previous]. *)
Definition newCompiler (ty : FunctionType) (prev : Token) : Compiler :=
  let fname :=
    match ty with
    | TYPE_SCRIPT => None
    | _ => Some (lexeme prev)
    end in
  let slot0 :=
    match ty with
    | TYPE_FUNCTION => mkLocal (syntheticToken "") 0 false
    | _ => mkLocal (syntheticToken "this") 0 false
    end in
  let fn := mkObjFunction (arity newFunction) (upvalueCount newFunction)
                          (chunk newFunction) fname in
  mkCompiler fn ty [slot0] [] 0.

Definition initCompiler (ty : FunctionType) (s : State) : State :=
  mkState (scanner s) (parser s)
          (newCompiler ty (previous (parser s)))
          (compiler s :: enclosing s) (currentClass s) (stderr s).

(** [endCompiler] returns the finished function and makes the enclosing
    frame current; [None] stands for [current == NULL]. *)
Definition endCompiler (s : State) : ObjFunction * option State :=
  let s1 := emitReturn s in
  (function (compiler s1),
   match enclosing s1 with
   | [] => None
   | c :: outer =>
       Some (mkState (scanner s1) (parser s1) c outer (currentClass s1) (stderr s1))
   end).

Definition beginScope (s : State) : State :=
  set_compiler (set_scopeDepth (scopeDepth (compiler s) + 1) (compiler s)) s.

(** The [while] of [endScope]; [top_down] lists [locals[localCount-1]] down to
    [locals[0]].  With [localCount = 0] the guard [localCount >= 0] still
    holds and [locals[-1]] is read. *)
Fixpoint endScope_loop (top_down : list Local) (s : State) : Res unit :=
  match top_down with
  | [] => Undefined
  | top :: below =>
      if depth top >? scopeDepth (compiler s) then
        let s1 := emitByte (if isCaptured top then OP_CLOSE_UPVALUE else OP_POP) s in
        endScope_loop below
          (set_compiler (set_locals (removelast (locals (compiler s1))) (compiler s1)) s1)
      else Ok tt s
  end.

Definition endScope : M unit := fun s =>
  let s1 := set_compiler (set_scopeDepth (scopeDepth (compiler s) - 1) (compiler s)) s in
  endScope_loop (rev (locals (compiler s1))) s1.

(** ** Variables, constants and resolution (lines 483-629, 696-734) *)

Definition identifierConstant (nm : Token) (s : State) : Z * State :=
  makeConstant (OBJ_STRING (lexeme nm)) s.

Definition identifiersEqual (a b : Token) : bool :=
  String.eqb (lexeme a) (lexeme b).

Definition addLocal (nm : Token) (s : State) : State :=
  if localCount (compiler s) =? UINT8_COUNT then
    error "Too many local variables in function." s
  else
    set_compiler (set_locals (locals (compiler s) ++ [mkLocal nm (-1) false]) (compiler s)) s.

(** The [for] of [declareVariable], from the top local downwards. *)
Fixpoint declareVariable_loop (top_down : list Local) (nm : Token) (s : State) : State :=
  match top_down with
  | [] => s
  | local :: below =>
      if negb (depth local =? -1) && (depth local <? scopeDepth (compiler s)) then s
      else
        declareVariable_loop below nm
          (if identifiersEqual nm (lname local)
           then error "Already variable with this name in this scope." s
           else s)
  end.

Definition declareVariable (s : State) : State :=
  if scopeDepth (compiler s) =? 0 then s
  else
    let nm := previous (parser s) in
    addLocal nm (declareVariable_loop (rev (locals (compiler s))) nm s).

(** The [for] of [resolveLocal]: the first local from the top whose name is
    [nm], with its slot index. *)
Fixpoint resolveLocal_loop (top_down : list Local) (nm : Token) : option (Z * Local) :=
  match top_down with
  | [] => None
  | local :: below =>
      if identifiersEqual nm (lname local) then Some (Z.of_nat (length below), local)
      else resolveLocal_loop below nm
  end.

Definition resolveLocal (c : Compiler) (nm : Token) (s : State) : Z * State :=
  match resolveLocal_loop (rev (locals c)) nm with
  | Some (i, local) =>
      (i, if depth local =? -1
          then error "Can't read local variable in it's own initializer." s
          else s)
  | None => (-1, s)
  end.

(** The [for] of [addUpvalue] over [upvalues[i]], [i < upvalueCount]. *)
Fixpoint addUpvalue_loop (ups : list Upvalue) (i n : Z) (idx : Z) (isLoc : bool) : option Z :=
  match ups with
  | [] => None
  | upvalue :: rest =>
      if i <? n then
        if (index upvalue =? idx) && Bool.eqb (isLocal upvalue) isLoc then Some i
        else addUpvalue_loop rest (i + 1) n idx isLoc
      else None
  end.

(** [addUpvalue (c, index, isLocal)]: the error goes to the parser in [s]. *)
Definition addUpvalue (c : Compiler) (idx : Z) (isLoc : bool) (s : State)
  : Z * Compiler * State :=
  let n := upvalueCount (function c) in
  match addUpvalue_loop (upvalues c) 0 n idx isLoc with
  | Some i => (i, c, s)
  | None =>
      if n =? UINT8_COUNT then
        (0, c, error "Too many closure variables in function." s)
      else
        let f := function c in
        (n,
         mkCompiler (mkObjFunction (arity f) (n + 1) (chunk f) (name f))
                    (ftype c) (locals c)
                    (upvalues c ++ [mkUpvalue idx isLoc])
                    (scopeDepth c),
         s)
  end.

Definition capture (local : Z) (c : Compiler) : Compiler :=
  set_locals
    (alter (fun l => mkLocal (lname l) (depth l) true) (Z.to_nat local) (locals c)) c.

(** [resolveUpvalue (c, name)] where [outer] is the chain
    [c->enclosing, c->enclosing->enclosing, ...]; it returns the frames as
    they are left.  Only [parser] and [stderr] of [s] are touched. *)
Fixpoint resolveUpvalue (c : Compiler) (outer : list Compiler) (nm : Token) (s : State)
  : Z * Compiler * list Compiler * State :=
  match outer with
  | [] => (-1, c, [], s)
  | e :: outer' =>
      let '(local, s1) := resolveLocal e nm s in
      if negb (local =? -1) then
        let '(i, c', s2) := addUpvalue c (local mod 256) true s1 in
        (i, c', capture local e :: outer', s2)
      else
        let '(upvalue, e', outer'', s2) := resolveUpvalue e outer' nm s1 in
        if negb (upvalue =? -1) then
          let '(i, c', s3) := addUpvalue c (upvalue mod 256) false s2 in
          (i, c', e' :: outer'', s3)
        else (-1, c, e' :: outer'', s2)
  end.

Definition set_frames (c : Compiler) (outer : list Compiler) (s : State) : State :=
  mkState (scanner s) (parser s) c outer (currentClass s) (stderr s).

(** Writes to [locals[localCount - 1]]. *)
Definition markInitialized : M unit := fun s =>
  let c := compiler s in
  if scopeDepth c =? 0 then Ok tt s
  else
    match locals c with
    | [] => Undefined
    | _ :: _ =>
        Ok tt (set_compiler
                 (set_locals
                    (alter (fun l => mkLocal (lname l) (scopeDepth c) (isCaptured l))
                           (length (locals c) - 1)%nat (locals c)) c)
                 s)
    end.

Definition parseVariable (errorMessage : string) (s : State) : Z * State :=
  let s1 := declareVariable (consume TOKEN_IDENTIFIER errorMessage s) in
  if scopeDepth (compiler s1) >? 0 then (0, s1)
  else identifierConstant (previous (parser s1)) s1.

Definition defineVariable (global : Z) : M unit := fun s =>
  if scopeDepth (compiler s) >? 0 then markInitialized s
  else Ok tt (emitBytes OP_DEFINE_GLOBAL global s).

(** ** The rule table (lines 1045-1088) *)

Definition getRule (operatorType : TokenType) : ParseRule :=
  match operatorType with
  | TOKEN_LEFT_PAREN    => mkRule (Some fn_grouping) (Some fn_call)   PREC_CALL
  | TOKEN_RIGHT_PAREN   => mkRule None               None             PREC_NONE
  | TOKEN_LEFT_BRACE    => mkRule None               None             PREC_NONE
  | TOKEN_RIGHT_BRACE   => mkRule None               None             PREC_NONE
  | TOKEN_COMMA         => mkRule None               None             PREC_NONE
  | TOKEN_DOT           => mkRule None               (Some fn_dot)    PREC_CALL
  | TOKEN_MINUS         => mkRule (Some fn_unary)    (Some fn_binary) PREC_TERM
  | TOKEN_PLUS          => mkRule None               (Some fn_binary) PREC_TERM
  | TOKEN_SEMICOLON     => mkRule None               None             PREC_NONE
  | TOKEN_SLASH         => mkRule None               (Some fn_binary) PREC_FACTOR
  | TOKEN_STAR          => mkRule None               (Some fn_binary) PREC_FACTOR
  | TOKEN_BANG          => mkRule (Some fn_unary)    None             PREC_NONE
  | TOKEN_BANG_EQUAL    => mkRule None               (Some fn_binary) PREC_EQUALITY
  | TOKEN_EQUAL         => mkRule None               None             PREC_NONE
  | TOKEN_EQUAL_EQUAL   => mkRule None               (Some fn_binary) PREC_EQUALITY
  | TOKEN_GREATER       => mkRule None               (Some fn_binary) PREC_COMPARISON
  | TOKEN_GREATER_EQUAL => mkRule None               (Some fn_binary) PREC_COMPARISON
  | TOKEN_LESS          => mkRule None               (Some fn_binary) PREC_COMPARISON
  | TOKEN_LESS_EQUAL    => mkRule None               (Some fn_binary) PREC_COMPARISON
  | TOKEN_IDENTIFIER    => mkRule (Some fn_variable) None             PREC_NONE
  | TOKEN_STRING        => mkRule (Some fn_string)   None             PREC_NONE
  | TOKEN_NUMBER        => mkRule (Some fn_number)   None             PREC_NONE
  | TOKEN_AND           => mkRule None               (Some fn_and)    PREC_AND
  | TOKEN_CLASS         => mkRule None               None             PREC_NONE
  | TOKEN_ELSE          => mkRule None               None             PREC_NONE
  | TOKEN_FALSE         => mkRule (Some fn_literal)  None             PREC_NONE
  | TOKEN_FOR           => mkRule None               None             PREC_NONE
  | TOKEN_FUN           => mkRule None               None             PREC_NONE
  | TOKEN_IF            => mkRule None               None             PREC_NONE
  | TOKEN_NIL           => mkRule (Some fn_literal)  None             PREC_NONE
  | TOKEN_OR            => mkRule None               (Some fn_or)     PREC_OR
  | TOKEN_PRINT         => mkRule None               None             PREC_NONE
  | TOKEN_RETURN        => mkRule None               None             PREC_NONE
  | TOKEN_SUPER         => mkRule (Some fn_super)    None             PREC_NONE
  | TOKEN_THIS          => mkRule (Some fn_this)     None             PREC_NONE
  | TOKEN_TRUE          => mkRule (Some fn_literal)  None             PREC_NONE
  | TOKEN_VAR           => mkRule None               None             PREC_NONE
  | TOKEN_WHILE         => mkRule None               None             PREC_NONE
  | TOKEN_ERROR         => mkRule None               None             PREC_NONE
  | TOKEN_EOF           => mkRule None               None             PREC_NONE
  end.

(** ** Recursive descent (lines 344-481, 606-694, 716-1043)

    The functions call one another, so they take the recursive calls as a
    parameter [rec]; every loop that contains such a call is an entry of
    [Task] and runs one round per call. *)

Inductive Task : Type -> Type :=
| ParsePrecedence (prec : Precedence) : Task unit
| InfixLoop (prec : Precedence) (canAssign : bool) : Task unit
| ArgumentLoop (argCount : Z) : Task Z
| Statement : Task unit
| Declaration : Task unit
| BlockLoop : Task unit
| SynchronizeLoop : Task unit
| ParameterLoop : Task unit
| MethodLoop : Task unit
| CompileLoop : Task unit.

Section Descent.

Variable rec : forall A, Task A -> M A.

Definition parsePrecedence (prec : Precedence) : M unit := rec _ (ParsePrecedence prec).
Definition expression : M unit := parsePrecedence PREC_ASSIGNMENT.
Definition statement : M unit := rec _ Statement.
Definition declaration : M unit := rec _ Declaration.

Definition binary_emit (operatorType : TokenType) (s : State) : State :=
  match operatorType with
  | TOKEN_BANG_EQUAL => emitBytes OP_EQUAL OP_NOT s
  | TOKEN_EQUAL_EQUAL => emitByte OP_EQUAL s
  | TOKEN_GREATER => emitByte OP_GREATER s
  | TOKEN_GREATER_EQUAL => emitBytes OP_LESS OP_NOT s
  | TOKEN_LESS => emitByte OP_LESS s
  | TOKEN_LESS_EQUAL => emitBytes OP_GREATER OP_NOT s
  | TOKEN_PLUS => emitByte OP_ADD s
  | TOKEN_MINUS => emitByte OP_SUBTRACT s
  | TOKEN_STAR => emitByte OP_MULTIPLY s
  | TOKEN_SLASH => emitByte OP_DIVIDE s
  | _ => s
  end.

Definition binary (canAssign : bool) : M unit :=
  operatorType <- gets (fun s => type (previous (parser s))) ;;
  parsePrecedence (precedence (getRule operatorType) + 1) ;;
  step (binary_emit operatorType).

Definition unary (canAssign : bool) : M unit :=
  operatorType <- gets (fun s => type (previous (parser s))) ;;
  parsePrecedence PREC_UNARY ;;
  step (match operatorType with
        | TOKEN_BANG => emitByte OP_NOT
        | TOKEN_MINUS => emitByte OP_NEGATE
        | _ => fun s => s
        end).

(** One round of the [do ... while (match(TOKEN_COMMA))] of [argumentList];
    [argCount] is a [uint8_t]. *)
Definition argumentLoop (argCount : Z) : M Z :=
  expression ;;
  when (argCount =? 255) (step (error "Can't have more than 255 arguments.")) ;;
  let argCount := (argCount + 1) mod 256 in
  more <- run (match_ TOKEN_COMMA) ;;
  if more then rec _ (ArgumentLoop argCount) else ret argCount.

Definition argumentList : M Z :=
  closed <- gets (check TOKEN_RIGHT_PAREN) ;;
  argCount <- (if negb closed then rec _ (ArgumentLoop 0) else ret 0) ;;
  step (consume TOKEN_RIGHT_PAREN "Expect ')' after arguments.") ;;
  ret argCount.

Definition call (canAssign : bool) : M unit :=
  argCount <- argumentList ;;
  step (emitBytes OP_CALL argCount).

Definition dot (canAssign : bool) : M unit :=
  step (consume TOKEN_IDENTIFIER "Expect property name after '.'.") ;;
  nm <- run (fun s => identifierConstant (previous (parser s)) s) ;;
  assign <- (if canAssign then run (match_ TOKEN_EQUAL) else ret false) ;;
  if assign then
    expression ;;
    step (emitBytes OP_SET_PROPERTY nm)
  else
    invoke <- run (match_ TOKEN_LEFT_PAREN) ;;
    if invoke then
      argCount <- argumentList ;;
      step (emitBytes OP_INVOKE nm) ;;
      step (emitByte argCount)
    else step (emitBytes OP_GET_PROPERTY nm).

Definition grouping (canAssign : bool) : M unit :=
  expression ;;
  step (consume TOKEN_RIGHT_PAREN "Expect ')' after expression.").

(** [strtod(parser.previous.start, NULL)] reads from the start of the token
    as far as a number goes, whatever the token's length. *)
Definition number (canAssign : bool) : M unit :=
  step (fun s =>
          let t := previous (parser s) in
          emitConstant (NUMBER_VAL (lexeme t ++ trailing t)) s).

(** [copyString(start + 1, length - 2)]: the lexeme without its first and
    last character. *)
Definition string_ (canAssign : bool) : M unit :=
  step (fun s =>
          let lx := lexeme (previous (parser s)) in
          emitConstant (OBJ_STRING (String.substring 1 (String.length lx - 2)%nat lx)) s).

Definition literal (canAssign : bool) : M unit :=
  step (fun s =>
          match type (previous (parser s)) with
          | TOKEN_FALSE => emitByte OP_FALSE s
          | TOKEN_NIL => emitByte OP_NIL s
          | TOKEN_TRUE => emitByte OP_TRUE s
          | _ => s
          end).

(** [namedVariable]: the triple is [(arg, getOp, setOp)]. *)
Definition namedVariable_resolve (nm : Token) (s : State) : (Z * Z * Z) * State :=
  let '(arg, s1) := resolveLocal (compiler s) nm s in
  if negb (arg =? -1) then ((arg, OP_GET_LOCAL, OP_SET_LOCAL), s1)
  else
    let '(arg, c, outer, s2) := resolveUpvalue (compiler s1) (enclosing s1) nm s1 in
    let s3 := set_frames c outer s2 in
    if negb (arg =? -1) then ((arg, OP_GET_UPVALUE, OP_SET_UPVALUE), s3)
    else
      let '(arg, s4) := identifierConstant nm s3 in
      ((arg, OP_GET_GLOBAL, OP_SET_GLOBAL), s4).

Definition namedVariable (nm : Token) (canAssign : bool) : M unit :=
  r <- run (namedVariable_resolve nm) ;;
  let '(arg, getOp, setOp) := r in
  assign <- (if canAssign then run (match_ TOKEN_EQUAL) else ret false) ;;
  if assign then
    expression ;;
    step (emitBytes setOp (arg mod 256))
  else step (emitBytes getOp (arg mod 256)).

Definition variable (canAssign : bool) : M unit :=
  nm <- gets (fun s => previous (parser s)) ;;
  namedVariable nm canAssign.

Definition this_ (canAssign : bool) : M unit :=
  k <- gets currentClass ;;
  match k with
  | [] => step (error "Can't use 'this' outside of a class.")
  | _ :: _ => variable false
  end.

Definition and_ (canAssign : bool) : M unit :=
  endJump <- run (emitJump OP_JUMP_IF_FALSE) ;;
  step (emitByte OP_POP) ;;
  parsePrecedence PREC_AND ;;
  patchJump endJump.

Definition or_ (canAssign : bool) : M unit :=
  avoidJump <- run (emitJump OP_JUMP_IF_FALSE) ;;
  endJump <- run (emitJump OP_JUMP) ;;
  patchJump avoidJump ;;
  step (emitByte OP_POP) ;;
  parsePrecedence PREC_OR ;;
  patchJump endJump.

Definition super_ (canAssign : bool) : M unit :=
  k <- gets currentClass ;;
  match k with
  | [] => step (error "Can't use 'super' outside of a class.")
  | cc :: _ =>
      when (negb (hasSuperclass cc))
           (step (error "Can't use 'super' in a class with no superclass."))
  end ;;
  step (consume TOKEN_DOT "Expect '.' after 'super'.") ;;
  step (consume TOKEN_IDENTIFIER "Expect superclass method name.") ;;
  nm <- run (fun s => identifierConstant (previous (parser s)) s) ;;
  namedVariable (syntheticToken "this") false ;;
  invoke <- run (match_ TOKEN_LEFT_PAREN) ;;
  (if invoke then
     argCount <- argumentList ;;
     namedVariable (syntheticToken "super") false ;;
     step (emitBytes OP_SUPER_INVOKE nm) ;;
     step (emitByte argCount)
   else
     namedVariable (syntheticToken "super") false ;;
     step (emitBytes OP_GET_SUPER nm)) ;;
  namedVariable (syntheticToken "super") false ;;
  step (emitBytes OP_GET_SUPER nm).

(** A call through a [ParseFn] pointer. *)
Definition callRule (fn : ParseFn) (canAssign : bool) : M unit :=
  match fn with
  | fn_grouping => grouping canAssign
  | fn_call => call canAssign
  | fn_dot => dot canAssign
  | fn_unary => unary canAssign
  | fn_binary => binary canAssign
  | fn_variable => variable canAssign
  | fn_string => string_ canAssign
  | fn_number => number canAssign
  | fn_and => and_ canAssign
  | fn_or => or_ canAssign
  | fn_literal => literal canAssign
  | fn_super => super_ canAssign
  | fn_this => this_ canAssign
  end.

(** One round of the [while] of [parsePrecedence]; a null [infix] pointer
    would be called through. *)
Definition infixLoop (prec : Precedence) (canAssign : bool) : M unit :=
  cur <- gets (fun s => type (current (parser s))) ;;
  if prec <=? precedence (getRule cur) then
    step advance ;;
    prev <- gets (fun s => type (previous (parser s))) ;;
    match infix (getRule prev) with
    | None => undefined
    | Some infixRule =>
        callRule infixRule canAssign ;;
        rec _ (InfixLoop prec canAssign)
    end
  else ret tt.

Definition parsePrecedence_body (prec : Precedence) : M unit :=
  step advance ;;
  prev <- gets (fun s => type (previous (parser s))) ;;
  match prefix (getRule prev) with
  | None => step (error "Expect expression.")
  | Some prefixRule =>
      let canAssign := prec <=? PREC_ASSIGNMENT in
      callRule prefixRule canAssign ;;
      rec _ (InfixLoop prec canAssign) ;;
      stray <- (if canAssign then run (match_ TOKEN_EQUAL) else ret false) ;;
      when stray (step (error "Invalid assignment target."))
  end.

Definition varDeclaration : M unit :=
  slot <- run (parseVariable "Expect variable name.") ;;
  init <- run (match_ TOKEN_EQUAL) ;;
  (if init then expression else step (emitByte OP_NIL)) ;;
  step (consume TOKEN_SEMICOLON "Expect ';' after variable declaration.") ;;
  defineVariable slot.

Definition expressionStatement : M unit :=
  expression ;;
  step (consume TOKEN_SEMICOLON "Expect ';' after expression.") ;;
  step (emitByte OP_POP).

Definition printStatement : M unit :=
  expression ;;
  step (consume TOKEN_SEMICOLON "Expect ';' after value.") ;;
  step (emitByte OP_PRINT).

Definition returnStatement : M unit :=
  ty <- gets (fun s => ftype (compiler s)) ;;
  when (match ty with TYPE_SCRIPT => true | _ => false end)
       (step (error "Can't return from top-level code.")) ;;
  bare <- run (match_ TOKEN_SEMICOLON) ;;
  if bare then step emitReturn
  else
    when (match ty with TYPE_INITIALIZER => true | _ => false end)
         (step (error "Can't return a value from an initializer.")) ;;
    expression ;;
    step (consume TOKEN_SEMICOLON "Expect ';' after return value.") ;;
    step (emitByte OP_RETURN).

(** One round of the [while] of [synchronize]. *)
Definition synchronizeLoop : M unit :=
  cur <- gets (fun s => type (current (parser s))) ;;
  prev <- gets (fun s => type (previous (parser s))) ;;
  match cur with
  | TOKEN_EOF => ret tt
  | _ =>
      match prev with
      | TOKEN_SEMICOLON => ret tt
      | _ =>
          match cur with
          | TOKEN_CLASS | TOKEN_FUN | TOKEN_VAR | TOKEN_FOR | TOKEN_IF
          | TOKEN_WHILE | TOKEN_PRINT | TOKEN_RETURN => ret tt
          | _ => step advance ;; rec _ SynchronizeLoop
          end
      end
  end.

Definition synchronize : M unit :=
  step (fun s =>
          let p := parser s in
          set_parser (mkParser (current p) (previous p) (hadError p) false) s) ;;
  rec _ SynchronizeLoop.

(** One round of the [while] of [block]. *)
Definition blockLoop : M unit :=
  closing <- gets (check TOKEN_RIGHT_BRACE) ;;
  ending <- gets (check TOKEN_EOF) ;;
  if negb closing && negb ending then
    declaration ;;
    rec _ BlockLoop
  else ret tt.

Definition block : M unit :=
  rec _ BlockLoop ;;
  step (consume TOKEN_RIGHT_BRACE "Expect '}' after block.").

(** One round of the [do ... while (match(TOKEN_COMMA))] of [function]. *)
Definition parameterLoop : M unit :=
  step (fun s =>
          let c := compiler s in
          let f := function c in
          set_compiler
            (set_function (mkObjFunction (arity f + 1) (upvalueCount f) (chunk f) (name f)) c)
            s) ;;
  n <- gets (fun s => arity (function (compiler s))) ;;
  when (n >? 255) (step (errorAtCurrent "Can't have more than 255 parameters.")) ;;
  paramConstant <- run (parseVariable "Expect parameter name.") ;;
  defineVariable paramConstant ;;
  more <- run (match_ TOKEN_COMMA) ;;
  if more then rec _ ParameterLoop else ret tt.

(** The closing [for] of [function]: one pair of bytes per upvalue of the
    frame just finished. *)
Definition emitUpvalues (n : Z) (ups : list Upvalue) (s : State) : State :=
  fold_left (fun s u => emitByte (index u) (emitByte (if isLocal u then 1 else 0) s))
            (take (Z.to_nat n) ups) s.

Definition function_ (ty : FunctionType) : M unit :=
  step (initCompiler ty) ;;
  step beginScope ;;
  step (consume TOKEN_LEFT_PAREN "Expect '(' after function name.") ;;
  closed <- gets (check TOKEN_RIGHT_PAREN) ;;
  when (negb closed) (rec _ ParameterLoop) ;;
  step (consume TOKEN_RIGHT_PAREN "Expect ')' after parameters.") ;;
  step (consume TOKEN_LEFT_BRACE "Expect '{' before function body.") ;;
  block ;;
  ups <- gets (fun s => upvalues (compiler s)) ;;
  fun s =>
    match endCompiler s with
    | (_, None) => Undefined
    | (fn, Some s1) =>
        let '(k, s2) := makeConstant (OBJ_FUNCTION fn) s1 in
        Ok tt (emitUpvalues (upvalueCount fn) ups (emitBytes OP_CLOSURE k s2))
    end.

Definition funDeclaration : M unit :=
  global <- run (parseVariable "Expect function name.") ;;
  markInitialized ;;
  function_ TYPE_FUNCTION ;;
  defineVariable global.

Definition method : M unit :=
  step (consume TOKEN_IDENTIFIER "Expect method name.") ;;
  constant <- run (fun s => identifierConstant (previous (parser s)) s) ;;
  prev <- gets (fun s => previous (parser s)) ;;
  let ty := if String.eqb (lexeme prev) "init" then TYPE_INITIALIZER else TYPE_METHOD in
  function_ ty ;;
  step (emitBytes OP_METHOD constant).

(** One round of the [while] over the methods of a class body. *)
Definition methodLoop : M unit :=
  closing <- gets (check TOKEN_RIGHT_BRACE) ;;
  ending <- gets (check TOKEN_EOF) ;;
  if negb closing && negb ending then
    method ;;
    rec _ MethodLoop
  else ret tt.

(** [classCompiler] is the head of the [currentClass] chain while the class
    is compiled; [inherits] is [classCompiler.hasSuperclass]. *)
Definition classDeclaration : M unit :=
  step (consume TOKEN_IDENTIFIER "Expect class name.") ;;
  className <- gets (fun s => previous (parser s)) ;;
  nameConstant <- run (fun s => identifierConstant (previous (parser s)) s) ;;
  step declareVariable ;;
  step (emitBytes OP_CLASS nameConstant) ;;
  defineVariable nameConstant ;;
  step (fun s =>
          set_currentClass (mkClassCompiler (previous (parser s)) false :: currentClass s) s) ;;
  inherits <- run (match_ TOKEN_LESS) ;;
  when inherits
    (step (consume TOKEN_IDENTIFIER "Expect superclass name.") ;;
     variable false ;;
     prev <- gets (fun s => previous (parser s)) ;;
     when (identifiersEqual className prev)
          (step (error "A class can't inherit from itself.")) ;;
     step beginScope ;;
     step (addLocal (syntheticToken "super")) ;;
     defineVariable 0 ;;
     namedVariable className false ;;
     step (emitByte OP_INHERIT) ;;
     fun s =>
       match currentClass s with
       | [] => Undefined
       | cc :: outer => Ok tt (set_currentClass (mkClassCompiler (cname cc) true :: outer) s)
       end) ;;
  namedVariable className false ;;
  step (consume TOKEN_LEFT_BRACE "Expect '{' before class body.") ;;
  rec _ MethodLoop ;;
  step (consume TOKEN_RIGHT_BRACE "Expect '}' after class body.") ;;
  step (emitByte OP_POP) ;;
  when inherits endScope ;;
  fun s =>
    match currentClass s with
    | [] => Undefined
    | _ :: outer => Ok tt (set_currentClass outer s)
    end.

Definition ifStatement : M unit :=
  step (consume TOKEN_LEFT_PAREN "Expect '(' after 'if'.") ;;
  expression ;;
  step (consume TOKEN_RIGHT_PAREN "Expect ')' after condition.") ;;
  thenJump <- run (emitJump OP_JUMP_IF_FALSE) ;;
  step (emitByte OP_POP) ;;
  statement ;;
  elseJump <- run (emitJump OP_JUMP) ;;
  patchJump thenJump ;;
  step (emitByte OP_POP) ;;
  alt <- run (match_ TOKEN_ELSE) ;;
  when alt statement ;;
  patchJump elseJump.

Definition whileStatment : M unit :=
  loopStart <- gets (fun s => count (currentChunk s)) ;;
  step (consume TOKEN_LEFT_PAREN "Expect '(' after 'while'.") ;;
  expression ;;
  step (consume TOKEN_RIGHT_PAREN "Expect ')' after condition.") ;;
  exitJump <- run (emitJump OP_JUMP_IF_FALSE) ;;
  step (emitByte OP_POP) ;;
  statement ;;
  step (emitLoop loopStart) ;;
  patchJump exitJump ;;
  step (emitByte OP_POP).

Definition forStatement : M unit :=
  step beginScope ;;
  step (consume TOKEN_LEFT_PAREN "Expect '(' after 'for'.") ;;
  none <- run (match_ TOKEN_SEMICOLON) ;;
  (if none then ret tt
   else
     decl <- run (match_ TOKEN_VAR) ;;
     if decl then varDeclaration else expressionStatement) ;;
  loopStart <- gets (fun s => count (currentChunk s)) ;;
  nocond <- run (match_ TOKEN_SEMICOLON) ;;
  exitJump <-
    (if negb nocond then
       expression ;;
       step (consume TOKEN_SEMICOLON "Expect ';' after loop condition.") ;;
       j <- run (emitJump OP_JUMP_IF_FALSE) ;;
       step (emitByte OP_POP) ;;
       ret j
     else ret (-1)) ;;
  noincr <- run (match_ TOKEN_RIGHT_PAREN) ;;
  loopStart <-
    (if negb noincr then
       bodyJump <- run (emitJump OP_JUMP) ;;
       incrementStart <- gets (fun s => count (currentChunk s)) ;;
       expression ;;
       step (emitByte OP_POP) ;;
       step (consume TOKEN_RIGHT_PAREN "Expect ')' after for loop initializer.") ;;
       step (emitLoop loopStart) ;;
       patchJump bodyJump ;;
       ret incrementStart
     else ret loopStart) ;;
  statement ;;
  step (emitLoop loopStart) ;;
  when (negb (exitJump =? -1))
       (patchJump exitJump ;;
        step (emitByte OP_POP)) ;;
  endScope.

Definition statement_body : M unit :=
  b <- run (match_ TOKEN_PRINT) ;;
  if b then printStatement else
  b <- run (match_ TOKEN_IF) ;;
  if b then ifStatement else
  b <- run (match_ TOKEN_RETURN) ;;
  if b then returnStatement else
  b <- run (match_ TOKEN_WHILE) ;;
  if b then whileStatment else
  b <- run (match_ TOKEN_FOR) ;;
  if b then forStatement else
  b <- run (match_ TOKEN_LEFT_BRACE) ;;
  if b then
    step beginScope ;;
    block ;;
    endScope
  else expressionStatement.

Definition declaration_body : M unit :=
  (b <- run (match_ TOKEN_CLASS) ;;
   if b then classDeclaration else
   b <- run (match_ TOKEN_FUN) ;;
   if b then funDeclaration else
   b <- run (match_ TOKEN_VAR) ;;
   if b then varDeclaration else statement) ;;
  panic <- gets (fun s => panicMode (parser s)) ;;
  when panic synchronize.

(** One round of the [while (!match(TOKEN_EOF))] of [compile]. *)
Definition compileLoop : M unit :=
  done <- run (match_ TOKEN_EOF) ;;
  if done then ret tt
  else
    declaration ;;
    rec _ CompileLoop.

Definition body (A : Type) (t : Task A) : M A :=
  match t with
  | ParsePrecedence prec => parsePrecedence_body prec
  | InfixLoop prec canAssign => infixLoop prec canAssign
  | ArgumentLoop argCount => argumentLoop argCount
  | Statement => statement_body
  | Declaration => declaration_body
  | BlockLoop => blockLoop
  | SynchronizeLoop => synchronizeLoop
  | ParameterLoop => parameterLoop
  | MethodLoop => methodLoop
  | CompileLoop => compileLoop
  end.

End Descent.

(** Tying the knot: [exec fuel] runs a task with at most [fuel] nested
    calls. *)
Fixpoint exec (fuel : nat) (A : Type) (t : Task A) : M A :=
  match fuel with
  | O => fun _ => OutOfFuel
  | S fuel' => body (exec fuel') A t
  end.

(** ** The driver (lines 1090-1107) *)

(** The state in which [compile] enters its loop: the scanner primed with the
    tokens of [source], the script frame with no enclosing frame, the flags
    cleared, and [advance] called once.  The parser starts zero-initialised,
    as C globals do. *)
Definition compile_init (source : list Token) : State :=
  let zero := mkToken TOKEN_LEFT_PAREN "" 0 "" in
  advance (mkState (mkScanner source 1) (mkParser zero zero false false)
                   (newCompiler TYPE_SCRIPT zero) [] [] []).

(** [compile]: the result is the returned pointer ([None] is NULL), in the
    state in which [compile] returns. *)
Definition compile (fuel : nat) (source : list Token) : Res (option ObjFunction) :=
  match exec fuel _ CompileLoop (compile_init source) with
  | Ok _ s =>
      let fn := fst (endCompiler s) in
      Ok (if hadError (parser s) then None else Some fn) (emitReturn s)
  | Undefined => Undefined
  | OutOfFuel => OutOfFuel
  end.

(** * Invariants, relations and sample programs *)

Definition measure (s : State) : nat :=
  (2 * length (pending (scanner s)) +
   match type (current (parser s)) with TOKEN_EOF => 0 | _ => 1 end)%nat.

Definition diag_ok (s : State) : Prop :=
  (hadError (parser s) = true <-> stderr s <> []) /\
  (panicMode (parser s) = true -> hadError (parser s) = true).

(** Reports are only ever added to stderr. *)
Definition grows (s s' : State) : Prop := exists more, stderr s' = stderr s ++ more.

(** The scanner hands out [TOKEN_EOF] only when it has nothing left: none of
    the tokens it still holds is one, and once the parser has seen one the
    scanner holds no more tokens. *)
Definition scan_ok (s : State) : Prop :=
  Forall (fun t => type t <> TOKEN_EOF) (pending (scanner s)) /\
  (type (current (parser s)) = TOKEN_EOF -> pending (scanner s) = []) /\
  (type (previous (parser s)) = TOKEN_EOF -> pending (scanner s) = []).

Definition depths (c : Compiler) : list Z := map depth (locals c).

Definition codelen (c : Compiler) : nat := length (code (chunk (function c))).

Definition frame_sim (c c' : Compiler) : Prop :=
  depths c' = depths c /\ scopeDepth c' = scopeDepth c /\
  (codelen c <= codelen c')%nat /\ ftype c' = ftype c.

(** The stack discipline of a frame: slot 0 has depth 0, depths never
    decrease towards the top, and none exceeds the current scope depth. *)
Definition scoped (d : Z) (ds : list Z) : Prop :=
  (exists rest, ds = 0 :: rest) /\
  StronglySorted Z.le ds /\
  Forall (fun x => x <= d) ds.

Definition wf (c : Compiler) : Prop := scoped (scopeDepth c) (depths c).

(** A frame between [addLocal] and [markInitialized]: below the local being
    declared the discipline holds.  At scope depth 0 nothing is declared. *)
Definition wfp (c : Compiler) : Prop :=
  (0 < scopeDepth c ->
   exists ds top, depths c = ds ++ [top] /\ scoped (scopeDepth c) ds) /\
  (scopeDepth c <= 0 -> wf c).

(** What every step of the compiler preserves: the tokens still to come
    never grow (and the current token keeps its type unless one was consumed),
    the enclosing frames keep their depths and code, the current chunk only
    grows, the error flags stay consistent with stderr, stderr only grows,
    and the scanner stays at its end once it has reached it. *)
Record B (s s' : State) : Prop := mkB {
  B_meas : (measure s' < measure s)%nat \/
           (measure s' = measure s /\
            type (current (parser s')) = type (current (parser s)));
  B_encl : Forall2 frame_sim (enclosing s) (enclosing s');
  B_code : (codelen (compiler s) <= codelen (compiler s'))%nat;
  B_ftype : ftype (compiler s') = ftype (compiler s);
  B_diag : diag_ok s -> diag_ok s';
  B_err : grows s s';
  B_scan : scan_ok s -> scan_ok s';
}.

(** A step that also leaves the scope depth and the class chain alone. *)
Definition R (s s' : State) : Prop :=
  B s s' /\ scopeDepth (compiler s') = scopeDepth (compiler s) /\
  currentClass s' = currentClass s.

(** A step that moreover leaves the depths of the locals alone. *)
Definition RE (s s' : State) : Prop :=
  R s s' /\ depths (compiler s') = depths (compiler s).

(** A step that reports errors at most. *)
Definition front (s s' : State) : Prop :=
  compiler s' = compiler s /\ enclosing s' = enclosing s /\ RE s s'.

Definition fits (N r : nat) (s : State) : Prop := (5 * measure s + r < N)%nat.

Definition rank {A} (t : Task A) : nat :=
  match t with
  | ParsePrecedence _ | InfixLoop _ _ | SynchronizeLoop | ParameterLoop => 0
  | ArgumentLoop _ | Statement => 1
  | Declaration => 2
  | BlockLoop | CompileLoop => 3
  | MethodLoop => 4
  end.

Definition at_eof (s : State) : Prop := type (current (parser s)) = TOKEN_EOF.

Definition strict (s s' : State) : Prop := ~ at_eof s -> (measure s' < measure s)%nat.

Definition pre {A} (t : Task A) (s : State) : Prop :=
  match t with
  | ParsePrecedence p | InfixLoop p _ => 1 <= p
  | Statement | Declaration | BlockLoop | ParameterLoop | CompileLoop => wf (compiler s)
  | _ => True
  end.

Definition post {A} (t : Task A) (s s' : State) : Prop :=
  match t with
  | ParsePrecedence _ => RE s s' /\ strict s s'
  | InfixLoop _ _ | ArgumentLoop _ | SynchronizeLoop | MethodLoop => RE s s'
  | Statement | Declaration => R s s' /\ wf (compiler s') /\ strict s s'
  | BlockLoop =>
      R s s' /\ wf (compiler s') /\
      (check TOKEN_RIGHT_BRACE s' = true \/ check TOKEN_EOF s' = true)
  | ParameterLoop => R s s' /\ wf (compiler s')
  | CompileLoop =>
      R s s' /\ wf (compiler s') /\ type (previous (parser s')) = TOKEN_EOF
  end.

(** Total correctness of a computation from [s]: it returns, and the result
    and final state satisfy [Q]. *)
Definition tc {A} (m : M A) (s : State) (Q : A -> State -> Prop) : Prop :=
  exists a s', m s = Ok a s' /\ Q a s'.


Definition returnBytes (ty : FunctionType) : list Z :=
  match ty with
  | TYPE_INITIALIZER => [OP_GET_LOCAL; 0; OP_RETURN]
  | _ => [OP_NIL; OP_RETURN]
  end.

Definition closeOp (l : Local) : Z :=
  if isCaptured l then OP_CLOSE_UPVALUE else OP_POP.


(** The list of upvalues holds exactly the entries counted by the function
    object. *)
Definition synced (c : Compiler) : Prop :=
  upvalueCount (function c) = Z.of_nat (length (upvalues c)).

Definition le_M {A} (m1 m2 : M A) : Prop :=
  forall s, m1 s = OutOfFuel \/ m1 s = m2 s.

(** A token on line 1 with nothing behind it that [strtod] or an error
    message would take in: in the sample programs no number is followed by
    text that continues it. *)
Definition tok (ty : TokenType) (lx : string) : Token := mkToken ty lx 1 "".
Definition ident (x : string) : Token := tok TOKEN_IDENTIFIER x.
Definition num (x : string) : Token := tok TOKEN_NUMBER x.

(** A token whose text is fixed by its kind. *)
Definition kw (ty : TokenType) : Token :=
  tok ty
    match ty with
    | TOKEN_LEFT_PAREN => "(" | TOKEN_RIGHT_PAREN => ")"
    | TOKEN_LEFT_BRACE => "{" | TOKEN_RIGHT_BRACE => "}"
    | TOKEN_COMMA => "," | TOKEN_DOT => "." | TOKEN_MINUS => "-"
    | TOKEN_PLUS => "+" | TOKEN_SEMICOLON => ";" | TOKEN_SLASH => "/"
    | TOKEN_STAR => "*" | TOKEN_BANG => "!" | TOKEN_BANG_EQUAL => "!="
    | TOKEN_EQUAL => "=" | TOKEN_EQUAL_EQUAL => "==" | TOKEN_GREATER => ">"
    | TOKEN_GREATER_EQUAL => ">=" | TOKEN_LESS => "<" | TOKEN_LESS_EQUAL => "<="
    | TOKEN_AND => "and" | TOKEN_CLASS => "class" | TOKEN_ELSE => "else"
    | TOKEN_FALSE => "false" | TOKEN_FOR => "for" | TOKEN_FUN => "fun"
    | TOKEN_IF => "if" | TOKEN_NIL => "nil" | TOKEN_OR => "or"
    | TOKEN_PRINT => "print" | TOKEN_RETURN => "return" | TOKEN_SUPER => "super"
    | TOKEN_THIS => "this" | TOKEN_TRUE => "true" | TOKEN_VAR => "var"
    | TOKEN_WHILE => "while"
    | _ => ""
    end.

(** The scanner's error token for a character that starts no token. *)
Definition bad_character : Token := tok TOKEN_ERROR "Unexpected character.".

(** [class A {} class B < A { greet() { super.greet(); } }] *)
Definition super_call_program : list Token :=
  [kw TOKEN_CLASS; ident "A"; kw TOKEN_LEFT_BRACE; kw TOKEN_RIGHT_BRACE;
   kw TOKEN_CLASS; ident "B"; kw TOKEN_LESS; ident "A"; kw TOKEN_LEFT_BRACE;
   ident "greet"; kw TOKEN_LEFT_PAREN; kw TOKEN_RIGHT_PAREN; kw TOKEN_LEFT_BRACE;
   kw TOKEN_SUPER; kw TOKEN_DOT; ident "greet"; kw TOKEN_LEFT_PAREN;
   kw TOKEN_RIGHT_PAREN; kw TOKEN_SEMICOLON;
   kw TOKEN_RIGHT_BRACE; kw TOKEN_RIGHT_BRACE].

(** [class A {} class B < A { greet() { super.greet; } }] *)
Definition super_get_program : list Token :=
  [kw TOKEN_CLASS; ident "A"; kw TOKEN_LEFT_BRACE; kw TOKEN_RIGHT_BRACE;
   kw TOKEN_CLASS; ident "B"; kw TOKEN_LESS; ident "A"; kw TOKEN_LEFT_BRACE;
   ident "greet"; kw TOKEN_LEFT_PAREN; kw TOKEN_RIGHT_PAREN; kw TOKEN_LEFT_BRACE;
   kw TOKEN_SUPER; kw TOKEN_DOT; ident "greet"; kw TOKEN_SEMICOLON;
   kw TOKEN_RIGHT_BRACE; kw TOKEN_RIGHT_BRACE].

(** [var a = a;] *)
Definition global_self_init : list Token :=
  [kw TOKEN_VAR; ident "a"; kw TOKEN_EQUAL; ident "a"; kw TOKEN_SEMICOLON].

(** [{ var a = a; }] *)
Definition local_self_init : list Token :=
  [kw TOKEN_LEFT_BRACE; kw TOKEN_VAR; ident "a"; kw TOKEN_EQUAL; ident "a";
   kw TOKEN_SEMICOLON; kw TOKEN_RIGHT_BRACE].

(** [{ var a = @ a; }], where [@] starts no token *)
Definition local_self_init_after_error : list Token :=
  [kw TOKEN_LEFT_BRACE; kw TOKEN_VAR; ident "a"; kw TOKEN_EQUAL; bad_character;
   ident "a"; kw TOKEN_SEMICOLON; kw TOKEN_RIGHT_BRACE].






(** Names [xaa], [xab], ..., [xpp]: all different for [n < 256], and none of
    them a keyword, as no keyword starts with [x]. *)
Definition varname (n : nat) : string :=
  String "x" (String (ascii_of_nat (97 + n / 16))
                     (String (ascii_of_nat (97 + n mod 16)) "")).

(** [var xaa; var xab; ...], [n] declarations *)
Definition declarations (n : nat) : list Token :=
  flat_map (fun i => [kw TOKEN_VAR; ident (varname i); kw TOKEN_SEMICOLON]) (seq 0 n).

(** [fun f() { var xaa; var xab; ... }] with [n] declarations in the body *)
Definition function_with_locals (n : nat) : list Token :=
  [kw TOKEN_FUN; ident "f"; kw TOKEN_LEFT_PAREN; kw TOKEN_RIGHT_PAREN;
   kw TOKEN_LEFT_BRACE] ++ declarations n ++ [kw TOKEN_RIGHT_BRACE].

(** [fun f() { var xaa; ... var xpo; var @ zz; }]: 255 declarations, then
    one more after a character that starts no token *)
Definition function_with_locals_after_error : list Token :=
  [kw TOKEN_FUN; ident "f"; kw TOKEN_LEFT_PAREN; kw TOKEN_RIGHT_PAREN;
   kw TOKEN_LEFT_BRACE] ++ declarations 255 ++
  [kw TOKEN_VAR; bad_character; ident "zz"; kw TOKEN_SEMICOLON; kw TOKEN_RIGHT_BRACE].

Definition messages (s : State) : list string := map rmessage (stderr s).


Definition self_initializer_message : string :=
  "Can't read local variable in it's own initializer.".

(** A frame with one user local in scope, and one with the frame full. *)
Definition frame_with (ls : list Local) (d : Z) : Compiler :=
  mkCompiler newFunction TYPE_SCRIPT (mkLocal (syntheticToken "this") 0 false :: ls) [] d.

Definition state_with (c : Compiler) (panic : bool) : State :=
  mkState (mkScanner [] 1)
          (mkParser (kw TOKEN_SEMICOLON) (ident "a") panic panic)
          c [] [] (if panic then [mkReport 1 AtNothing "Unexpected character."] else []).

Definition two_inner_locals : Compiler :=
  frame_with [mkLocal (ident "a") 1 false; mkLocal (ident "b") 2 true;
              mkLocal (ident "c") 2 false] 2.

Definition too_many_locals_message : string := "Too many local variables in function.".

(** The frame of an [init] method with nothing declared, a frame that has
    captured slot 1 of its parent, and a fresh function frame. *)
Definition initializer_frame : Compiler :=
  mkCompiler newFunction TYPE_INITIALIZER [mkLocal (syntheticToken "this") 0 false] [] 0.

Definition closure_frame : Compiler :=
  mkCompiler (mkObjFunction 0 1 (mkChunk [] [] []) None) TYPE_FUNCTION
             [mkLocal (syntheticToken "") 0 false] [mkUpvalue 1 true] 0.

Definition inner_frame : Compiler :=
  mkCompiler newFunction TYPE_FUNCTION [mkLocal (syntheticToken "") 0 false] [] 0.

Definition full_frame : Compiler :=
  frame_with (map (fun i => mkLocal (ident (varname i)) 1 false) (seq 0 255)) 1.

(** ** States and vocabulary for the further properties *)

(** A script frame whose chunk holds [n] constants. *)
Definition frame_with_constants (n : nat) : Compiler :=
  mkCompiler (mkObjFunction 0 0 (mkChunk [] [] (repeat (NUMBER_VAL "0") n)) None)
             TYPE_SCRIPT [mkLocal (syntheticToken "this") 0 false] [] 0.

(** A chunk in which a jump is followed by 65536 bytes. *)
Definition long_jump_state : State :=
  set_currentChunk (mkChunk ([OP_JUMP; 255; 255] ++ repeat OP_NIL (Z.to_nat 65536)) [] [])
                   (state_with (frame_with [] 0) false).

Definition redeclaration_message : string :=
  "Already variable with this name in this scope.".

(** A frame that has captured slots 0 to 255 of its parent. *)
Definition full_closure_frame : Compiler :=
  mkCompiler (mkObjFunction 0 256 (mkChunk [] [] []) None) TYPE_FUNCTION
             [mkLocal (syntheticToken "") 0 false]
             (map (fun i => mkUpvalue (Z.of_nat i) true) (seq 0 256)) 0.

(** Where [synchronize] stops: at the end of input, just after a [;], or in
    front of a token that starts a declaration or statement. *)
Definition at_boundary (s : State) : bool :=
  match type (current (parser s)) with
  | TOKEN_EOF => true
  | cur =>
      match type (previous (parser s)) with
      | TOKEN_SEMICOLON => true
      | _ =>
          match cur with
          | TOKEN_CLASS | TOKEN_FUN | TOKEN_VAR | TOKEN_FOR | TOKEN_IF
          | TOKEN_WHILE | TOKEN_PRINT | TOKEN_RETURN => true
          | _ => false
          end
      end
  end.

Definition clear_panic (s : State) : State :=
  set_parser (mkParser (current (parser s)) (previous (parser s))
                       (hadError (parser s)) false) s.

(** The state after the left operand of [a and b] or [a or b], with the
    operator consumed. *)
Definition after_left_operand (op : TokenType) : State :=
  advance (emitBytes OP_GET_GLOBAL 0
             (snd (identifierConstant (ident "a")
                     (advance (compile_init [ident "a"; kw op; ident "b"]))))).

(** The two operand bytes of a jump over [n] bytes. *)
Definition operand (n : Z) : list Z := [(n / 256) mod 256; n mod 256].


(** [while (a) b;] with [while] consumed. *)
Definition after_while : State :=
  advance (compile_init [kw TOKEN_WHILE; kw TOKEN_LEFT_PAREN; ident "a";
                         kw TOKEN_RIGHT_PAREN; ident "b"; kw TOKEN_SEMICOLON]).

(** * Proofs *)


(** ** Invariants *)

Ltac splits := repeat match goal with |- _ /\ _ => split end.

Lemma frame_sim_refl c : frame_sim c c.
Proof. unfold frame_sim; splits; auto. Qed.

Lemma frame_sim_trans a b c : frame_sim a b -> frame_sim b c -> frame_sim a c.
Proof.
  intros (?&?&?&?) (?&?&?&?). unfold frame_sim; splits; try congruence; lia.
Qed.

Lemma Forall2_frame_sim_refl l : Forall2 frame_sim l l.
Proof. induction l; constructor; auto using frame_sim_refl. Qed.

Lemma Forall2_frame_sim_trans a b c :
  Forall2 frame_sim a b -> Forall2 frame_sim b c -> Forall2 frame_sim a c.
Proof.
  intros H; revert c; induction H; intros c' H'; inversion H'; subst; constructor;
    eauto using frame_sim_trans.
Qed.

Lemma grows_refl s : grows s s.
Proof. exists []. symmetry. apply app_nil_r. Qed.

Lemma grows_same s s' : stderr s' = stderr s -> grows s s'.
Proof. intros H. exists []. rewrite H. symmetry. apply app_nil_r. Qed.

Lemma grows_trans a b c : grows a b -> grows b c -> grows a c.
Proof.
  intros [m1 H1] [m2 H2]. exists (m1 ++ m2). rewrite H2, H1, <- app_assoc. reflexivity.
Qed.

Lemma scan_ok_same s s' :
  scanner s' = scanner s ->
  type (current (parser s')) = type (current (parser s)) ->
  type (previous (parser s')) = type (previous (parser s)) ->
  scan_ok s -> scan_ok s'.
Proof. unfold scan_ok. intros -> -> ->. auto. Qed.

#[local] Hint Resolve grows_refl : core.
#[local] Hint Extern 2 (grows _ _) => (apply grows_same; reflexivity) : core.
#[local] Hint Extern 2 (scan_ok _) =>
  (eapply scan_ok_same; [reflexivity | reflexivity | reflexivity | eassumption]) : core.

Lemma B_refl s : B s s.
Proof. constructor; auto using Forall2_frame_sim_refl. Qed.

Lemma B_trans a b c : B a b -> B b c -> B a c.
Proof.
  intros [m1 e1 c1 t1 g1 r1 k1] [m2 e2 c2 t2 g2 r2 k2]; constructor;
    eauto using Forall2_frame_sim_trans, grows_trans; try lia; try congruence.
  destruct m1 as [|[? ?]], m2 as [|[? ?]]; try (left; lia). right; split; congruence.
Qed.

Lemma B_le a b : B a b -> (measure b <= measure a)%nat.
Proof. intros [[|[? ?]] _ _ _ _ _ _]; lia. Qed.

Lemma R_refl s : R s s.
Proof. unfold R; splits; auto using B_refl. Qed.

Lemma RE_refl s : RE s s.
Proof. split; auto using R_refl. Qed.

Lemma R_trans a b c : R a b -> R b c -> R a c.
Proof. intros (?&?&?) (?&?&?). unfold R; splits; eauto using B_trans; congruence. Qed.

Lemma RE_trans a b c : RE a b -> RE b c -> RE a c.
Proof. intros [? ?] [? ?]; split; eauto using R_trans; congruence. Qed.

Lemma wf_ext c c' :
  depths c' = depths c -> scopeDepth c' = scopeDepth c -> wf c -> wf c'.
Proof. unfold wf. intros -> ->. auto. Qed.

(** Steps that touch only the parser, the scanner and stderr. *)
Lemma RE_front s s' :
  compiler s' = compiler s -> enclosing s' = enclosing s ->
  currentClass s' = currentClass s ->
  ((measure s' < measure s)%nat \/
   (measure s' = measure s /\ type (current (parser s')) = type (current (parser s)))) ->
  (diag_ok s -> diag_ok s') ->
  grows s s' ->
  (scan_ok s -> scan_ok s') ->
  RE s s'.
Proof.
  intros Hc He Hk Hm Hd Hg Hs. unfold RE, R; splits; rewrite ?Hc; auto.
  constructor; rewrite ?Hc, ?He; auto using Forall2_frame_sim_refl.
Qed.

Lemma errorAt_RE t msg s : RE s (errorAt t msg s).
Proof.
  unfold errorAt. destruct (panicMode (parser s)) eqn:E; [apply RE_refl|].
  apply RE_front; simpl; auto.
  - intros _. split; simpl; [|auto].
    split; [intros _ | auto]. destruct (stderr s); discriminate.
  - eexists. reflexivity.
Qed.

Lemma error_RE msg s : RE s (error msg s).
Proof. apply errorAt_RE. Qed.

Lemma errorAtCurrent_RE msg s : RE s (errorAtCurrent msg s).
Proof. apply errorAt_RE. Qed.


(** * Basic facts *)

Lemma errorAt_compiler t msg s : compiler (errorAt t msg s) = compiler s.
Proof. unfold errorAt. destruct (panicMode (parser s)); reflexivity. Qed.

Lemma errorAt_enclosing t msg s : enclosing (errorAt t msg s) = enclosing s.
Proof. unfold errorAt. destruct (panicMode (parser s)); reflexivity. Qed.

Lemma errorAt_currentClass t msg s : currentClass (errorAt t msg s) = currentClass s.
Proof. unfold errorAt. destruct (panicMode (parser s)); reflexivity. Qed.

Lemma errorAt_panic t msg s : panicMode (parser (errorAt t msg s)) = true.
Proof. unfold errorAt. destruct (panicMode (parser s)) eqn:E; auto. Qed.

Lemma errorAt_suppressed t msg s : panicMode (parser s) = true -> errorAt t msg s = s.
Proof. unfold errorAt. intros ->. reflexivity. Qed.

Lemma advance_loop_frames toks s :
  compiler (advance_loop toks s) = compiler s /\
  enclosing (advance_loop toks s) = enclosing s /\
  currentClass (advance_loop toks s) = currentClass s.
Proof.
  revert s. induction toks as [|t rest IH]; intros s; simpl; [auto|].
  destruct (type t); simpl; auto.
  destruct (IH (errorAtCurrent (lexeme t ++ trailing t)
     (set_current t (set_scanner (mkScanner rest (line t)) s)))) as (->&->&->).
  unfold errorAtCurrent.
  rewrite errorAt_compiler, errorAt_enclosing, errorAt_currentClass. auto.
Qed.

Lemma advance_compiler s : compiler (advance s) = compiler s.
Proof. unfold advance. rewrite (proj1 (advance_loop_frames _ _)). reflexivity. Qed.

Lemma emitByte_code b s :
  code (currentChunk (emitByte b s)) = code (currentChunk s) ++ [b].
Proof. reflexivity. Qed.

Lemma emitByte_ftype b s : ftype (compiler (emitByte b s)) = ftype (compiler s).
Proof. reflexivity. Qed.

Lemma emitReturn_code s :
  code (currentChunk (emitReturn s)) =
  code (currentChunk s) ++ returnBytes (ftype (compiler s)).
Proof.
  unfold emitReturn, emitBytes.
  destruct (ftype (compiler s)); simpl; rewrite <- ?app_assoc; reflexivity.
Qed.

Lemma emitReturn_ftype s : ftype (compiler (emitReturn s)) = ftype (compiler s).
Proof. unfold emitReturn. destruct (ftype (compiler s)) eqn:E; simpl; auto. Qed.

(** C3: the function that [endCompiler] hands back is the frame's chunk
    followed by the implicit return, [OP_GET_LOCAL 0; OP_RETURN] in an
    initializer and [OP_NIL; OP_RETURN] in every other kind of frame
    ([returnBytes]); and a [return] statement whose next token is [;] appends
    the same bytes, chosen by the same kind. *)
Theorem implicit_return_sequence (s : State) :
  code (chunk (fst (endCompiler s))) =
    code (currentChunk s) ++ returnBytes (ftype (compiler s)) /\
  forall rec, check TOKEN_SEMICOLON s = true ->
    exists s', returnStatement rec s = Ok tt s' /\
      ftype (compiler s') = ftype (compiler s) /\
      code (currentChunk s') =
        code (currentChunk s) ++ returnBytes (ftype (compiler s)).
Proof.
  split.
  - unfold endCompiler; simpl. apply emitReturn_code.
  - intros rec Hsemi.
    set (s0 := if match ftype (compiler s) with TYPE_SCRIPT => true | _ => false end
               then error "Can't return from top-level code." s else s).
    assert (Hc : compiler s0 = compiler s).
    { unfold s0. destruct (ftype (compiler s)); auto; apply errorAt_compiler. }
    assert (Hk : check TOKEN_SEMICOLON s0 = true).
    { unfold s0. destruct (ftype (compiler s)); auto.
      unfold check, error, errorAt in *. destruct (panicMode (parser s)); auto. }
    exists (emitReturn (advance s0)). split.
    + unfold returnStatement, bind, gets, when, step, run, ret, match_.
      destruct (ftype (compiler s)) eqn:E; fold s0; rewrite Hk; reflexivity.
    + rewrite emitReturn_code, emitReturn_ftype. unfold currentChunk.
      rewrite advance_compiler, Hc. auto.
Qed.

(** * Leaving a scope *)

Lemma endScope_loop_spec gone : forall keep s d,
  locals (compiler s) = keep ++ gone ->
  scopeDepth (compiler s) = d ->
  Forall (fun l => d < depth l) gone ->
  (exists kl k0, keep = kl ++ [k0] /\ depth k0 <= d) ->
  exists s', endScope_loop (rev (keep ++ gone)) s = Ok tt s' /\
    locals (compiler s') = keep /\
    scopeDepth (compiler s') = d /\
    code (currentChunk s') = code (currentChunk s) ++ map closeOp (rev gone) /\
    parser s' = parser s /\ enclosing s' = enclosing s /\
    currentClass s' = currentClass s /\ stderr s' = stderr s /\
    scanner s' = scanner s /\ ftype (compiler s') = ftype (compiler s) /\
    upvalues (compiler s') = upvalues (compiler s).
Proof.
  induction gone as [|g gone IH] using rev_ind; intros keep s d Hl Hd Hg Hk.
  - destruct Hk as (kl & k0 & -> & Hk0). exists s.
    rewrite app_nil_r in *. rewrite rev_app_distr. simpl.
    rewrite Hd. destruct (depth k0 >? d) eqn:E; [lia|].
    rewrite app_nil_r. repeat split; auto.
  - apply Forall_app in Hg as [Hg Hg1]. inversion Hg1 as [|? ? Hgd _]; subst.
    rewrite app_assoc, rev_app_distr. simpl.
    destruct (depth g >? scopeDepth (compiler s)) eqn:E; [|lia].
    set (s1 := set_compiler _ _).
    destruct (IH keep s1 (scopeDepth (compiler s))) as (s' & He & H1 & H2 & H3 & H4);
      auto.
    { unfold s1; simpl. rewrite Hl, app_assoc. apply removelast_last. }
    exists s'. split; [exact He|]. split; [auto|]. split; [auto|].
    split; [|exact H4].
    rewrite H3. unfold s1; simpl. rewrite rev_app_distr. simpl.
    rewrite <- app_assoc. reflexivity.
Qed.

Lemma split_at_scope d : forall rest l0,
  depth l0 <= d ->
  exists kl k0 gone, l0 :: rest = (kl ++ [k0]) ++ gone /\ depth k0 <= d /\
    Forall (fun l => d < depth l) gone /\
    (exists kt, kl ++ [k0] = l0 :: kt).
Proof.
  induction rest as [|x rest IH] using rev_ind; intros l0 H0.
  - exists [], l0, []. repeat split; eauto.
  - destruct (Z_le_gt_dec (depth x) d).
    + exists (l0 :: rest), x, []. rewrite app_nil_r. repeat split; eauto.
    + destruct (IH l0 H0) as (kl & k0 & gone & E & ? & ? & ?).
      exists kl, k0, (gone ++ [x]). repeat split; auto.
      * rewrite app_comm_cons, E, <- !app_assoc. reflexivity.
      * apply Forall_app; split; auto. constructor; auto. lia.
Qed.

(** With a depth-0 local in slot 0 and a scope open, the loop of [endScope]
    stops at slot 0 at the latest. *)
Lemma endScope_keeps_slot0 s l0 rest :
  locals (compiler s) = l0 :: rest -> depth l0 = 0 -> 1 <= scopeDepth (compiler s) ->
  exists s' rest', endScope s = Ok tt s' /\ locals (compiler s') = l0 :: rest' /\
    1 <= localCount (compiler s') /\
    scopeDepth (compiler s') = scopeDepth (compiler s) - 1.
Proof.
  intros Hl H0 Hd.
  destruct (split_at_scope (scopeDepth (compiler s) - 1) rest l0) as
    (kl & k0 & gone & E & Hk & Hg & kt & Ekt); [lia|].
  unfold endScope. set (s1 := set_compiler _ s).
  destruct (endScope_loop_spec gone (kl ++ [k0]) s1 (scopeDepth (compiler s) - 1))
    as (s' & He & H1 & H2 & _); eauto.
  { unfold s1; simpl. congruence. }
  exists s', kt. replace (locals (compiler s1)) with ((kl ++ [k0]) ++ gone)
    by (unfold s1; simpl; congruence).
  rewrite He. repeat split; auto; try congruence.
  unfold localCount. rewrite H1, Ekt. simpl. lia.
Qed.

Lemma StronglySorted_split d (l : list Local) :
  StronglySorted Z.le (map depth l) ->
  l = filter (fun x => depth x <= d) l ++ filter (fun x => d < depth x) l.
Proof.
  induction l as [|a l IH]; intros Hs; [reflexivity|].
  simpl in Hs. apply StronglySorted_inv in Hs as [Hs Ha].
  rewrite !filter_cons. destruct (decide (depth a <= d)), (decide (d < depth a)); try lia.
  - simpl. f_equal. auto.
  - assert (Hall : Forall (fun x => d < depth x) l).
    { rewrite List.Forall_map in Ha. eapply List.Forall_impl; [|exact Ha].
      simpl. intros; lia. }
    replace (filter (fun x => depth x <= d) l) with (@nil Local).
    + simpl. f_equal. clear -Hall. induction Hall; [reflexivity|].
      rewrite filter_cons. destruct (decide (d < depth x)); [|lia]. f_equal; auto.
    + clear -Hall. induction Hall; [reflexivity|].
      rewrite filter_cons. destruct (decide (depth x <= d)); [lia|]. auto.
Qed.

(** * Upvalues *)

Lemma addUpvalue_loop_found ups : forall i0 n idx isLoc (j : nat) u,
  ups !! j = Some u -> index u = idx -> isLocal u = isLoc ->
  i0 + Z.of_nat j < n ->
  exists k : nat, addUpvalue_loop ups i0 n idx isLoc = Some (i0 + Z.of_nat k) /\
    (k <= j)%nat /\ ups !! k = Some u.
Proof.
  induction ups as [|v ups IH]; intros i0 n idx isLoc j u Hj Hi Hl Hn; [discriminate|].
  simpl. destruct (i0 <? n) eqn:E; [|lia].
  destruct ((index v =? idx) && Bool.eqb (isLocal v) isLoc) eqn:Em.
  - exists 0%nat. rewrite Z.add_0_r.
    apply andb_true_iff in Em as [E1 E2]. apply Z.eqb_eq in E1. apply eqb_prop in E2.
    assert (v = u) as -> by (destruct v, u; simpl in *; congruence).
    split; [reflexivity|]. split; [lia|reflexivity].
  - destruct j as [|j]; simpl in Hj.
    + injection Hj as ->. rewrite Hi, Hl, Z.eqb_refl, eqb_reflx in Em. discriminate.
    + destruct (IH (i0 + 1) n idx isLoc j u) as (k & Hk & Hle & Hu); auto; [lia|].
      exists (S k). rewrite Hk. repeat split; [f_equal; lia | lia | exact Hu].
Qed.

Lemma addUpvalue_loop_fresh ups : forall i0 n idx isLoc,
  n = i0 + Z.of_nat (length ups) ->
  addUpvalue_loop ups i0 n idx isLoc = None ->
  addUpvalue_loop (ups ++ [mkUpvalue idx isLoc]) i0 (n + 1) idx isLoc = Some n.
Proof.
  induction ups as [|v ups IH]; intros i0 n idx isLoc Hn H.
  - simpl in *. assert (n = i0) as -> by lia.
    destruct (i0 <? i0 + 1) eqn:E; [|lia].
    rewrite Z.eqb_refl, eqb_reflx. reflexivity.
  - change (length (v :: ups)) with (S (length ups)) in Hn.
    cbn [addUpvalue_loop app] in *.
    destruct (i0 <? n) eqn:E; [|lia].
    destruct (i0 <? n + 1) eqn:E'; [|lia].
    destruct ((index v =? idx) && Bool.eqb (isLocal v) isLoc); [discriminate|].
    apply IH; auto. lia.
Qed.

Lemma error_panic msg s : panicMode (parser (error msg s)) = true.
Proof. apply errorAt_panic. Qed.

Lemma error_suppressed msg s : panicMode (parser s) = true -> error msg s = s.
Proof. apply errorAt_suppressed. Qed.

Lemma addUpvalue_again c idx b s i c' s' :
  synced c -> addUpvalue c idx b s = (i, c', s') ->
  synced c' /\ locals c' = locals c /\ scopeDepth c' = scopeDepth c /\
  (s' = s \/ panicMode (parser s') = true) /\
  (panicMode (parser s) = true -> panicMode (parser s') = true) /\
  (upvalues c' = upvalues c \/
   (upvalues c' = upvalues c ++ [mkUpvalue idx b] /\ i = Z.of_nat (length (upvalues c)))) /\
  forall t, (panicMode (parser s') = true -> panicMode (parser t) = true) ->
    addUpvalue c' idx b t = (i, c', t).
Proof.
  unfold addUpvalue, synced. intros Hs H.
  destruct (addUpvalue_loop (upvalues c) 0 (upvalueCount (function c)) idx b) eqn:El.
  - injection H as <- <- <-. repeat split; auto. intros t _. rewrite El. reflexivity.
  - destruct (upvalueCount (function c) =? UINT8_COUNT) eqn:E8.
    + injection H as <- <- <-. repeat split; auto using error_panic.
      intros t Ht. rewrite El, E8, (error_suppressed _ t); auto using error_panic.
    + injection H as <- <- <-. simpl.
      split; [rewrite length_app; simpl; lia|].
      do 4 (split; [auto|]).
      split; [right; split; [reflexivity|exact Hs]|].
      intros t _. rewrite Hs in El.
        pose proof (addUpvalue_loop_fresh (upvalues c) 0 _ idx b eq_refl El) as Hf.
        rewrite Z.add_0_l in Hf. rewrite Hs, Hf. reflexivity.
Qed.

Lemma resolveLocal_loop_ext l1 l2 nm :
  map (fun l => (lname l, depth l)) l1 = map (fun l => (lname l, depth l)) l2 ->
  match resolveLocal_loop l1 nm, resolveLocal_loop l2 nm with
  | Some (i1, a1), Some (i2, a2) => i1 = i2 /\ depth a1 = depth a2
  | None, None => True
  | _, _ => False
  end.
Proof.
  revert l2. induction l1 as [|a l1 IH]; intros [|b l2] H; try discriminate; simpl; auto.
  simpl in H. injection H as Hn Hd Hm. rewrite Hn.
  destruct (identifiersEqual nm (lname b)).
  - split; auto. apply (f_equal (@length _)) in Hm. rewrite !length_map in Hm. congruence.
  - apply IH, Hm.
Qed.

Lemma resolveLocal_ext c1 c2 nm s :
  map (fun l => (lname l, depth l)) (locals c1) =
  map (fun l => (lname l, depth l)) (locals c2) ->
  resolveLocal c1 nm s = resolveLocal c2 nm s.
Proof.
  intros H. unfold resolveLocal.
  pose proof (resolveLocal_loop_ext (rev (locals c1)) (rev (locals c2)) nm) as Hx.
  rewrite !map_rev in Hx. specialize (Hx (f_equal (@rev _) H)).
  destruct (resolveLocal_loop (rev (locals c1)) nm) as [[i1 a1]|],
           (resolveLocal_loop (rev (locals c2)) nm) as [[i2 a2]|]; try tauto.
  destruct Hx as [-> ->]. reflexivity.
Qed.

Lemma capture_names k c :
  map (fun l => (lname l, depth l)) (locals (capture k c)) =
  map (fun l => (lname l, depth l)) (locals c).
Proof.
  unfold capture; simpl. generalize (Z.to_nat k) as n. generalize (locals c) as l.
  induction l as [|a l IH]; intros [|n]; simpl; auto. f_equal. apply IH.
Qed.

Lemma capture_capture k c : capture k (capture k c) = capture k c.
Proof.
  unfold capture, set_locals; simpl. f_equal.
  generalize (Z.to_nat k) as n. generalize (locals c) as l.
  induction l as [|a l IH]; intros [|n]; simpl; auto. f_equal. apply IH.
Qed.

Lemma resolveLocal_again c nm s i s' :
  resolveLocal c nm s = (i, s') ->
  (s' = s \/ panicMode (parser s') = true) /\
  (panicMode (parser s) = true -> panicMode (parser s') = true) /\
  (i = -1 -> s' = s) /\
  forall t, (panicMode (parser s') = true -> panicMode (parser t) = true) ->
    resolveLocal c nm t = (i, t).
Proof.
  unfold resolveLocal. destruct (resolveLocal_loop (rev (locals c)) nm) as [[j a]|] eqn:E.
  - destruct (depth a =? -1); intros H; injection H as <- <-.
    + repeat split; auto using error_panic.
      * intros Hj. exfalso.
        clear -E Hj. revert E. generalize (rev (locals c)) as l.
        induction l as [|b l IH]; simpl; [discriminate|].
        destruct (identifiersEqual nm (lname b)); auto. intros [= <- _]. lia.
      * intros t Ht. rewrite error_suppressed; auto using error_panic.
    + repeat split; auto.
  - intros H; injection H as <- <-. repeat split; auto.
Qed.

Lemma resolveUpvalue_again outer : forall c nm s i c1 outer1 s1,
  synced c -> Forall synced outer ->
  resolveUpvalue c outer nm s = (i, c1, outer1, s1) ->
  synced c1 /\ Forall synced outer1 /\
  map (fun l => (lname l, depth l)) (locals c1) =
    map (fun l => (lname l, depth l)) (locals c) /\
  (s1 = s \/ panicMode (parser s1) = true) /\
  (panicMode (parser s) = true -> panicMode (parser s1) = true) /\
  (upvalues c1 = upvalues c \/
   exists u, upvalues c1 = upvalues c ++ [u] /\ i = Z.of_nat (length (upvalues c))) /\
  forall t, (panicMode (parser s1) = true -> panicMode (parser t) = true) ->
    resolveUpvalue c1 outer1 nm t = (i, c1, outer1, t).
Proof.
  induction outer as [|e outer IH]; intros c nm s i c1 outer1 s1 Hc Ho H; simpl in H.
  - injection H as <- <- <- <-. splits; auto.
  - inversion Ho as [|? ? He Ho']; subst.
    destruct (resolveLocal e nm s) as [loc sa] eqn:El.
    destruct (resolveLocal_again _ _ _ _ _ El) as (Ha1 & Ha2 & Ha3 & Ha4).
    destruct (negb (loc =? -1)) eqn:Eloc.
    + destruct (addUpvalue c (loc mod 256) true sa) as [[j c'] sb] eqn:Ea.
      injection H as <- <- <- <-.
      destruct (addUpvalue_again _ _ _ _ _ _ _ Hc Ea)
        as (Hb1 & Hb2 & _ & Hb3 & Hb4 & Hb5 & Hb6).
      assert (Hm : panicMode (parser sa) = true -> panicMode (parser sb) = true) by auto.
      splits.
      * exact Hb1.
      * constructor; auto.
      * congruence.
      * destruct Ha1 as [->|], Hb3 as [->|]; auto.
      * auto.
      * destruct Hb5 as [|[? ?]]; eauto.
      * intros t Ht. simpl.
        rewrite (resolveLocal_ext (capture loc e) e) by apply capture_names.
        rewrite Ha4 by auto.
        rewrite Eloc, Hb6 by auto. rewrite capture_capture. reflexivity.
    + destruct (resolveUpvalue e outer nm sa) as [[[up e'] outer''] sb] eqn:Er.
      destruct (IH _ _ _ _ _ _ _ He Ho' Er) as (I1 & I2 & I3 & I4 & I5 & _ & I7).
      destruct (negb (up =? -1)) eqn:Eup.
      * destruct (addUpvalue c (up mod 256) false sb) as [[j c'] sc] eqn:Ea.
        injection H as <- <- <- <-.
        destruct (addUpvalue_again _ _ _ _ _ _ _ Hc Ea)
          as (Hb1 & Hb2 & _ & Hb3 & Hb4 & Hb5 & Hb6).
        splits.
        -- exact Hb1.
        -- constructor; auto.
        -- congruence.
        -- destruct Ha1 as [->|], I4 as [->|], Hb3 as [->|]; auto.
        -- auto.
        -- destruct Hb5 as [|[? ?]]; eauto.
        -- intros t Ht. simpl.
           rewrite (resolveLocal_ext e' e) by exact I3.
           rewrite Ha4 by auto.
           rewrite Eloc, I7 by auto.
           rewrite Eup, Hb6 by auto. reflexivity.
      * injection H as <- <- <- <-. splits.
        -- exact Hc.
        -- constructor; auto.
        -- reflexivity.
        -- destruct Ha1 as [->|], I4 as [->|]; auto.
        -- auto.
        -- auto.
        -- intros t Ht. simpl.
           rewrite (resolveLocal_ext e' e) by exact I3.
           rewrite Ha4 by auto.
           rewrite Eloc, I7 by auto. rewrite Eup. reflexivity.
Qed.

(** C9: [addUpvalue] asked for a pair (index, isLocal) that the frame already
    holds returns the slot of that pair and leaves the frame, its upvalue
    count included, as it was; and once [resolveUpvalue] has resolved a name
    from a frame, resolving it again from the resulting frames returns the
    same index and changes nothing, the first resolution having added at most
    one descriptor to the frame, at the index it returned. *)
Theorem addUpvalue_idempotent :
  (forall c (j : nat) u s,
     upvalues c !! j = Some u -> Z.of_nat j < upvalueCount (function c) ->
     exists k : nat,
       addUpvalue c (index u) (isLocal u) s = (Z.of_nat k, c, s) /\
       (k <= j)%nat /\ upvalues c !! k = Some u) /\
  (forall c outer nm s i c1 outer1 s1,
     synced c -> Forall synced outer ->
     resolveUpvalue c outer nm s = (i, c1, outer1, s1) ->
     resolveUpvalue c1 outer1 nm s1 = (i, c1, outer1, s1) /\
     (upvalues c1 = upvalues c \/
      exists u, upvalues c1 = upvalues c ++ [u] /\ i = Z.of_nat (length (upvalues c)))).
Proof.
  split.
  - intros c j u s Hj Hn. unfold addUpvalue.
    destruct (addUpvalue_loop_found (upvalues c) 0 (upvalueCount (function c))
                (index u) (isLocal u) j u) as (k & Hk & Hle & Hu); auto.
    exists k. rewrite Hk. auto.
  - intros c outer nm s i c1 outer1 s1 Hc Ho H.
    destruct (resolveUpvalue_again _ _ _ _ _ _ _ _ Hc Ho H) as (_ & _ & _ & _ & _ & Hu & Ht).
    split; auto.
Qed.



(** * The computation rules *)

Lemma tc_ret {A} (a : A) s Q : Q a s -> tc (ret a) s Q.
Proof. intros H. exists a, s. auto. Qed.

Lemma tc_bind {A C} (m : M A) (k : A -> M C) s P Q :
  tc m s P -> (forall a s1, P a s1 -> tc (k a) s1 Q) -> tc (bind m k) s Q.
Proof.
  intros (a & s1 & E & HP) Hk. destruct (Hk a s1 HP) as (b & s2 & E2 & HQ).
  exists b, s2. unfold bind. rewrite E. auto.
Qed.

Lemma tc_step f s Q : Q tt (f s) -> tc (step f) s Q.
Proof. intros H. exists tt, (f s). auto. Qed.

Lemma tc_run {A} (f : State -> A * State) s Q :
  Q (fst (f s)) (snd (f s)) -> tc (run f) s Q.
Proof. intros H. exists (fst (f s)), (snd (f s)). unfold run. destruct (f s); auto. Qed.

Lemma tc_gets {A} (f : State -> A) s Q : Q (f s) s -> tc (gets f) s Q.
Proof. intros H. exists (f s), s. auto. Qed.

Lemma tc_weaken {A} (m : M A) s (P Q : A -> State -> Prop) :
  tc m s P -> (forall a s', P a s' -> Q a s') -> tc m s Q.
Proof. intros (a & s' & E & H) HPQ. exists a, s'. auto. Qed.

(** * Tokens *)

Lemma TokenType_eqb_eq a b : TokenType_eqb a b = true <-> a = b.
Proof. split; [destruct a, b; simpl; congruence | intros ->; destruct b; reflexivity]. Qed.

Lemma check_true ty s : check ty s = true <-> type (current (parser s)) = ty.
Proof. apply TokenType_eqb_eq. Qed.

Lemma check_false ty s : check ty s = false <-> type (current (parser s)) <> ty.
Proof.
  unfold check. destruct (TokenType_eqb _ ty) eqn:E.
  - apply TokenType_eqb_eq in E. split; congruence.
  - split; auto. intros _ H. apply TokenType_eqb_eq in H. congruence.
Qed.

Lemma errorAt_diag t msg s : diag_ok s -> diag_ok (errorAt t msg s).
Proof. intros H. destruct (errorAt_RE t msg s) as [[[? ? ? ? Hd ? ?] _] _]. auto. Qed.

Lemma advance_loop_spec toks : forall s,
  pending (scanner s) = toks ->
  let s' := advance_loop toks s in
  compiler s' = compiler s /\ enclosing s' = enclosing s /\
  currentClass s' = currentClass s /\
  previous (parser s') = previous (parser s) /\
  (diag_ok s -> diag_ok s') /\
  (toks = [] -> measure s' = 0%nat /\ at_eof s') /\
  (toks <> [] -> (measure s' < 2 * length toks)%nat).
Proof.
  induction toks as [|t rest IH]; intros s Hp; simpl.
  - unfold scanToken. rewrite Hp. simpl. splits; auto; [|congruence].
    intros _. unfold measure, at_eof. simpl. rewrite Hp. auto.
  - set (s1 := set_current t (set_scanner (mkScanner rest (line t)) s)).
    assert (H1 : compiler s1 = compiler s /\ enclosing s1 = enclosing s /\
                 currentClass s1 = currentClass s /\
                 previous (parser s1) = previous (parser s) /\
                 (diag_ok s -> diag_ok s1) /\
                 (measure s1 < 2 * S (length rest))%nat).
    { unfold s1, measure, diag_ok; simpl. splits; auto.
      destruct (type t); lia. }
    destruct H1 as (a1 & a2 & a3 & a4 & a5 & a6).
    destruct (type t) eqn:Et;
      try (splits; auto; intros; discriminate).
    specialize (IH (errorAtCurrent (lexeme t ++ trailing t) s1)).
    destruct IH as (b1 & b2 & b3 & b4 & b5 & b6 & b7).
    { unfold errorAtCurrent, errorAt. destruct (panicMode (parser s1)); reflexivity. }
    unfold errorAtCurrent in *.
    rewrite errorAt_compiler, errorAt_enclosing, errorAt_currentClass in *.
    splits; try congruence.
    + rewrite b4. unfold errorAt. destruct (panicMode (parser s1)); auto.
    + auto using errorAt_diag.
    + intros _. destruct rest as [|t0 rest].
      * destruct (b6 eq_refl) as [Hz _]. rewrite Hz. simpl. lia.
      * assert (t0 :: rest <> []) as Hne by discriminate.
        specialize (b7 Hne). simpl length in *. lia.
Qed.

Lemma errorAt_grows t msg s : grows s (errorAt t msg s).
Proof.
  unfold errorAt. destruct (panicMode (parser s)); [apply grows_refl|].
  eexists. reflexivity.
Qed.

Lemma advance_loop_grows toks : forall s, grows s (advance_loop toks s).
Proof.
  induction toks as [|t toks IH]; intros s; simpl.
  - apply grows_same. reflexivity.
  - destruct (type t); try (apply grows_same; reflexivity).
    eapply grows_trans; [|apply IH].
    eapply grows_trans; [|apply errorAt_grows]. apply grows_same. reflexivity.
Qed.

Lemma advance_grows s : grows s (advance s).
Proof.
  unfold advance. eapply grows_trans; [|apply advance_loop_grows].
  apply grows_same. reflexivity.
Qed.

Lemma advance_loop_scan toks : forall s,
  pending (scanner s) = toks ->
  Forall (fun t => type t <> TOKEN_EOF) toks ->
  (type (previous (parser s)) = TOKEN_EOF -> toks = []) ->
  scan_ok (advance_loop toks s).
Proof.
  induction toks as [|t toks IH]; intros s Hp Hf Hprev.
  - simpl. unfold scanToken. rewrite Hp. unfold scan_ok. simpl. rewrite Hp. auto.
  - inversion Hf as [|? ? Ht Hf']; subst.
    assert (Hne : type (previous (parser s)) <> TOKEN_EOF).
    { intros E. specialize (Hprev E). discriminate. }
    simpl. destruct (type t) eqn:Et;
      try (unfold scan_ok; simpl; rewrite Et; splits; [exact Hf' | discriminate | tauto]).
    + apply IH; auto.
      * unfold errorAtCurrent, errorAt. destruct (panicMode _); reflexivity.
      * unfold errorAtCurrent, errorAt. destruct (panicMode _); simpl; tauto.
    + congruence.
Qed.

Lemma advance_scan s : scan_ok s -> scan_ok (advance s).
Proof.
  intros (Hf & Hc & _). unfold advance. apply advance_loop_scan; auto.
Qed.

Lemma advance_spec s :
  RE s (advance s) /\ strict s (advance s) /\
  previous (parser (advance s)) = current (parser s) /\
  compiler (advance s) = compiler s /\ enclosing (advance s) = enclosing s.
Proof.
  unfold advance.
  set (s0 := set_parser _ s).
  destruct (advance_loop_spec (pending (scanner s)) s0 eq_refl)
    as (a1 & a2 & a3 & a4 & a5 & a6 & a7).
  assert (Hms : measure s =
    (2 * length (pending (scanner s)) +
     match type (current (parser s)) with TOKEN_EOF => 0 | _ => 1 end)%nat)
    by reflexivity.
  assert (Hcases : pending (scanner s) = [] \/ pending (scanner s) <> []).
  { destruct (pending (scanner s)); [left|right]; congruence. }
  splits; auto.
  - apply RE_front; auto; [|apply advance_grows|apply advance_scan].
    destruct Hcases as [E|E].
    + destruct (a6 E) as [Hz He]. unfold at_eof in He.
      assert (Hl : length (pending (scanner s)) = 0%nat) by (rewrite E; reflexivity).
      destruct (type (current (parser s))) eqn:Et;
        first [left; lia | right; split; [lia | congruence]].
    + left. specialize (a7 E). lia.
  - intros Hne. destruct Hcases as [E|E].
    + destruct (a6 E) as [Hz He]. unfold at_eof in Hne.
      destruct (type (current (parser s))); try lia. congruence.
    + specialize (a7 E). lia.
Qed.

Lemma advance_RE s : RE s (advance s).
Proof. apply advance_spec. Qed.

Lemma consume_spec ty msg s :
  RE s (consume ty msg s) /\
  (check ty s = true -> ty <> TOKEN_EOF ->
   (measure (consume ty msg s) < measure s)%nat).
Proof.
  unfold consume. destruct (check ty s) eqn:E.
  - split; [apply advance_RE|]. intros _ Hne. apply advance_spec.
    apply check_true in E. unfold at_eof. congruence.
  - split; [apply errorAtCurrent_RE|]. discriminate.
Qed.

Lemma match_spec ty s :
  RE s (snd (match_ ty s)) /\
  (fst (match_ ty s) = true ->
   type (current (parser s)) = ty /\ snd (match_ ty s) = advance s) /\
  (fst (match_ ty s) = false ->
   type (current (parser s)) <> ty /\ snd (match_ ty s) = s).
Proof.
  unfold match_. destruct (check ty s) eqn:E; simpl.
  - splits; [apply advance_RE | | discriminate].
    intros _. split; auto. apply check_true, E.
  - splits; [apply RE_refl | discriminate |].
    intros _. split; auto. apply check_false, E.
Qed.

(** * Steps that touch only the current frame *)

Lemma RE_back s s' :
  parser s' = parser s -> scanner s' = scanner s -> stderr s' = stderr s ->
  enclosing s' = enclosing s -> currentClass s' = currentClass s ->
  depths (compiler s') = depths (compiler s) ->
  scopeDepth (compiler s') = scopeDepth (compiler s) ->
  ftype (compiler s') = ftype (compiler s) ->
  (codelen (compiler s) <= codelen (compiler s'))%nat ->
  RE s s'.
Proof.
  intros Hp Hs He Hn Hk Hd Hsd Hft Hc. unfold RE, R; splits; auto.
  constructor; auto.
  - right. unfold measure. rewrite Hp, Hs. auto.
  - rewrite Hn. apply Forall2_frame_sim_refl.
  - unfold diag_ok. rewrite Hp, He. auto.
  - apply grows_same, He.
  - unfold scan_ok. rewrite Hp, Hs. auto.
Qed.

Lemma emitByte_RE b s : RE s (emitByte b s).
Proof.
  apply RE_back; auto. unfold codelen; simpl. unfold currentChunk.
  rewrite length_app. simpl. lia.
Qed.

Lemma emitByte_codelen b s :
  codelen (compiler (emitByte b s)) = S (codelen (compiler s)).
Proof. unfold codelen; simpl. unfold currentChunk. rewrite length_app. simpl. lia. Qed.

Lemma emitBytes_RE a b s : RE s (emitBytes a b s).
Proof. unfold emitBytes. eapply RE_trans; apply emitByte_RE. Qed.

Lemma emitReturn_RE s : RE s (emitReturn s).
Proof.
  unfold emitReturn.
  destruct (ftype (compiler s));
    eauto using RE_trans, emitByte_RE, emitBytes_RE.
Qed.

Lemma makeConstant_RE v s : RE s (snd (makeConstant v s)).
Proof.
  unfold makeConstant, addConstant.
  destruct (Z.of_nat (length (constants (currentChunk s))) >? UINT8_MAX); simpl.
  - eapply RE_trans; [|apply error_RE]. apply RE_back; auto.
  - apply RE_back; auto.
Qed.

Lemma identifierConstant_RE nm s : RE s (snd (identifierConstant nm s)).
Proof. apply makeConstant_RE. Qed.

Lemma emitConstant_RE v s : RE s (emitConstant v s).
Proof.
  unfold emitConstant. pose proof (makeConstant_RE v s) as H.
  destruct (makeConstant v s) as [c s1]. simpl in H.
  eapply RE_trans; [exact H | apply emitBytes_RE].
Qed.

Lemma emitJump_spec op s :
  RE s (snd (emitJump op s)) /\
  0 <= fst (emitJump op s) /\
  fst (emitJump op s) + 2 = Z.of_nat (codelen (compiler (snd (emitJump op s)))).
Proof.
  unfold emitJump; simpl. splits.
  - eapply RE_trans; [apply emitByte_RE | apply emitBytes_RE].
  - unfold count; simpl. rewrite !length_app; simpl. lia.
  - unfold count, codelen; simpl. lia.
Qed.

Lemma patchJump_tc j s :
  0 <= j -> j + 2 <= Z.of_nat (codelen (compiler s)) ->
  tc (patchJump j) s (fun _ s' => RE s s').
Proof.
  intros H0 H2. unfold patchJump, tc.
  set (s1 := if _ >? UINT16_MAX then error _ s else s).
  assert (H1 : RE s s1 /\ compiler s1 = compiler s).
  { unfold s1. destruct (_ >? UINT16_MAX); [|split; auto using RE_refl].
    split; [apply error_RE | apply errorAt_compiler]. }
  destruct H1 as [H1 Hc].
  assert (Hcount : count (currentChunk s1) = Z.of_nat (codelen (compiler s))).
  { unfold count, currentChunk, codelen. rewrite Hc. reflexivity. }
  rewrite Hcount.
  destruct ((0 <=? j) && (j + 1 <? Z.of_nat (codelen (compiler s)))) eqn:E.
  - eexists tt, _. split; [reflexivity|].
    eapply RE_trans; [exact H1|]. apply RE_back; auto.
    unfold codelen; simpl. rewrite !length_insert.
    unfold currentChunk. lia.
  - apply andb_false_iff in E as [E|E]; lia.
Qed.

Lemma emitLoop_RE l s : RE s (emitLoop l s).
Proof.
  unfold emitLoop.
  eapply RE_trans; [apply emitByte_RE|].
  destruct (_ >? UINT16_MAX).
  - eapply RE_trans; [apply error_RE | apply emitBytes_RE].
  - apply emitBytes_RE.
Qed.



(** * The stack discipline of the locals *)

Lemma StronglySorted_snoc ds x :
  StronglySorted Z.le ds -> Forall (fun y => y <= x) ds ->
  StronglySorted Z.le (ds ++ [x]).
Proof.
  induction 1 as [|a l Hs IH Ha]; intros Hx; simpl.
  - repeat constructor.
  - inversion Hx; subst. constructor; auto.
    apply Forall_app; split; auto.
Qed.

Lemma StronglySorted_prefix (ds es : list Z) :
  StronglySorted Z.le (ds ++ es) -> StronglySorted Z.le ds.
Proof.
  induction ds as [|a ds IH]; simpl; intros H; [constructor|].
  apply StronglySorted_inv in H as [H Ha]. constructor; auto.
  apply Forall_app in Ha. tauto.
Qed.

Lemma scoped_mono d d' ds : d <= d' -> scoped d ds -> scoped d' ds.
Proof.
  intros Hd (H0 & Hs & Hle). unfold scoped; splits; auto.
  eapply Forall_impl; [exact Hle|]. simpl. intros; lia.
Qed.

Lemma scoped_snoc d ds : scoped d ds -> scoped d (ds ++ [d]).
Proof.
  intros ((rest & ->) & Hs & Hle). unfold scoped; splits.
  - exists (rest ++ [d]). reflexivity.
  - apply StronglySorted_snoc; auto.
  - apply Forall_app; split; auto. constructor; [lia|constructor].
Qed.

Lemma scoped_prefix d ds x : ds <> [] -> scoped d (ds ++ [x]) -> scoped d ds.
Proof.
  intros Hne ((rest & E) & Hs & Hle). unfold scoped; splits.
  - destruct ds as [|a ds]; [congruence|]. simpl in E. injection E as -> _. eauto.
  - eapply StronglySorted_prefix; eauto.
  - apply Forall_app in Hle. tauto.
Qed.

Lemma scoped_nonneg d ds : scoped d ds -> 0 <= d.
Proof. intros ((rest & ->) & _ & Hle). inversion Hle; auto. Qed.

Lemma scoped_nonempty d ds : scoped d ds -> ds <> [].
Proof. intros ((rest & ->) & _). discriminate. Qed.

Lemma wfp_ext c c' :
  depths c' = depths c -> scopeDepth c' = scopeDepth c -> wfp c -> wfp c'.
Proof. unfold wfp, wf. intros -> ->. auto. Qed.

Lemma wf_wfp c : wf c -> (2 <= length (depths c))%nat -> wfp c.
Proof.
  intros Hw Hl. split; [|auto]. intros _.
  destruct (depths c) as [|a ds] eqn:E using rev_ind; [simpl in Hl; lia|].
  exists ds, a. split; [reflexivity|].
  unfold wf in Hw. rewrite E in Hw. eapply scoped_prefix; eauto.
  intros ->. simpl in Hl. lia.
Qed.

Lemma beginScope_spec s :
  wf (compiler s) ->
  B s (beginScope s) /\
  scopeDepth (compiler (beginScope s)) = scopeDepth (compiler s) + 1 /\
  currentClass (beginScope s) = currentClass s /\
  depths (compiler (beginScope s)) = depths (compiler s) /\
  wf (compiler (beginScope s)).
Proof.
  intros Hw. unfold beginScope. splits; auto.
  - constructor; auto using Forall2_frame_sim_refl.
  - unfold wf in *. simpl. eapply scoped_mono; [|exact Hw]. lia.
Qed.

Lemma addLocal_spec nm s :
  wf (compiler s) -> 0 < scopeDepth (compiler s) ->
  R s (addLocal nm s) /\ wfp (compiler (addLocal nm s)).
Proof.
  intros Hw Hd. unfold addLocal.
  destruct (localCount (compiler s) =? UINT8_COUNT) eqn:E.
  - destruct (error_RE "Too many local variables in function." s) as [HR _].
    split; [exact HR|].
    unfold error. rewrite errorAt_compiler. apply wf_wfp; auto.
    unfold depths. rewrite length_map. unfold localCount, UINT8_COUNT in E. lia.
  - split.
    + unfold R; splits; auto. constructor; auto using Forall2_frame_sim_refl.
    + split; [|simpl; lia]. intros _. simpl.
      exists (depths (compiler s)), (-1). split; [|exact Hw].
      unfold depths; simpl. rewrite map_app. reflexivity.
Qed.

Lemma front_refl s : front s s.
Proof. unfold front; auto using RE_refl. Qed.

Lemma front_trans a b c : front a b -> front b c -> front a c.
Proof.
  intros (?&?&?) (?&?&?). unfold front; splits; try congruence.
  eauto using RE_trans.
Qed.

Lemma error_front msg s : front s (error msg s).
Proof.
  unfold front, error. rewrite errorAt_compiler, errorAt_enclosing.
  auto using errorAt_RE.
Qed.

Lemma declareVariable_loop_front l nm : forall s,
  front s (declareVariable_loop l nm s).
Proof.
  induction l as [|a l IH]; intros s; simpl; [apply front_refl|].
  destruct (negb (depth a =? -1) && (depth a <? scopeDepth (compiler s)));
    [apply front_refl|].
  destruct (identifiersEqual nm (lname a)); [|apply IH].
  eapply front_trans; [apply error_front | apply IH].
Qed.

Lemma front_R s s' : front s s' -> R s s'.
Proof. intros (_ & _ & [H _]). exact H. Qed.

Lemma R_wf s s' : RE s s' -> wf (compiler s) -> wf (compiler s').
Proof. intros [(_ & Hd & _) He]. apply wf_ext; auto. Qed.

Lemma R_wfp s s' : RE s s' -> wfp (compiler s) -> wfp (compiler s').
Proof. intros [(_ & Hd & _) He]. apply wfp_ext; auto. Qed.

Lemma declareVariable_spec s :
  wf (compiler s) ->
  R s (declareVariable s) /\ wfp (compiler (declareVariable s)).
Proof.
  intros Hw. unfold declareVariable.
  destruct (scopeDepth (compiler s) =? 0) eqn:E.
  - split; [apply R_refl|]. split; [lia | auto].
  - set (s1 := declareVariable_loop _ _ s).
    destruct (declareVariable_loop_front (rev (locals (compiler s))) (previous (parser s)) s)
      as (Hc & He & HRE). fold s1 in Hc, He, HRE.
    assert (0 <= scopeDepth (compiler s)) by (eapply scoped_nonneg; exact Hw).
    destruct (addLocal_spec (previous (parser s)) s1) as [HR Hp].
    + rewrite Hc. exact Hw.
    + rewrite Hc. lia.
    + split; [|exact Hp]. eapply R_trans; [apply HRE | exact HR].
Qed.

Lemma parseVariable_spec msg s :
  wf (compiler s) ->
  R s (snd (parseVariable msg s)) /\ wfp (compiler (snd (parseVariable msg s))).
Proof.
  intros Hw. unfold parseVariable.
  destruct (consume_spec TOKEN_IDENTIFIER msg s) as [Hc _].
  destruct (declareVariable_spec (consume TOKEN_IDENTIFIER msg s)) as [Hd Hp];
    [eapply R_wf; eauto|].
  set (s1 := declareVariable _) in *.
  destruct (scopeDepth (compiler s1) >? 0) eqn:E; simpl.
  - split; [|exact Hp]. eapply R_trans; [apply Hc | exact Hd].
  - pose proof (identifierConstant_RE (previous (parser s1)) s1) as Hi.
    split; [|eapply R_wfp; eauto].
    eapply R_trans; [apply Hc|]. eapply R_trans; [exact Hd | apply Hi].
Qed.

Lemma alter_last {A} (f : A -> A) (l : list A) x :
  alter f (length (l ++ [x]) - 1)%nat (l ++ [x]) = l ++ [f x].
Proof.
  rewrite length_app. simpl.
  replace (length l + 1 - 1)%nat with (length l + 0)%nat by lia.
  induction l as [|a l IH]; simpl; [reflexivity|]. f_equal. exact IH.
Qed.

Lemma markInitialized_tc s :
  wfp (compiler s) ->
  tc markInitialized s
     (fun _ s' => R s s' /\ wf (compiler s') /\ wfp (compiler s')).
Proof.
  intros Hpw. pose proof Hpw as [Hp Hw].
  unfold markInitialized, tc.
  destruct (scopeDepth (compiler s) =? 0) eqn:E.
  - exists tt, s. split; [reflexivity|]. splits; auto using R_refl.
    apply Hw; lia.
  - destruct (Z_lt_le_dec 0 (scopeDepth (compiler s))) as [Hpos|Hneg].
    + destruct (Hp Hpos) as (ds & top & Ed & Hs).
      destruct (exists_last (l := locals (compiler s))) as (li & la & Ela).
      { intros El. unfold depths in Ed. rewrite El in Ed. destruct ds; discriminate. }
      destruct (locals (compiler s)) as [|l0 ls] eqn:El.
      { destruct li; discriminate. }
      rewrite Ela, alter_last.
      eexists tt, _. split; [reflexivity|].
      assert (Eds : map depth li = ds).
      { unfold depths in Ed. rewrite El, Ela, map_app in Ed. simpl in Ed.
        apply app_inj_tail in Ed. tauto. }
      assert (Hd' : depths (set_locals
                 (li ++ [mkLocal (lname la) (scopeDepth (compiler s)) (isCaptured la)])
                 (compiler s)) = ds ++ [scopeDepth (compiler s)]).
      { unfold depths; simpl. rewrite map_app, Eds. reflexivity. }
      splits.
      * unfold R; splits; auto. constructor; auto using Forall2_frame_sim_refl.
      * unfold wf. cbn [compiler set_compiler]. rewrite Hd'. simpl. apply scoped_snoc, Hs.
      * split; [|simpl; lia]. intros _. cbn [compiler set_compiler].
        rewrite Hd'. simpl. eauto using scoped_snoc.
    + pose proof (scoped_nonneg _ _ (Hw Hneg)). lia.
Qed.

Lemma defineVariable_tc g s :
  wfp (compiler s) ->
  tc (defineVariable g) s
     (fun _ s' => R s s' /\ wf (compiler s') /\ wfp (compiler s')).
Proof.
  intros Hp. unfold defineVariable, tc. cbv beta.
  destruct (scopeDepth (compiler s) >? 0) eqn:E; [apply markInitialized_tc, Hp|].
  eexists tt, _. split; [reflexivity|].
  pose proof (emitBytes_RE OP_DEFINE_GLOBAL g s) as HR.
  assert (wf (compiler s)) by (apply Hp; lia).
  splits; [apply HR | eapply R_wf; eauto | eapply R_wfp; eauto].
Qed.

Lemma scoped_filter d (l : list Local) :
  scoped (d + 1) (map depth l) -> 0 <= d ->
  scoped d (map depth (filter (fun x => depth x <= d) l)).
Proof.
  intros ((rest & E) & Hs & Hle) Hd. unfold scoped; splits.
  - destruct l as [|a l]; [discriminate|]. simpl in E. injection E as Ha _.
    rewrite filter_cons. destruct (decide (depth a <= d)); [|lia].
    simpl. rewrite Ha. eauto.
  - clear E Hle. induction l as [|a l IH]; [constructor|].
    simpl in Hs. apply StronglySorted_inv in Hs as [Hs Ha].
    rewrite filter_cons. destruct (decide (depth a <= d)); auto.
    simpl. constructor; auto.
    rewrite List.Forall_map in *. rewrite List.Forall_forall in *.
    intros x Hx. apply Ha. rewrite <- list_elem_of_In in *.
    apply list_elem_of_filter in Hx. tauto.
  - rewrite List.Forall_map. apply List.Forall_forall. intros x Hx.
    rewrite <- list_elem_of_In in Hx. apply list_elem_of_filter in Hx. tauto.
Qed.

(** What [endScope] does to a frame that obeys the discipline. *)
Lemma endScope_spec s :
  wf (compiler s) -> 1 <= scopeDepth (compiler s) ->
  let d := scopeDepth (compiler s) - 1 in
  exists s', endScope s = Ok tt s' /\
    scopeDepth (compiler s') = d /\
    locals (compiler s') = filter (fun l => depth l <= d) (locals (compiler s)) /\
    code (currentChunk s') =
      code (currentChunk s) ++
      map closeOp (rev (filter (fun l => d < depth l) (locals (compiler s)))) /\
    parser s' = parser s /\ enclosing s' = enclosing s /\
    currentClass s' = currentClass s /\ stderr s' = stderr s /\
    scanner s' = scanner s /\ ftype (compiler s') = ftype (compiler s).
Proof.
  intros (Hhd & Hs & Hle) Hd d.
  set (keep := filter (fun l => depth l <= d) (locals (compiler s))).
  set (gone := filter (fun l => d < depth l) (locals (compiler s))).
  assert (E : locals (compiler s) = keep ++ gone) by (apply StronglySorted_split, Hs).
  unfold endScope. set (s1 := set_compiler _ s).
  destruct (endScope_loop_spec gone keep s1 d)
    as (s' & He & H1 & H2 & H3 & H4 & H5 & H6 & H7 & H8 & H9 & _); auto.
  - apply Forall_forall. intros x Hx. unfold gone in Hx.
    apply list_elem_of_filter in Hx. tauto.
  - destruct Hhd as (ds & Hds). unfold depths in Hds.
    destruct (locals (compiler s)) as [|l0 ls] eqn:El; [discriminate|].
    simpl in Hds. injection Hds as H0 _.
    assert (Hne : keep <> []).
    { unfold keep. rewrite filter_cons. destruct (decide (depth l0 <= d)); [discriminate|].
      unfold d in *. lia. }
    destruct (exists_last Hne) as (kl & k0 & Ek). exists kl, k0. split; [exact Ek|].
    assert (Hin : k0 ∈ keep) by (rewrite Ek; apply elem_of_app; right; constructor).
    unfold keep in Hin. apply list_elem_of_filter in Hin. tauto.
  - exists s'. replace (locals (compiler s1)) with (keep ++ gone)
      by (unfold s1; simpl; congruence).
    rewrite He. splits; auto.
Qed.

Lemma endScope_tc s :
  wf (compiler s) -> 1 <= scopeDepth (compiler s) ->
  tc endScope s
     (fun _ s' => B s s' /\ scopeDepth (compiler s') = scopeDepth (compiler s) - 1 /\
                  currentClass s' = currentClass s /\ wf (compiler s')).
Proof.
  intros Hw Hd.
  destruct (endScope_spec s Hw Hd)
    as (s' & He & H1 & H2 & H3 & H4 & H5 & H6 & H7 & H8 & H9).
  exists tt, s'. split; [exact He|]. splits; auto.
  - constructor.
    + right. unfold measure. rewrite H4, H8. auto.
    + rewrite H5. apply Forall2_frame_sim_refl.
    + unfold codelen. fold (currentChunk s). fold (currentChunk s').
      rewrite H3, length_app. lia.
    + exact H9.
    + unfold diag_ok. rewrite H4, H7. auto.
    + apply grows_same, H7.
    + unfold scan_ok. rewrite H4, H8. auto.
  - unfold wf, depths. rewrite H1, H2. apply scoped_filter; [|lia].
    replace (scopeDepth (compiler s) - 1 + 1) with (scopeDepth (compiler s)) by lia.
    exact Hw.
Qed.



(** * Name resolution leaves the shape of every frame alone *)

Lemma resolveLocal_front c nm s : front s (snd (resolveLocal c nm s)).
Proof.
  unfold resolveLocal. destruct (resolveLocal_loop (rev (locals c)) nm) as [[i a]|]; simpl.
  - destruct (depth a =? -1); [apply error_front | apply front_refl].
  - apply front_refl.
Qed.

Lemma addUpvalue_sim c idx b s :
  front s (snd (addUpvalue c idx b s)) /\
  frame_sim c (snd (fst (addUpvalue c idx b s))).
Proof.
  unfold addUpvalue.
  destruct (addUpvalue_loop (upvalues c) 0 (upvalueCount (function c)) idx b); simpl.
  - split; [apply front_refl | apply frame_sim_refl].
  - destruct (upvalueCount (function c) =? UINT8_COUNT); simpl.
    + split; [apply error_front | apply frame_sim_refl].
    + split; [apply front_refl|]. unfold frame_sim, depths, codelen; simpl.
      destruct (function c); simpl. splits; auto.
Qed.

Lemma capture_sim k e : frame_sim e (capture k e).
Proof.
  unfold frame_sim, depths, codelen, capture; simpl. splits; auto.
  generalize (Z.to_nat k) as n. generalize (locals e) as l.
  induction l as [|a l IH]; intros [|n]; simpl; auto. f_equal. apply IH.
Qed.

Lemma resolveUpvalue_sim outer : forall c nm s,
  front s (snd (resolveUpvalue c outer nm s)) /\
  frame_sim c (snd (fst (fst (resolveUpvalue c outer nm s)))) /\
  Forall2 frame_sim outer (snd (fst (resolveUpvalue c outer nm s))).
Proof.
  induction outer as [|e outer IH]; intros c nm s; simpl.
  - splits; auto using front_refl, frame_sim_refl.
  - pose proof (resolveLocal_front e nm s) as Hl.
    destruct (resolveLocal e nm s) as [loc sa]. simpl in Hl.
    destruct (negb (loc =? -1)).
    + destruct (addUpvalue_sim c (loc mod 256) true sa) as [Ha Hc].
      destruct (addUpvalue c (loc mod 256) true sa) as [[j c'] sb]. simpl in *.
      splits; eauto using front_trans.
      constructor; auto using capture_sim, Forall2_frame_sim_refl.
    + destruct (IH e nm sa) as (I1 & I2 & I3).
      destruct (resolveUpvalue e outer nm sa) as [[[up e'] outer''] sb]. simpl in *.
      destruct (negb (up =? -1)).
      * destruct (addUpvalue_sim c (up mod 256) false sb) as [Ha Hc].
        destruct (addUpvalue c (up mod 256) false sb) as [[j c'] sc]. simpl in *.
        splits; eauto using front_trans.
      * simpl. splits; eauto using front_trans, frame_sim_refl.
Qed.

Lemma set_frames_RE s s2 c outer :
  front s s2 -> frame_sim (compiler s) c -> Forall2 frame_sim (enclosing s) outer ->
  RE s (set_frames c outer s2).
Proof.
  intros (Hc & He & [(HB & Hd & Hk) Hds]) (F1 & F2 & F3 & F4) Ho.
  unfold RE, R; splits; simpl; auto.
  destruct HB as [m e k t g r q]. constructor; simpl; auto.
Qed.

Lemma namedVariable_resolve_RE nm s : RE s (snd (namedVariable_resolve nm s)).
Proof.
  unfold namedVariable_resolve.
  pose proof (resolveLocal_front (compiler s) nm s) as Hl.
  destruct (resolveLocal (compiler s) nm s) as [arg s1]. simpl in Hl.
  destruct (negb (arg =? -1)); simpl; [apply Hl|].
  destruct (resolveUpvalue_sim (enclosing s1) (compiler s1) nm s1) as (I1 & I2 & I3).
  destruct (resolveUpvalue (compiler s1) (enclosing s1) nm s1) as [[[a c] outer] s2].
  simpl in *.
  assert (H3 : RE s (set_frames c outer s2)).
  { pose proof Hl as (Hc & He & _). apply set_frames_RE.
    - eapply front_trans; [exact Hl | exact I1].
    - rewrite <- Hc. exact I2.
    - rewrite <- He. exact I3. }
  destruct (negb (a =? -1)); simpl; [exact H3|].
  pose proof (identifierConstant_RE nm (set_frames c outer s2)) as Hi.
  destruct (identifierConstant nm (set_frames c outer s2)) as [k s4]. simpl in *.
  eapply RE_trans; eauto.
Qed.



(** * Specifications of the steps, in the form the sequencing rule takes *)

Lemma B_code_le a b : B a b -> (codelen (compiler a) <= codelen (compiler b))%nat.
Proof. intros [_ _ H _ _ _ _]. exact H. Qed.

Lemma B_progress a b :
  B a b -> type (current (parser b)) <> type (current (parser a)) ->
  (measure b < measure a)%nat.
Proof. intros [[|[? ?]] _ _ _ _ _ _] Hne; [lia | congruence]. Qed.

Lemma tc_advance s :
  tc (step advance) s
     (fun _ s' => RE s s' /\ strict s s' /\
                  type (previous (parser s')) = type (current (parser s))).
Proof.
  apply tc_step. destruct (advance_spec s) as (H1 & H2 & H3 & _).
  splits; auto. congruence.
Qed.

Lemma tc_consume ty msg s :
  tc (step (consume ty msg)) s
     (fun _ s' => RE s s' /\ (type (current (parser s)) = ty -> strict s s')).
Proof.
  apply tc_step. split; [apply consume_spec|].
  intros Hty. unfold consume. apply check_true in Hty. rewrite Hty.
  apply advance_spec.
Qed.

Lemma tc_match ty s :
  tc (run (match_ ty)) s
     (fun b s' => RE s s' /\
        if b then type (current (parser s)) = ty /\ strict s s' /\
                  type (previous (parser s')) = ty
        else type (current (parser s)) <> ty /\ s' = s).
Proof.
  apply tc_run. destruct (match_spec ty s) as (H1 & H2 & H3).
  split; [exact H1|].
  destruct (fst (match_ ty s)).
  - destruct (H2 eq_refl) as [Ht ->].
    destruct (advance_spec s) as (_ & A2 & A3 & _). splits; auto. congruence.
  - apply H3. reflexivity.
Qed.

Lemma tc_RE_step f s :
  (forall x, RE x (f x)) -> tc (step f) s (fun _ s' => RE s s').
Proof. intros H. apply tc_step, H. Qed.

Lemma tc_RE_run {A} (f : State -> A * State) s :
  (forall x, RE x (snd (f x))) -> tc (run f) s (fun _ s' => RE s s').
Proof. intros H. apply tc_run, H. Qed.

Lemma tc_emitJump op s :
  tc (run (emitJump op)) s
     (fun j s' => RE s s' /\ 0 <= j /\ j + 2 = Z.of_nat (codelen (compiler s'))).
Proof. apply tc_run, emitJump_spec. Qed.

Lemma tc_get {A} (f : State -> A) s :
  tc (gets f) s (fun a s' => s' = s /\ a = f s).
Proof. apply tc_gets. auto. Qed.

Lemma tc_parseVariable msg s :
  wf (compiler s) ->
  tc (run (parseVariable msg)) s (fun _ s' => R s s' /\ wfp (compiler s')).
Proof. intros H. apply tc_run, parseVariable_spec, H. Qed.

Lemma tc_beginScope s :
  wf (compiler s) ->
  tc (step beginScope) s
     (fun _ s' => B s s' /\
        scopeDepth (compiler s') = scopeDepth (compiler s) + 1 /\
        currentClass s' = currentClass s /\
        depths (compiler s') = depths (compiler s) /\ wf (compiler s')).
Proof. intros H. apply tc_step, beginScope_spec, H. Qed.

Lemma tc_ret_eq {A} (a : A) s : tc (ret a) s (fun r s' => s' = s /\ r = a).
Proof. apply tc_ret. auto. Qed.

Lemma tc_when_RE b (m : M unit) s :
  (b = true -> tc m s (fun _ s' => RE s s')) ->
  tc (when b m) s (fun _ s' => RE s s').
Proof. destruct b; simpl; intros H; [auto | apply tc_ret, RE_refl]. Qed.

Lemma tc_when b (m : M unit) s (Q : unit -> State -> Prop) :
  (b = true -> tc m s Q) -> (b = false -> Q tt s) -> tc (when b m) s Q.
Proof. destruct b; simpl; intros H1 H2; [auto | apply tc_ret; auto]. Qed.

Lemma tc_assoc {A C D} (m : M A) (f : A -> M C) (g : C -> M D) s Q :
  tc (bind m (fun x => bind (f x) g)) s Q -> tc (bind (bind m f) g) s Q.
Proof.
  intros (a & s' & E & H). exists a, s'. split; auto.
  unfold bind in *. destruct (m s); auto.
Qed.

Lemma tc_step_eq f s : tc (step f) s (fun _ s' => s' = f s).
Proof. apply tc_step. reflexivity. Qed.

Lemma clear_panic_RE s :
  RE s (set_parser (mkParser (current (parser s)) (previous (parser s))
                             (hadError (parser s)) false) s).
Proof.
  apply RE_front; auto.
  unfold diag_ok; simpl. intros [H _]. split; [exact H | discriminate].
Qed.

Lemma emitUpvalues_RE n ups s : RE s (emitUpvalues n ups s).
Proof.
  unfold emitUpvalues. generalize (take (Z.to_nat n) ups) as l. intros l.
  revert s. induction l as [|u l IH]; intros s; simpl; [apply RE_refl|].
  eapply RE_trans; [|apply IH].
  eapply RE_trans; apply emitByte_RE.
Qed.

Lemma tc_endScope s :
  wf (compiler s) -> 1 <= scopeDepth (compiler s) ->
  tc endScope s
     (fun _ s' => B s s' /\ scopeDepth (compiler s') = scopeDepth (compiler s) - 1 /\
                  currentClass s' = currentClass s /\ wf (compiler s')).
Proof. apply endScope_tc. Qed.

Lemma at_eof_dec s : at_eof s \/ ~ at_eof s.
Proof. unfold at_eof. destruct (type (current (parser s))); auto; right; discriminate. Qed.

Lemma tc_when_R b (m : M unit) s :
  wf (compiler s) ->
  (b = true -> tc m s (fun _ s' => R s s' /\ wf (compiler s'))) ->
  tc (when b m) s (fun _ s' => R s s' /\ wf (compiler s')).
Proof. destruct b; simpl; intros Hw H; [auto | apply tc_ret; auto using R_refl]. Qed.

(** The end of [function]: the frame is popped and the closure is emitted
    into the frame that was current when [function] began. *)
Lemma function_finish ty s sb ups :
  B (beginScope (initCompiler ty s)) sb ->
  currentClass sb = currentClass s ->
  tc (fun st =>
        match endCompiler st with
        | (_, None) => Undefined
        | (fn, Some s1) =>
            let '(k, s2) := makeConstant (OBJ_FUNCTION fn) s1 in
            Ok tt (emitUpvalues (upvalueCount fn) ups (emitBytes OP_CLOSURE k s2))
        end) sb
     (fun _ s' => RE s s' /\ (measure s' <= measure sb)%nat).
Proof.
  intros [m e c t g r q] Hk. simpl in e.
  inversion e as [|c0 c' l0 rest Hsim Hrest E1 E2]; subst.
  unfold tc, endCompiler.
  assert (He : enclosing (emitReturn sb) = enclosing sb).
  { unfold emitReturn. destruct (ftype (compiler sb)); reflexivity. }
  assert (Hp : parser (emitReturn sb) = parser sb).
  { unfold emitReturn. destruct (ftype (compiler sb)); reflexivity. }
  assert (Hs : scanner (emitReturn sb) = scanner sb).
  { unfold emitReturn. destruct (ftype (compiler sb)); reflexivity. }
  assert (Hc : currentClass (emitReturn sb) = currentClass sb).
  { unfold emitReturn. destruct (ftype (compiler sb)); reflexivity. }
  assert (Hd : stderr (emitReturn sb) = stderr sb).
  { unfold emitReturn. destruct (ftype (compiler sb)); reflexivity. }
  rewrite He, <- E2, Hp, Hs, Hc, Hd.
  set (s4 := mkState (scanner sb) (parser sb) c' rest (currentClass sb) (stderr sb)).
  assert (H4 : RE s s4 /\ measure s4 = measure sb).
  { destruct Hsim as (F1 & F2 & F3 & F4). split; [|reflexivity].
    unfold RE, R; splits; auto. constructor; auto. }
  destruct H4 as [H4 Hm4].
  pose proof (makeConstant_RE (OBJ_FUNCTION (function (compiler (emitReturn sb)))) s4) as H5.
  destruct (makeConstant _ s4) as [k s5]. simpl in H5.
  eexists tt, _. split; [reflexivity|].
  assert (H6 : RE s4 (emitUpvalues
     (upvalueCount (function (compiler (emitReturn sb)))) ups (emitBytes OP_CLOSURE k s5))).
  { eapply RE_trans; [exact H5|].
    eapply RE_trans; [apply emitBytes_RE | apply emitUpvalues_RE]. }
  split; [eapply RE_trans; eauto|].
  destruct H6 as [(HB & _) _]. apply B_le in HB. lia.
Qed.

Lemma wf_nonneg c : wf c -> 0 <= scopeDepth c.
Proof. apply scoped_nonneg. Qed.

Lemma tc_declareVariable s :
  wf (compiler s) ->
  tc (step declareVariable) s (fun _ s' => R s s' /\ wfp (compiler s')).
Proof. intros H. apply tc_step, declareVariable_spec, H. Qed.

Lemma tc_addLocal nm s :
  wf (compiler s) -> 0 < scopeDepth (compiler s) ->
  tc (step (addLocal nm)) s (fun _ s' => R s s' /\ wfp (compiler s')).
Proof. intros H H0. apply tc_step, addLocal_spec; auto. Qed.

Lemma tc_push_class s :
  tc (step (fun s =>
        set_currentClass (mkClassCompiler (previous (parser s)) false :: currentClass s) s))
     s (fun _ s' => B s s' /\
          scopeDepth (compiler s') = scopeDepth (compiler s) /\
          depths (compiler s') = depths (compiler s) /\
          exists k, currentClass s' = k :: currentClass s).
Proof.
  apply tc_step. splits; eauto.
  constructor; auto using Forall2_frame_sim_refl.
Qed.

Lemma tc_set_super s :
  currentClass s <> [] ->
  tc (fun s =>
        match currentClass s with
        | [] => Undefined
        | cc :: outer => Ok tt (set_currentClass (mkClassCompiler (cname cc) true :: outer) s)
        end)
     s (fun _ s' => B s s' /\
          scopeDepth (compiler s') = scopeDepth (compiler s) /\
          depths (compiler s') = depths (compiler s) /\
          exists k k' o, currentClass s = k :: o /\ currentClass s' = k' :: o).
Proof.
  intros Hne. unfold tc. destruct (currentClass s) as [|cc outer] eqn:E; [congruence|].
  eexists tt, _. split; [reflexivity|]. splits; eauto.
  constructor; auto using Forall2_frame_sim_refl.
Qed.

Lemma tc_pop_class s :
  currentClass s <> [] ->
  tc (fun s =>
        match currentClass s with
        | [] => Undefined
        | _ :: outer => Ok tt (set_currentClass outer s)
        end)
     s (fun _ s' => B s s' /\
          scopeDepth (compiler s') = scopeDepth (compiler s) /\
          depths (compiler s') = depths (compiler s) /\
          exists k, currentClass s = k :: currentClass s').
Proof.
  intros Hne. unfold tc. destruct (currentClass s) as [|cc outer] eqn:E; [congruence|].
  eexists tt, _. split; [reflexivity|]. splits; eauto.
  constructor; auto using Forall2_frame_sim_refl.
Qed.

(** * Bookkeeping tactics *)

Ltac facts H :=
  lazymatch type of H with
  | RE _ _ =>
      let H1 := fresh "HR" in let H2 := fresh "Hds" in
      destruct H as [H1 H2]; facts H1
  | R _ _ =>
      let H1 := fresh "HB" in let H2 := fresh "Hsd" in let H3 := fresh "Hcl" in
      destruct H as (H1 & H2 & H3); facts H1
  | B ?a ?b => pose proof (B_le a b H); pose proof (B_code_le a b H)
  | strict ?a ?b =>
      try (assert (measure b < measure a)%nat by
             (apply H; unfold at_eof; congruence))
  | _ /\ _ =>
      let H1 := fresh "H" in let H2 := fresh "H" in
      destruct H as [H1 H2]; facts H1; facts H2
  | ex _ => let x := fresh "x" in destruct H as [x H]; facts H
  | ?x = _ => try (is_var x; subst x)
  | _ => idtac
  end.

Ltac iffacts :=
  repeat match goal with
    | H : (if true then _ else _) |- _ => cbv iota in H
    | H : (if false then _ else _) |- _ => cbv iota in H
    | H : _ /\ _ |- _ => facts H
    end.

Ltac chainB :=
  solve [ apply B_refl
        | match goal with
          | H : B ?a ?b |- B ?a ?c => apply (B_trans a b c H); chainB
          end ].

Ltac solve_wf :=
  match goal with
  | Hw : wf (compiler ?a) |- wf (compiler ?b) =>
      apply (wf_ext (compiler a)); [congruence | congruence | exact Hw]
  end.

Ltac solve_wfp :=
  match goal with
  | Hw : wfp (compiler ?a) |- wfp (compiler ?b) =>
      apply (wfp_ext (compiler a)); [congruence | congruence | exact Hw]
  end.

Ltac solve_strict :=
  let Hne := fresh "Hne" in
  intros Hne;
  repeat match goal with
    | H : strict ?a ?b, Hn : ~ at_eof ?a |- _ =>
        lazymatch goal with
        | _ : (measure b < measure a)%nat |- _ => fail
        | _ => pose proof (H Hn)
        end
    end;
  lia.

Ltac side :=
  try (progress simpl pre);
  first [ assumption
        | exact I
        | solve [unfold fits in *; simpl rank in *; lia]
        | solve_wf
        | solve_wfp
        | solve [unfold PREC_ASSIGNMENT, PREC_OR, PREC_AND, PREC_UNARY in *; lia]
        | solve [auto using emitByte_RE, emitBytes_RE, error_RE, errorAtCurrent_RE,
                   emitReturn_RE, emitLoop_RE, emitConstant_RE, identifierConstant_RE,
                   makeConstant_RE, namedVariable_resolve_RE]
        | idtac ].

Ltac fin :=
  cbv beta; unfold RE, R; splits;
  first [ chainB | congruence | solve_wf | solve_wfp | solve_strict | lia | idtac ].

Ltac assoc :=
  repeat lazymatch goal with
    | |- tc (bind (bind _ _) _) _ _ => apply tc_assoc
    end.

Tactic Notation "tcb" uconstr(lem) :=
  assoc;
  eapply tc_bind; [eapply lem; side |
    let a := fresh "a" in let s := fresh "s" in let H := fresh "H" in
    intros a s H; cbv beta in H; simpl post in H; facts H].

Tactic Notation "tcb" uconstr(lem) "as" ident(a) :=
  assoc;
  eapply tc_bind; [eapply lem; side |
    let s := fresh "s" in let H := fresh "H" in
    intros a s H; cbv beta in H; simpl post in H; facts H].

Tactic Notation "tce" uconstr(lem) :=
  eapply tc_weaken; [eapply lem; side |
    let a := fresh "a" in let s := fresh "s" in let H := fresh "H" in
    intros a s H; cbv beta in H; simpl post in H; facts H; fin].

Ltac emit := tcb tc_RE_step.
Ltac emit_end := tce tc_RE_step.

(** * The descent functions, given recursive calls that meet their
      specification *)

Section Rec.

Variable rec : forall A, Task A -> M A.
Variable N : nat.
Hypothesis Hrec : forall A (t : Task A) s,
  fits N (rank t) s -> pre t s -> tc (rec A t) s (fun _ s' => post t s s').

Lemma rec_tc A (t : Task A) s :
  fits N (rank t) s -> pre t s -> tc (rec A t) s (fun _ s' => post t s s').
Proof. apply Hrec. Qed.

Lemma parsePrecedence_tc p s :
  1 <= p -> fits N 0 s ->
  tc (parsePrecedence rec p) s (fun _ s' => RE s s' /\ strict s s').
Proof. intros. apply (Hrec _ (ParsePrecedence p)); auto. Qed.

Lemma expression_tc s :
  fits N 0 s -> tc (expression rec) s (fun _ s' => RE s s' /\ strict s s').
Proof. intros. apply parsePrecedence_tc; auto. unfold PREC_ASSIGNMENT; lia. Qed.

Lemma getRule_prec_nonneg ty : 0 <= precedence (getRule ty).
Proof. destruct ty; simpl; unfold PREC_NONE, PREC_CALL, PREC_TERM, PREC_FACTOR,
  PREC_EQUALITY, PREC_COMPARISON, PREC_AND, PREC_OR; lia. Qed.

Lemma binary_tc ca s : fits N 0 s -> tc (binary rec ca) s (fun _ s' => RE s s').
Proof.
  intros Hf. unfold binary.
  tcb tc_get as ty.
  tcb parsePrecedence_tc. { pose proof (getRule_prec_nonneg (type (previous (parser s)))). lia. }
  tce tc_RE_step.
  intros x. unfold binary_emit.
  destruct (type (previous (parser s))); auto using RE_refl, emitByte_RE, emitBytes_RE.
Qed.

Lemma unary_tc ca s : fits N 0 s -> tc (unary rec ca) s (fun _ s' => RE s s').
Proof.
  intros Hf. unfold unary.
  tcb tc_get as ty.
  tcb parsePrecedence_tc.
  tce tc_RE_step.
  intros x. destruct (type (previous (parser s))); auto using RE_refl, emitByte_RE.
Qed.

Lemma argumentList_tc s : fits N 1 s -> tc (argumentList rec) s (fun _ s' => RE s s').
Proof.
  intros Hf. unfold argumentList.
  tcb tc_get as closed.
  destruct (negb (check TOKEN_RIGHT_PAREN s)).
  - tcb (rec_tc _ (ArgumentLoop 0)).
    tcb tc_consume. apply tc_ret. fin.
  - tcb tc_ret_eq. tcb tc_consume. apply tc_ret. fin.
Qed.

Lemma call_tc ca s : fits N 1 s -> tc (call rec ca) s (fun _ s' => RE s s').
Proof.
  intros Hf. unfold call.
  tcb argumentList_tc. emit_end.
Qed.

Lemma grouping_tc ca s : fits N 0 s -> tc (grouping rec ca) s (fun _ s' => RE s s').
Proof.
  intros Hf. unfold grouping.
  tcb expression_tc. tce tc_consume.
Qed.

Lemma number_tc ca s : tc (number ca) s (fun _ s' => RE s s').
Proof. unfold number. apply tc_RE_step. auto using emitConstant_RE. Qed.

Lemma string_tc ca s : tc (string_ ca) s (fun _ s' => RE s s').
Proof. unfold string_. apply tc_RE_step. auto using emitConstant_RE. Qed.

Lemma literal_tc ca s : tc (literal ca) s (fun _ s' => RE s s').
Proof.
  unfold literal. apply tc_RE_step. intros x.
  destruct (type (previous (parser x))); auto using RE_refl, emitByte_RE.
Qed.

Lemma namedVariable_tc nm ca s :
  fits N 0 s -> tc (namedVariable rec nm ca) s (fun _ s' => RE s s').
Proof.
  intros Hf. unfold namedVariable.
  tcb tc_RE_run as r. destruct r as [[arg getOp] setOp].
  destruct ca.
  - tcb tc_match as assign. destruct assign; iffacts.
    + tcb expression_tc. emit_end.
    + emit_end.
  - tcb tc_ret_eq. emit_end.
Qed.

Lemma variable_tc ca s : fits N 0 s -> tc (variable rec ca) s (fun _ s' => RE s s').
Proof.
  intros Hf. unfold variable. tcb tc_get. tce namedVariable_tc.
Qed.

Lemma this_tc ca s : fits N 0 s -> tc (this_ rec ca) s (fun _ s' => RE s s').
Proof.
  intros Hf. unfold this_. tcb tc_get.
  destruct (currentClass s); [emit_end | tce variable_tc].
Qed.

Lemma and_tc ca s : fits N 0 s -> tc (and_ rec ca) s (fun _ s' => RE s s').
Proof.
  intros Hf. unfold and_.
  tcb tc_emitJump. emit. tcb parsePrecedence_tc. tce patchJump_tc.
Qed.

Lemma or_tc ca s : fits N 0 s -> tc (or_ rec ca) s (fun _ s' => RE s s').
Proof.
  intros Hf. unfold or_.
  tcb tc_emitJump. tcb tc_emitJump. tcb patchJump_tc. emit.
  tcb parsePrecedence_tc. tce patchJump_tc.
Qed.

Lemma dot_tc ca s : fits N 1 s -> tc (dot rec ca) s (fun _ s' => RE s s').
Proof.
  intros Hf. unfold dot.
  tcb tc_consume. tcb tc_RE_run as nm.
  assert (Hinvoke : forall sx, RE s sx -> (measure sx <= measure s)%nat ->
    tc (invoke <- run (match_ TOKEN_LEFT_PAREN) ;;
        if invoke then
          argCount <- argumentList rec ;;
          step (emitBytes OP_INVOKE nm) ;; step (emitByte argCount)
        else step (emitBytes OP_GET_PROPERTY nm)) sx (fun _ s' => RE s s')).
  { intros sx Hx Hm. facts Hx.
    tcb tc_match as invoke. destruct invoke; iffacts.
    - tcb argumentList_tc. emit. emit_end.
    - emit_end. }
  destruct ca.
  - tcb tc_match as assign. destruct assign; iffacts.
    + tcb expression_tc. emit_end.
    + eapply Hinvoke; [fin | lia].
  - tcb tc_ret_eq. eapply Hinvoke; [fin | lia].
Qed.

Lemma super_tc ca s : fits N 1 s -> tc (super_ rec ca) s (fun _ s' => RE s s').
Proof.
  intros Hf. unfold super_.
  tcb tc_get as k.
  eapply tc_bind with (P := fun _ s' => RE s s').
  { destruct (currentClass s) as [|cc ?]; [apply tc_RE_step; side|].
    apply tc_when_RE. intros _. apply tc_RE_step; side. }
  intros ax sx Hx. facts Hx.
  tcb tc_consume. tcb tc_consume. tcb tc_RE_run as nm.
  tcb namedVariable_tc.
  tcb tc_match as invoke.
  eapply tc_bind with (P := fun _ s' => RE s s').
  { destruct invoke; iffacts.
    - tcb argumentList_tc. tcb namedVariable_tc. emit. emit_end.
    - tcb namedVariable_tc. emit_end. }
  intros ay sy Hy. facts Hy.
  tcb namedVariable_tc. emit_end.
Qed.

Lemma callRule_tc fn ca s :
  fits N 1 s -> tc (callRule rec fn ca) s (fun _ s' => RE s s').
Proof.
  intros Hf.
  assert (fits N 0 s) by side.
  destruct fn; simpl;
    auto using grouping_tc, call_tc, dot_tc, unary_tc, binary_tc, variable_tc,
      string_tc, number_tc, and_tc, or_tc, literal_tc, super_tc, this_tc.
Qed.

Lemma getRule_infix ty :
  1 <= precedence (getRule ty) ->
  ty <> TOKEN_EOF /\ exists fn, infix (getRule ty) = Some fn.
Proof.
  destruct ty; simpl; unfold PREC_NONE; intros H; try lia; split; eauto; discriminate.
Qed.

Lemma getRule_prefix ty fn : prefix (getRule ty) = Some fn -> ty <> TOKEN_EOF.
Proof. destruct ty; simpl; congruence. Qed.

Lemma infixLoop_tc p ca s :
  1 <= p -> fits (S N) 0 s ->
  tc (infixLoop rec p ca) s (fun _ s' => RE s s').
Proof.
  intros Hp Hf. unfold infixLoop.
  tcb tc_get as cur.
  destruct (p <=? precedence (getRule (type (current (parser s))))) eqn:E;
    [|apply tc_ret; fin].
  destruct (getRule_infix (type (current (parser s)))) as [Hne (fn & Hfn)]; [lia|].
  tcb tc_advance.
  tcb tc_get as prev.
  replace (type (previous (parser s0))) with (type (current (parser s))) by congruence.
  rewrite Hfn.
  tcb callRule_tc.
  tce (rec_tc _ (InfixLoop p ca)).
Qed.

Lemma parsePrecedence_body_tc p s :
  1 <= p -> fits (S N) 0 s ->
  tc (parsePrecedence_body rec p) s (fun _ s' => RE s s' /\ strict s s').
Proof.
  intros Hp Hf. unfold parsePrecedence_body.
  tcb tc_advance.
  tcb tc_get as prev.
  destruct (prefix (getRule (type (previous (parser s0))))) as [fn|] eqn:Efn;
    [|emit_end].
  assert (Hne : type (current (parser s)) <> TOKEN_EOF).
  { apply getRule_prefix in Efn. congruence. }
  assert (measure s0 < measure s)%nat
    by (match goal with Hs : strict s s0 |- _ => apply Hs; exact Hne end).
  tcb callRule_tc.
  tcb (rec_tc _ (InfixLoop p (p <=? PREC_ASSIGNMENT))).
  destruct (p <=? PREC_ASSIGNMENT).
  - tcb tc_match as stray. destruct stray; iffacts; simpl.
    + emit_end.
    + apply tc_ret. fin.
  - tcb tc_ret_eq. simpl. apply tc_ret. fin.
Qed.

Lemma argumentLoop_tc n s :
  fits (S N) 1 s -> tc (argumentLoop rec n) s (fun _ s' => RE s s').
Proof.
  intros Hf. unfold argumentLoop.
  tcb expression_tc.
  tcb tc_when_RE. { intros _. apply tc_RE_step; side. }
  tcb tc_match as more. destruct more; iffacts.
  - tce (rec_tc _ (ArgumentLoop ((n + 1) mod 256))).
  - apply tc_ret. fin.
Qed.

Lemma varDeclaration_tc s :
  wf (compiler s) -> fits N 0 s ->
  tc (varDeclaration rec) s (fun _ s' => R s s' /\ wf (compiler s')).
Proof.
  intros Hw Hf. unfold varDeclaration.
  tcb tc_parseVariable as slot.
  tcb tc_match as init. destruct init; iffacts.
  - tcb expression_tc. tcb tc_consume. tce defineVariable_tc.
  - emit. tcb tc_consume. tce defineVariable_tc.
Qed.

Lemma expressionStatement_tc s :
  fits N 0 s ->
  tc (expressionStatement rec) s (fun _ s' => RE s s' /\ strict s s').
Proof.
  intros Hf. unfold expressionStatement.
  tcb expression_tc. tcb tc_consume. emit_end.
Qed.

Lemma printStatement_tc s :
  fits N 0 s -> tc (printStatement rec) s (fun _ s' => RE s s').
Proof.
  intros Hf. unfold printStatement.
  tcb expression_tc. tcb tc_consume. emit_end.
Qed.

Lemma returnStatement_tc s :
  fits N 0 s -> tc (returnStatement rec) s (fun _ s' => RE s s').
Proof.
  intros Hf. unfold returnStatement.
  tcb tc_get as ty.
  tcb tc_when_RE. { intros _. apply tc_RE_step; side. }
  tcb tc_match as bare. destruct bare; iffacts.
  - emit_end.
  - tcb tc_when_RE. { intros _. apply tc_RE_step; side. }
    tcb expression_tc. tcb tc_consume. emit_end.
Qed.

Lemma synchronize_tc s :
  fits N 0 s -> tc (synchronize rec) s (fun _ s' => RE s s').
Proof.
  intros Hf. unfold synchronize.
  tcb tc_RE_step. { intros x. apply clear_panic_RE. }
  tce (rec_tc _ SynchronizeLoop).
Qed.

Lemma synchronizeLoop_tc s :
  fits (S N) 0 s -> tc (synchronizeLoop rec) s (fun _ s' => RE s s').
Proof.
  intros Hf. unfold synchronizeLoop.
  tcb tc_get as cur. tcb tc_get as prev.
  assert (Hgo : type (current (parser s)) <> TOKEN_EOF ->
    tc (step advance ;; rec _ SynchronizeLoop) s (fun _ s' => RE s s')).
  { intros Hne. tcb tc_advance.
    assert (measure s0 < measure s)%nat
      by (match goal with Hs : strict s s0 |- _ => apply Hs; exact Hne end).
    tce (rec_tc _ SynchronizeLoop). }
  destruct (type (current (parser s))) eqn:Ec; try (apply tc_ret; fin);
    destruct (type (previous (parser s))); try (apply tc_ret; fin);
    apply Hgo; discriminate.
Qed.

Lemma block_tc s :
  wf (compiler s) -> fits N 3 s ->
  tc (block rec) s (fun _ s' => R s s' /\ wf (compiler s') /\ strict s s').
Proof.
  intros Hw Hf. unfold block.
  tcb (rec_tc _ BlockLoop).
  tce tc_consume.
  intros Hne.
  assert (Hc : type (current (parser s0)) = TOKEN_RIGHT_BRACE \/
               type (current (parser s0)) = TOKEN_EOF).
  { match goal with Hx : _ \/ _ |- _ =>
      destruct Hx as [Hx|Hx]; apply check_true in Hx; auto end. }
  destruct Hc as [Hc|Hc].
  - assert (Hs : strict s0 s1) by auto.
    assert (measure s1 < measure s0)%nat by (apply Hs; unfold at_eof; congruence).
    lia.
  - assert (measure s0 < measure s)%nat.
    { apply B_progress; auto. unfold at_eof in Hne. congruence. }
    lia.
Qed.

Lemma function_tc ty s :
  fits N 3 s ->
  tc (function_ rec ty) s (fun _ s' => RE s s' /\ strict s s').
Proof.
  intros Hf. unfold function_.
  eapply tc_bind; [apply tc_step_eq|]. intros _ ? ->.
  eapply tc_bind; [apply tc_step_eq|]. intros _ ? ->.
  set (s2 := beginScope (initCompiler ty s)).
  assert (Hw2 : wf (compiler s2)).
  { unfold wf, scoped, s2, depths; simpl. destruct ty; simpl; splits; eauto;
      repeat constructor; lia. }
  assert (Hm2 : measure s2 = measure s) by reflexivity.
  assert (Ht2 : type (current (parser s2)) = type (current (parser s))) by reflexivity.
  assert (Hk2 : currentClass s2 = currentClass s) by reflexivity.
  assert (Hf2 : fits N 3 s2) by (unfold fits in *; lia).
  tcb tc_consume.
  tcb tc_get as closed.
  tcb tc_when_R. { intros _. eapply tc_weaken; [apply (rec_tc _ ParameterLoop); side|].
                   intros ? ? Hp. exact Hp. }
  tcb tc_consume. tcb tc_consume.
  tcb block_tc.
  tcb tc_get as ups.
  eapply tc_weaken; [eapply (function_finish ty s); [chainB | congruence]|].
  intros ax sx [Hx Hmx]. split; [exact Hx|].
  intros Hne.
  match goal with Hs : strict ?a ?b |- _ =>
    assert (Hlt : (measure b < measure s2)%nat);
    [ destruct (at_eof_dec a) as [He|He];
      [ assert (measure a < measure s2)%nat
          by (apply B_progress; [chainB | unfold at_eof in *; congruence]); lia
      | pose proof (Hs He); lia ]
    | lia ]
  end.
Qed.

Lemma funDeclaration_tc s :
  wf (compiler s) -> fits N 3 s ->
  tc (funDeclaration rec) s (fun _ s' => R s s' /\ wf (compiler s')).
Proof.
  intros Hw Hf. unfold funDeclaration.
  tcb tc_parseVariable as global.
  tcb markInitialized_tc.
  tcb function_tc.
  tce defineVariable_tc.
Qed.

Lemma method_tc s :
  fits N 3 s -> tc (method rec) s (fun _ s' => RE s s' /\ strict s s').
Proof.
  intros Hf. unfold method.
  tcb tc_consume. tcb tc_RE_run as constant. tcb tc_get as prev.
  tcb function_tc.
  tce tc_RE_step.
  intros Hne.
  match goal with Hs : strict ?a ?b |- _ =>
    destruct (at_eof_dec a) as [He|He];
    [ assert (measure a < measure s)%nat
        by (apply B_progress; [chainB | unfold at_eof in *; congruence]); lia
    | pose proof (Hs He); lia ]
  end.
Qed.

Lemma statement_tc s :
  wf (compiler s) -> fits N 1 s ->
  tc (statement rec) s (fun _ s' => R s s' /\ wf (compiler s') /\ strict s s').
Proof. intros. apply (Hrec _ Statement); auto. Qed.

Lemma classDeclaration_tc s :
  wf (compiler s) -> fits N 4 s ->
  tc (classDeclaration rec) s (fun _ s' => R s s' /\ wf (compiler s')).
Proof.
  intros Hw Hf. unfold classDeclaration.
  pose proof (wf_nonneg _ Hw).
  tcb tc_consume. tcb tc_get as className. tcb tc_RE_run as nameConstant.
  tcb tc_declareVariable. emit. tcb defineVariable_tc.
  tcb tc_push_class.
  tcb tc_match as inherits. destruct inherits; iffacts; unfold when.
  - tcb tc_consume. tcb variable_tc. tcb tc_get as prev.
    tcb tc_when_RE. { intros _. apply tc_RE_step; side. }
    tcb tc_beginScope.
    tcb tc_addLocal. tcb defineVariable_tc.
    tcb namedVariable_tc. emit.
    tcb tc_set_super. { congruence. }
    tcb namedVariable_tc. tcb tc_consume.
    tcb (rec_tc _ MethodLoop).
    tcb tc_consume. emit.
    tcb tc_endScope.
    tce tc_pop_class. congruence.
  - tcb tc_ret_eq.
    tcb namedVariable_tc. tcb tc_consume.
    tcb (rec_tc _ MethodLoop).
    tcb tc_consume. emit.
    tcb tc_ret_eq.
    tce tc_pop_class. congruence.
Qed.

Lemma ifStatement_tc s :
  wf (compiler s) -> fits N 1 s ->
  tc (ifStatement rec) s (fun _ s' => R s s' /\ wf (compiler s')).
Proof.
  intros Hw Hf. unfold ifStatement.
  tcb tc_consume. tcb expression_tc. tcb tc_consume.
  tcb tc_emitJump as thenJump. emit.
  tcb statement_tc.
  tcb tc_emitJump as elseJump.
  tcb patchJump_tc. emit.
  tcb tc_match as alt. destruct alt; iffacts; unfold when.
  - tcb statement_tc. tce patchJump_tc.
  - tcb tc_ret_eq. tce patchJump_tc.
Qed.

Lemma whileStatment_tc s :
  wf (compiler s) -> fits N 1 s ->
  tc (whileStatment rec) s (fun _ s' => R s s' /\ wf (compiler s')).
Proof.
  intros Hw Hf. unfold whileStatment.
  tcb tc_get as loopStart.
  tcb tc_consume. tcb expression_tc. tcb tc_consume.
  tcb tc_emitJump as exitJump. emit.
  tcb statement_tc.
  emit. tcb patchJump_tc. emit_end.
Qed.

Lemma forStatement_tc s :
  wf (compiler s) -> fits N 1 s ->
  tc (forStatement rec) s (fun _ s' => R s s' /\ wf (compiler s')).
Proof.
  intros Hw Hf. unfold forStatement.
  pose proof (wf_nonneg _ Hw).
  tcb tc_beginScope. tcb tc_consume.
  tcb tc_match as none.
  repeat apply tc_assoc.
  eapply tc_bind with (P := fun _ s' => R s2 s' /\ wf (compiler s')).
  { destruct none; iffacts.
    - apply tc_ret. fin.
    - tcb tc_match as decl. destruct decl; iffacts.
      + tce varDeclaration_tc.
      + tce expressionStatement_tc. }
  intros ax sx Hx. facts Hx.
  tcb tc_get as loopStart.
  tcb tc_match as nocond.
  eapply tc_bind with
    (P := fun j s' => RE s3 s' /\
            (j = -1 \/ (0 <= j /\ j + 2 <= Z.of_nat (codelen (compiler s')))) ).
  { destruct nocond; iffacts; simpl.
    - apply tc_ret. fin.
    - tcb expression_tc. tcb tc_consume. tcb tc_emitJump as j. emit.
      apply tc_ret. fin. }
  intros exitJump sy Hy. facts Hy.
  tcb tc_match as noincr.
  eapply tc_bind with (P := fun _ s' => RE s4 s').
  { destruct noincr; iffacts; simpl.
    - apply tc_ret. fin.
    - tcb tc_emitJump as bodyJump. tcb tc_get as incrementStart.
      tcb expression_tc. emit. tcb tc_consume. emit.
      tcb patchJump_tc. apply tc_ret. fin. }
  intros loopStart' sz Hz. facts Hz.
  tcb statement_tc. emit.
  eapply tc_bind with (P := fun _ s' => RE s6 s').
  { apply tc_when_RE. intros Hj. apply negb_true_iff, Z.eqb_neq in Hj.
    tcb patchJump_tc. emit_end. }
  intros aw sw Hw'. facts Hw'.
  tce tc_endScope.
Qed.

Lemma statement_body_tc s :
  wf (compiler s) -> fits (S N) 1 s ->
  tc (statement_body rec) s
     (fun _ s' => R s s' /\ wf (compiler s') /\ strict s s').
Proof.
  intros Hw Hf. unfold statement_body.
  pose proof (wf_nonneg _ Hw).
  tcb tc_match as b. destruct b; iffacts; [tce printStatement_tc|].
  tcb tc_match as b. destruct b; iffacts; [tce ifStatement_tc|].
  tcb tc_match as b. destruct b; iffacts; [tce returnStatement_tc|].
  tcb tc_match as b. destruct b; iffacts; [tce whileStatment_tc|].
  tcb tc_match as b. destruct b; iffacts; [tce forStatement_tc|].
  tcb tc_match as b. destruct b; iffacts.
  - tcb tc_beginScope. tcb block_tc. tce tc_endScope.
  - tce expressionStatement_tc.
Qed.

Lemma declaration_tc s :
  wf (compiler s) -> fits N 2 s ->
  tc (declaration rec) s (fun _ s' => R s s' /\ wf (compiler s') /\ strict s s').
Proof. intros. apply (Hrec _ Declaration); auto. Qed.

Lemma declaration_body_tc s :
  wf (compiler s) -> fits (S N) 2 s ->
  tc (declaration_body rec) s
     (fun _ s' => R s s' /\ wf (compiler s') /\ strict s s').
Proof.
  intros Hw Hf. unfold declaration_body.
  eapply tc_bind with
    (P := fun _ s' => R s s' /\ wf (compiler s') /\ strict s s').
  { tcb tc_match as b. destruct b; iffacts; [tce classDeclaration_tc|].
    tcb tc_match as b. destruct b; iffacts; [tce funDeclaration_tc|].
    tcb tc_match as b. destruct b; iffacts; [tce varDeclaration_tc|].
    tce statement_tc. }
  intros ax sx Hx. facts Hx.
  tcb tc_get as panic.
  destruct (panicMode (parser sx)); simpl.
  - tce synchronize_tc.
  - apply tc_ret. fin.
Qed.

Lemma blockLoop_tc s :
  wf (compiler s) -> fits (S N) 3 s ->
  tc (blockLoop rec) s (fun _ s' => post BlockLoop s s').
Proof.
  intros Hw Hf. unfold blockLoop. simpl post.
  tcb tc_get as closing. tcb tc_get as ending.
  destruct (check TOKEN_RIGHT_BRACE s) eqn:E1; simpl; [apply tc_ret; fin; auto|].
  destruct (check TOKEN_EOF s) eqn:E2; simpl; [apply tc_ret; fin; auto|].
  apply check_false in E2.
  tcb declaration_tc.
  assert (measure s0 < measure s)%nat
    by (match goal with Hs : strict s s0 |- _ => apply Hs; exact E2 end).
  tce (rec_tc _ BlockLoop).
Qed.

Lemma parameterLoop_tc s :
  wf (compiler s) -> fits (S N) 0 s ->
  tc (parameterLoop rec) s (fun _ s' => R s s' /\ wf (compiler s')).
Proof.
  intros Hw Hf. unfold parameterLoop.
  tcb tc_RE_step.
  { intros x. apply RE_back; auto. }
  tcb tc_get as n.
  tcb tc_when_RE. { intros _. apply tc_RE_step; side. }
  tcb tc_parseVariable as paramConstant.
  tcb defineVariable_tc.
  tcb tc_match as more. destruct more; iffacts.
  - tce (rec_tc _ ParameterLoop).
  - apply tc_ret. fin.
Qed.

Lemma methodLoop_tc s :
  fits (S N) 4 s -> tc (methodLoop rec) s (fun _ s' => RE s s').
Proof.
  intros Hf. unfold methodLoop.
  tcb tc_get as closing. tcb tc_get as ending.
  destruct (check TOKEN_RIGHT_BRACE s) eqn:E1; simpl; [apply tc_ret; fin|].
  destruct (check TOKEN_EOF s) eqn:E2; simpl; [apply tc_ret; fin|].
  apply check_false in E2.
  tcb method_tc.
  assert (measure s0 < measure s)%nat
    by (match goal with Hs : strict s s0 |- _ => apply Hs; exact E2 end).
  tce (rec_tc _ MethodLoop).
Qed.

Lemma compileLoop_tc s :
  wf (compiler s) -> fits (S N) 3 s ->
  tc (compileLoop rec) s (fun _ s' => post CompileLoop s s').
Proof.
  intros Hw Hf. unfold compileLoop. simpl post.
  tcb tc_match as done. destruct done; iffacts.
  - apply tc_ret. fin.
  - tcb declaration_tc.
    assert (measure s0 < measure s)%nat
      by (match goal with Hs : strict s s0 |- _ => apply Hs; assumption end).
    tce (rec_tc _ CompileLoop).
Qed.

End Rec.

(** * Enough fuel always exists *)

Theorem exec_total fuel : forall A (t : Task A) s,
  fits fuel (rank t) s -> pre t s ->
  tc (exec fuel A t) s (fun _ s' => post t s s').
Proof.
  induction fuel as [|n IH]; intros A t s Hf Hp.
  - unfold fits in Hf. lia.
  - simpl exec. destruct t; simpl body; simpl in Hp.
    + apply (parsePrecedence_body_tc _ n IH); auto.
    + apply (infixLoop_tc _ n IH); auto.
    + apply (argumentLoop_tc _ n IH); auto.
    + apply (statement_body_tc _ n IH); auto.
    + apply (declaration_body_tc _ n IH); auto.
    + apply (blockLoop_tc _ n IH); auto.
    + apply (synchronizeLoop_tc _ n IH); auto.
    + apply (parameterLoop_tc _ n IH); auto.
    + apply (methodLoop_tc _ n IH); auto.
    + apply (compileLoop_tc _ n IH); auto.
Qed.



(** * More fuel never changes a result *)

Lemma le_M_refl {A} (m : M A) : le_M m m.
Proof. intros s. auto. Qed.

Lemma le_M_bind {A C} (m1 m2 : M A) (k1 k2 : A -> M C) :
  le_M m1 m2 -> (forall a, le_M (k1 a) (k2 a)) -> le_M (bind m1 k1) (bind m2 k2).
Proof.
  intros Hm Hk s. unfold bind.
  destruct (Hm s) as [E|E]; rewrite E; auto.
  destruct (m2 s) as [x s1| |]; auto. apply Hk.
Qed.

Create HintDb mono.

Ltac mono :=
  repeat first
    [ apply le_M_refl
    | progress intros
    | apply le_M_bind
    | match goal with
      | |- le_M (if ?b then _ else _) _ => destruct b
      | |- le_M (match ?x with _ => _ end) _ => destruct x
      | |- le_M (when ?b _) _ => destruct b; simpl
      end
    | solve [eauto with mono] ].

Section Mono.

Variables rec1 rec2 : forall A, Task A -> M A.
Hypothesis Hrec : forall A (t : Task A), le_M (rec1 A t) (rec2 A t).

Lemma parsePrecedence_mono p : le_M (parsePrecedence rec1 p) (parsePrecedence rec2 p).
Proof. apply Hrec. Qed.
#[local] Hint Resolve parsePrecedence_mono Hrec : mono.

Lemma expression_mono : le_M (expression rec1) (expression rec2).
Proof. apply Hrec. Qed.
Lemma statement_mono : le_M (statement rec1) (statement rec2).
Proof. apply Hrec. Qed.
Lemma declaration_mono : le_M (declaration rec1) (declaration rec2).
Proof. apply Hrec. Qed.
#[local] Hint Resolve expression_mono statement_mono declaration_mono : mono.

Lemma binary_mono ca : le_M (binary rec1 ca) (binary rec2 ca).
Proof. unfold binary. mono. Qed.
Lemma unary_mono ca : le_M (unary rec1 ca) (unary rec2 ca).
Proof. unfold unary. mono. Qed.
Lemma argumentLoop_mono n : le_M (argumentLoop rec1 n) (argumentLoop rec2 n).
Proof. unfold argumentLoop. mono. Qed.
Lemma argumentList_mono : le_M (argumentList rec1) (argumentList rec2).
Proof. unfold argumentList. mono. Qed.
#[local] Hint Resolve binary_mono unary_mono argumentLoop_mono argumentList_mono : mono.

Lemma call_mono ca : le_M (call rec1 ca) (call rec2 ca).
Proof. unfold call. mono. Qed.
Lemma dot_mono ca : le_M (dot rec1 ca) (dot rec2 ca).
Proof. unfold dot. mono. Qed.
Lemma grouping_mono ca : le_M (grouping rec1 ca) (grouping rec2 ca).
Proof. unfold grouping. mono. Qed.
Lemma namedVariable_mono nm ca : le_M (namedVariable rec1 nm ca) (namedVariable rec2 nm ca).
Proof. unfold namedVariable. mono. Qed.
#[local] Hint Resolve call_mono dot_mono grouping_mono namedVariable_mono : mono.

Lemma variable_mono ca : le_M (variable rec1 ca) (variable rec2 ca).
Proof. unfold variable. mono. Qed.
#[local] Hint Resolve variable_mono : mono.
Lemma this_mono ca : le_M (this_ rec1 ca) (this_ rec2 ca).
Proof. unfold this_. mono. Qed.
Lemma and_mono ca : le_M (and_ rec1 ca) (and_ rec2 ca).
Proof. unfold and_. mono. Qed.
Lemma or_mono ca : le_M (or_ rec1 ca) (or_ rec2 ca).
Proof. unfold or_. mono. Qed.
Lemma super_mono ca : le_M (super_ rec1 ca) (super_ rec2 ca).
Proof. unfold super_. mono. Qed.
#[local] Hint Resolve this_mono and_mono or_mono super_mono : mono.

Lemma callRule_mono fn ca : le_M (callRule rec1 fn ca) (callRule rec2 fn ca).
Proof. destruct fn; simpl; mono. Qed.
#[local] Hint Resolve callRule_mono : mono.

Lemma infixLoop_mono p ca : le_M (infixLoop rec1 p ca) (infixLoop rec2 p ca).
Proof. unfold infixLoop. mono. Qed.
Lemma parsePrecedence_body_mono p :
  le_M (parsePrecedence_body rec1 p) (parsePrecedence_body rec2 p).
Proof. unfold parsePrecedence_body. mono. Qed.
Lemma varDeclaration_mono : le_M (varDeclaration rec1) (varDeclaration rec2).
Proof. unfold varDeclaration. mono. Qed.
Lemma expressionStatement_mono :
  le_M (expressionStatement rec1) (expressionStatement rec2).
Proof. unfold expressionStatement. mono. Qed.
Lemma printStatement_mono : le_M (printStatement rec1) (printStatement rec2).
Proof. unfold printStatement. mono. Qed.
Lemma returnStatement_mono : le_M (returnStatement rec1) (returnStatement rec2).
Proof. unfold returnStatement. mono. Qed.
Lemma synchronizeLoop_mono : le_M (synchronizeLoop rec1) (synchronizeLoop rec2).
Proof. unfold synchronizeLoop. mono. Qed.
Lemma synchronize_mono : le_M (synchronize rec1) (synchronize rec2).
Proof. unfold synchronize. mono. Qed.
Lemma blockLoop_mono : le_M (blockLoop rec1) (blockLoop rec2).
Proof. unfold blockLoop. mono. Qed.
Lemma block_mono : le_M (block rec1) (block rec2).
Proof. unfold block. mono. Qed.
Lemma parameterLoop_mono : le_M (parameterLoop rec1) (parameterLoop rec2).
Proof. unfold parameterLoop. mono. Qed.
#[local] Hint Resolve infixLoop_mono parsePrecedence_body_mono varDeclaration_mono
  expressionStatement_mono printStatement_mono returnStatement_mono
  synchronizeLoop_mono synchronize_mono blockLoop_mono block_mono
  parameterLoop_mono : mono.

Lemma function_mono ty : le_M (function_ rec1 ty) (function_ rec2 ty).
Proof. unfold function_. mono. Qed.
#[local] Hint Resolve function_mono : mono.
Lemma funDeclaration_mono : le_M (funDeclaration rec1) (funDeclaration rec2).
Proof. unfold funDeclaration. mono. Qed.
Lemma method_mono : le_M (method rec1) (method rec2).
Proof. unfold method. mono. Qed.
#[local] Hint Resolve funDeclaration_mono method_mono : mono.
Lemma methodLoop_mono : le_M (methodLoop rec1) (methodLoop rec2).
Proof. unfold methodLoop. mono. Qed.
Lemma classDeclaration_mono : le_M (classDeclaration rec1) (classDeclaration rec2).
Proof. unfold classDeclaration. mono. Qed.
Lemma ifStatement_mono : le_M (ifStatement rec1) (ifStatement rec2).
Proof. unfold ifStatement. mono. Qed.
Lemma whileStatment_mono : le_M (whileStatment rec1) (whileStatment rec2).
Proof. unfold whileStatment. mono. Qed.
Lemma forStatement_mono : le_M (forStatement rec1) (forStatement rec2).
Proof. unfold forStatement. mono. Qed.
#[local] Hint Resolve methodLoop_mono classDeclaration_mono ifStatement_mono
  whileStatment_mono forStatement_mono : mono.
Lemma statement_body_mono : le_M (statement_body rec1) (statement_body rec2).
Proof. unfold statement_body. mono. Qed.
Lemma declaration_body_mono : le_M (declaration_body rec1) (declaration_body rec2).
Proof. unfold declaration_body. mono. Qed.
Lemma compileLoop_mono : le_M (compileLoop rec1) (compileLoop rec2).
Proof. unfold compileLoop. mono. Qed.
#[local] Hint Resolve statement_body_mono declaration_body_mono compileLoop_mono : mono.

Lemma body_mono A (t : Task A) : le_M (body rec1 A t) (body rec2 A t).
Proof. destruct t; simpl; auto with mono. Qed.

End Mono.

Lemma exec_step n : forall A (t : Task A), le_M (exec n A t) (exec (S n) A t).
Proof.
  induction n as [|n IH]; intros A t.
  - intros s. left. reflexivity.
  - change (le_M (body (exec n) A t) (body (exec (S n)) A t)).
    apply body_mono, IH.
Qed.

Lemma exec_mono n m A (t : Task A) : (n <= m)%nat -> le_M (exec n A t) (exec m A t).
Proof.
  induction 1 as [|m Hle IH]; [apply le_M_refl|].
  intros s. destruct (IH s) as [E|E]; [auto|]. rewrite E. apply exec_step.
Qed.

(** A result obtained with some fuel is the result with any larger fuel, and
    it meets the specification of the task. *)
Lemma exec_stable n m A (t : Task A) s a s' :
  exec n A t s = Ok a s' -> (n <= m)%nat -> exec m A t s = Ok a s'.
Proof.
  intros H Hle. destruct (exec_mono n m A t Hle s) as [E|E]; congruence.
Qed.

Lemma exec_post n A (t : Task A) s a s' :
  pre t s -> exec n A t s = Ok a s' -> post t s s'.
Proof.
  intros Hp H.
  set (m := (n + (5 * measure s + rank t + 1))%nat).
  destruct (exec_total m A t s) as (a1 & s1 & E & Hq); auto.
  { unfold fits, m. lia. }
  rewrite (exec_stable n m A t s a s' H) in E by (unfold m; lia).
  injection E as -> ->. exact Hq.
Qed.

Lemma exec_defined n A (t : Task A) s : pre t s -> exec n A t s <> Undefined.
Proof.
  intros Hp H.
  set (m := (n + (5 * measure s + rank t + 1))%nat).
  destruct (exec_total m A t s) as (a1 & s1 & E & _); auto.
  { unfold fits, m. lia. }
  destruct (exec_mono n m A t ltac:(unfold m; lia) s) as [E'|E']; congruence.
Qed.



(** ** Sample programs, as the scanner hands them over *)

(** * The driver *)

Lemma compile_init_wf source : wf (compiler (compile_init source)).
Proof.
  unfold compile_init. rewrite advance_compiler.
  unfold wf, scoped, depths; simpl. splits; eauto; repeat constructor; lia.
Qed.



Lemma emitReturn_parser s : parser (emitReturn s) = parser s.
Proof. unfold emitReturn. destruct (ftype (compiler s)); reflexivity. Qed.

Lemma emitReturn_stderr s : stderr (emitReturn s) = stderr s.
Proof. unfold emitReturn. destruct (ftype (compiler s)); reflexivity. Qed.

Lemma emitReturn_enclosing s : enclosing (emitReturn s) = enclosing s.
Proof. unfold emitReturn. destruct (ftype (compiler s)); reflexivity. Qed.




Lemma compile_defined fuel source : compile fuel source <> Undefined.
Proof.
  unfold compile.
  pose proof (exec_defined fuel _ CompileLoop (compile_init source)
                (compile_init_wf source)) as H.
  destruct (exec fuel () CompileLoop (compile_init source)); congruence.
Qed.




(** * What the compiler emits and reports *)

(** C1, what the code emits: in the method of
    [class A {} class B < A { greet() { super.greet(); } }] the bytes of
    [super.greet()] are the load of [this], the load of [super] and
    [OP_SUPER_INVOKE greet 0], and then once more a load of [super] and
    [OP_GET_SUPER greet]; for the bare [super.greet], [OP_GET_SUPER greet]
    is likewise followed by a second load of [super] and a second
    [OP_GET_SUPER greet]. *)
Theorem super_emits_get_super_twice :
  (exists f g s,
     compile 100 super_call_program = Ok (Some f) s /\ stderr s = [] /\
     constants (chunk f) !! 7%nat = Some (OBJ_FUNCTION g) /\
     code (chunk g) =
       [OP_GET_LOCAL; 0; OP_GET_UPVALUE; 0; OP_SUPER_INVOKE; 0; 0;
        OP_GET_UPVALUE; 0; OP_GET_SUPER; 0;
        OP_POP; OP_NIL; OP_RETURN]) /\
  (exists f g s,
     compile 100 super_get_program = Ok (Some f) s /\ stderr s = [] /\
     constants (chunk f) !! 7%nat = Some (OBJ_FUNCTION g) /\
     code (chunk g) =
       [OP_GET_LOCAL; 0; OP_GET_UPVALUE; 0; OP_GET_SUPER; 0;
        OP_GET_UPVALUE; 0; OP_GET_SUPER; 0;
        OP_POP; OP_NIL; OP_RETURN]).
Proof.
  split; eexists _, _, _; (split; [vm_compute; reflexivity|]);
    (split; [reflexivity|]); (split; [vm_compute; reflexivity|]); reflexivity.
Qed.

Lemma implicit_return_sequence_witness :
  exists s', returnStatement (exec 0) (state_with initializer_frame false) = Ok tt s' /\
    ftype (compiler s') = TYPE_INITIALIZER /\
    code (currentChunk s') = [OP_GET_LOCAL; 0; OP_RETURN].
Proof.
  exact (proj2 (implicit_return_sequence (state_with initializer_frame false))
               (exec 0) eq_refl).
Defined.

Lemma addUpvalue_idempotent_witness :
  (exists k : nat,
     addUpvalue closure_frame 1 true (state_with closure_frame false) =
       (Z.of_nat k, closure_frame, state_with closure_frame false) /\
     (k <= 0)%nat /\ upvalues closure_frame !! k = Some (mkUpvalue 1 true)) /\
  (exists c1 outer1,
     resolveUpvalue inner_frame [frame_with [mkLocal (ident "a") 1 false] 1] (ident "a")
                    (state_with inner_frame false) =
       (0, c1, outer1, state_with inner_frame false) /\
     upvalues c1 = [mkUpvalue 1 true] /\
     resolveUpvalue c1 outer1 (ident "a") (state_with inner_frame false) =
       (0, c1, outer1, state_with inner_frame false)).
Proof.
  split.
  - exact (proj1 addUpvalue_idempotent closure_frame 0%nat (mkUpvalue 1 true)
                 (state_with closure_frame false) eq_refl ltac:(simpl; lia)).
  - eexists _, _. split; [vm_compute; reflexivity|]. split; [reflexivity|].
    refine (proj1 (proj2 addUpvalue_idempotent inner_frame
                     [frame_with [mkLocal (ident "a") 1 false] 1] (ident "a")
                     (state_with inner_frame false) 0 _ _ (state_with inner_frame false)
                     eq_refl _ ltac:(vm_compute; reflexivity))).
    repeat constructor.
Defined.

Lemma resolveLocal_loop_first nm local : forall above below,
  identifiersEqual nm (lname local) = true ->
  Forall (fun l => identifiersEqual nm (lname l) = false) above ->
  resolveLocal_loop (rev (below ++ local :: above)) nm =
    Some (Z.of_nat (length below), local).
Proof.
  induction above as [|a above IH] using rev_ind; intros below Hm Ha.
  - rewrite rev_app_distr. simpl. rewrite Hm, length_rev. reflexivity.
  - apply Forall_app in Ha as [Ha Hl]. inversion Hl as [|? ? Hx _]; subst.
    replace (below ++ local :: above ++ [a]) with ((below ++ local :: above) ++ [a])
      by (rewrite <- app_assoc; reflexivity).
    rewrite rev_app_distr. simpl. rewrite Hx. apply IH; auto.
Qed.

(** What a call of [error] prints: nothing in panic mode. *)
Lemma error_messages msg s :
  messages (error msg s) =
  messages s ++ (if panicMode (parser s) then [] else [msg]).
Proof.
  unfold messages, error, errorAt. destruct (panicMode (parser s)); simpl.
  - rewrite app_nil_r. reflexivity.
  - rewrite map_app. reflexivity.
Qed.

(** C4, as far as the code goes by design: there is one message, a text of
    the form "Can't read local variable in ... own initializer.", such that
    every reference that [resolveLocal] matches against a local of depth -1
    calls [error] with it; the message is printed unless the parser is
    already in panic mode; and [{ var a = a; }] reports exactly that
    message. *)
Theorem resolveLocal_reads_uninitialized :
  exists msg mid : string,
    msg = ("Can't read local variable in " ++ mid ++ " own initializer.")%string /\
    (forall c nm s below local above,
       locals c = below ++ local :: above ->
       identifiersEqual nm (lname local) = true ->
       Forall (fun l => identifiersEqual nm (lname l) = false) above ->
       depth local = -1 ->
       resolveLocal c nm s = (Z.of_nat (length below), error msg s) /\
       messages (error msg s) =
         messages s ++ (if panicMode (parser s) then [] else [msg])) /\
    (exists s, compile 100 local_self_init = Ok None s /\ messages s = [msg]).
Proof.
  exists self_initializer_message, "it's". split; [reflexivity|]. split.
  - intros c nm s below local above Hl Hm Ha Hd. split.
    + unfold resolveLocal. rewrite Hl, (resolveLocal_loop_first nm local above below Hm Ha).
      rewrite Hd. reflexivity.
    + apply error_messages.
  - eexists. split; [vm_compute; reflexivity | reflexivity].
Qed.

Lemma resolveLocal_reads_uninitialized_witness :
  exists msg,
    resolveLocal (frame_with [mkLocal (ident "a") (-1) false] 1) (ident "a")
                 (state_with (frame_with [mkLocal (ident "a") (-1) false] 1) false)
    = (1, error msg (state_with (frame_with [mkLocal (ident "a") (-1) false] 1) false)) /\
    messages (error msg (state_with (frame_with [mkLocal (ident "a") (-1) false] 1) false))
    = [msg].
Proof.
  destruct resolveLocal_reads_uninitialized as (msg & mid & _ & H & _).
  exists msg.
  exact (H (frame_with [mkLocal (ident "a") (-1) false] 1) (ident "a")
           (state_with (frame_with [mkLocal (ident "a") (-1) false] 1) false)
           [mkLocal (syntheticToken "this") 0 false] (mkLocal (ident "a") (-1) false) []
           eq_refl eq_refl (List.Forall_nil _) eq_refl).
Defined.

(** C4 as stated fails: with the parser in panic mode a reference to a local
    of depth -1 is resolved without anything being reported, as in
    [{ var a = @ a; }], where only the scanner's error is printed. *)
Lemma self_initializer_unreported_in_panic :
  resolveLocal (frame_with [mkLocal (ident "a") (-1) false] 1) (ident "a")
               (state_with (frame_with [mkLocal (ident "a") (-1) false] 1) true)
    = (1, state_with (frame_with [mkLocal (ident "a") (-1) false] 1) true) /\
  messages (state_with (frame_with [mkLocal (ident "a") (-1) false] 1) true)
    = ["Unexpected character."] /\
  (exists s, compile 100 local_self_init_after_error = Ok None s /\
     messages s = ["Unexpected character."]).
Proof.
  split; [vm_compute; reflexivity|]. split; [reflexivity|].
  eexists. split; [vm_compute; reflexivity | reflexivity].
Qed.

(** C5: in a frame that obeys the stack discipline [wf], [endScope] lowers
    the scope depth by one, keeps exactly the locals whose depth is at most
    the new depth, unchanged and in order, and appends one byte per removed
    local from the top down, [OP_CLOSE_UPVALUE] if the local was captured and
    [OP_POP] if not.  Every frame the compiler works on obeys the discipline:
    the initial one does, and declarations and statements preserve it. *)
Theorem endScope_pops_inner_locals :
  (forall s,
     wf (compiler s) -> 1 <= scopeDepth (compiler s) ->
     exists s', endScope s = Ok tt s' /\
       scopeDepth (compiler s') = scopeDepth (compiler s) - 1 /\
       locals (compiler s') =
         filter (fun l => depth l <= scopeDepth (compiler s) - 1) (locals (compiler s)) /\
       code (currentChunk s') =
         code (currentChunk s) ++
         map closeOp
             (rev (filter (fun l => scopeDepth (compiler s) - 1 < depth l)
                          (locals (compiler s))))) /\
  (forall source, wf (compiler (compile_init source))) /\
  (forall fuel s s',
     wf (compiler s) ->
     exec fuel _ Declaration s = Ok tt s' \/ exec fuel _ Statement s = Ok tt s' ->
     wf (compiler s')).
Proof.
  splits.
  - intros s Hw Hd.
    destruct (endScope_spec s Hw Hd) as (s' & He & H1 & H2 & H3 & _).
    exists s'. auto.
  - apply compile_init_wf.
  - intros fuel s s' Hw [H|H].
    + apply (exec_post fuel _ Declaration s tt s' Hw H).
    + apply (exec_post fuel _ Statement s tt s' Hw H).
Qed.

Lemma two_inner_locals_wf : wf two_inner_locals.
Proof.
  unfold wf, scoped, depths; simpl. splits; eauto; repeat constructor; lia.
Qed.

Lemma endScope_pops_inner_locals_witness :
  exists s', endScope (state_with two_inner_locals false) = Ok tt s' /\
    scopeDepth (compiler s') = 1 /\
    locals (compiler s') =
      [mkLocal (syntheticToken "this") 0 false; mkLocal (ident "a") 1 false] /\
    code (currentChunk s') = [OP_POP; OP_CLOSE_UPVALUE].
Proof.
  destruct (proj1 endScope_pops_inner_locals (state_with two_inner_locals false)
              two_inner_locals_wf ltac:(simpl; lia)) as (s' & H1 & H2 & H3 & H4).
  exists s'. auto.
Defined.

(** C6: every new frame has a local of depth 0 in slot 0; with such a local
    in slot 0 and a scope open, [endScope] returns with slot 0 in place and
    at least one local left, so that the loop never looks below slot 0; and
    no run of [compile] ever reads [locals] out of range. *)
Theorem endScope_stops_at_slot0 :
  (forall ty prev, map depth (locals (newCompiler ty prev)) = [0]) /\
  (forall s l0 rest,
     locals (compiler s) = l0 :: rest -> depth l0 = 0 ->
     1 <= scopeDepth (compiler s) ->
     exists s' rest', endScope s = Ok tt s' /\
       locals (compiler s') = l0 :: rest' /\ 1 <= localCount (compiler s')) /\
  (forall fuel source, compile fuel source <> Undefined).
Proof.
  splits.
  - intros [] prev; reflexivity.
  - intros s l0 rest Hl H0 Hd.
    destruct (endScope_keeps_slot0 s l0 rest Hl H0 Hd) as (s' & rest' & H1 & H2 & H3 & _).
    eauto.
  - apply compile_defined.
Qed.

Lemma endScope_stops_at_slot0_witness :
  exists s' rest',
    endScope (state_with (frame_with [mkLocal (ident "a") 1 false] 1) false) = Ok tt s' /\
    locals (compiler s') = mkLocal (syntheticToken "this") 0 false :: rest' /\
    1 <= localCount (compiler s').
Proof.
  exact (proj1 (proj2 endScope_stops_at_slot0)
           (state_with (frame_with [mkLocal (ident "a") 1 false] 1) false)
           _ _ eq_refl eq_refl ltac:(simpl; lia)).
Defined.




(** C8, as the code has it: a frame takes 256 locals; a 257th is refused and
    [error] is called with "Too many local variables in function.", printed
    unless the parser is in panic mode; a function body takes 255 declarations
    and the 256th is reported. *)
Theorem addLocal_capacity :
  (forall nm s,
     localCount (compiler s) < UINT8_COUNT ->
     locals (compiler (addLocal nm s)) = locals (compiler s) ++ [mkLocal nm (-1) false] /\
     localCount (compiler (addLocal nm s)) <= UINT8_COUNT /\
     messages (addLocal nm s) = messages s) /\
  (forall nm s,
     localCount (compiler s) = UINT8_COUNT ->
     addLocal nm s = error too_many_locals_message s /\
     locals (compiler (addLocal nm s)) = locals (compiler s) /\
     messages (addLocal nm s) =
       messages s ++
       (if panicMode (parser s) then [] else [too_many_locals_message])) /\
  (exists f s, compile 1000 (function_with_locals 255) = Ok (Some f) s /\
               messages s = []) /\
  (exists s, compile 1000 (function_with_locals 256) = Ok None s /\
             messages s = [too_many_locals_message]).
Proof.
  splits.
  - intros nm s H. unfold addLocal.
    destruct (localCount (compiler s) =? UINT8_COUNT) eqn:E; [lia|].
    simpl. splits; auto.
    unfold localCount in *; simpl. rewrite length_app. simpl. lia.
  - intros nm s H. unfold addLocal. rewrite H, Z.eqb_refl. splits; auto.
    + unfold error. rewrite errorAt_compiler. reflexivity.
    + apply error_messages.
  - eexists _, _. split; [vm_compute; reflexivity | reflexivity].
  - eexists. split; [vm_compute; reflexivity | reflexivity].
Qed.

Lemma addLocal_capacity_witness :
  locals (compiler (addLocal (ident "a") (state_with (frame_with [] 1) false))) =
    [mkLocal (syntheticToken "this") 0 false; mkLocal (ident "a") (-1) false] /\
  messages (addLocal (ident "zz") (state_with full_frame false)) =
    [too_many_locals_message].
Proof.
  split.
  - exact (proj1 (proj1 addLocal_capacity (ident "a") (state_with (frame_with [] 1) false)
                    ltac:(vm_compute; reflexivity))).
  - exact (proj2 (proj2 (proj1 (proj2 addLocal_capacity) (ident "zz")
                    (state_with full_frame false) ltac:(vm_compute; reflexivity)))).
Defined.

(** C8 as stated fails: in panic mode the 257th local is refused without
    the error being printed. *)
Lemma too_many_locals_unreported_in_panic :
  (localCount (compiler (state_with full_frame true)) = UINT8_COUNT /\
   addLocal (ident "zz") (state_with full_frame true) = state_with full_frame true) /\
  (exists s, compile 1000 function_with_locals_after_error = Ok None s /\
     messages s = ["Unexpected character."] /\
     ~ In too_many_locals_message (messages s)).
Proof.
  split.
  - split; vm_compute; reflexivity.
  - eexists. split; [vm_compute; reflexivity|]. split; [reflexivity|].
    vm_compute. intros [H|[]]. discriminate H.
Qed.

(** * Further properties of the compiler *)


(** * The token stream *)

Lemma errorAt_flags t msg s :
  panicMode (parser (errorAt t msg s)) = true /\
  scanner (errorAt t msg s) = scanner s /\
  current (parser (errorAt t msg s)) = current (parser s) /\
  previous (parser (errorAt t msg s)) = previous (parser s) /\
  messages (errorAt t msg s) =
    messages s ++ (if panicMode (parser s) then [] else [msg]).
Proof.
  unfold errorAt, messages. destruct (panicMode (parser s)) eqn:E; simpl.
  - rewrite app_nil_r. auto.
  - rewrite map_app. auto.
Qed.

(** What a scan error prints: the C string at the token's [start]. *)
Lemma advance_loop_errors t rest : forall errs s,
  Forall (fun e => type e = TOKEN_ERROR) errs ->
  type t <> TOKEN_ERROR ->
  current (parser (advance_loop (errs ++ t :: rest) s)) = t /\
  previous (parser (advance_loop (errs ++ t :: rest) s)) = previous (parser s) /\
  scanner (advance_loop (errs ++ t :: rest) s) = mkScanner rest (line t) /\
  messages (advance_loop (errs ++ t :: rest) s) =
    messages s ++
    (if panicMode (parser s) then []
     else match errs with [] => [] | e :: _ => [(lexeme e ++ trailing e)%string] end).
Proof.
  induction errs as [|e errs IH]; intros s He Ht.
  - simpl. destruct (type t) eqn:E; try congruence; simpl;
      (splits; auto; destruct (panicMode (parser s)); rewrite app_nil_r; reflexivity).
  - inversion He as [|? ? He1 He2]; subst. simpl. rewrite He1.
    set (s1 := set_current e (set_scanner (mkScanner (errs ++ t :: rest) (line e)) s)).
    destruct (errorAt_flags (current (parser s1)) (lexeme e ++ trailing e) s1)
      as (Hp & _ & _ & Hprev & Hm).
    destruct (IH (errorAtCurrent (lexeme e ++ trailing e) s1) He2 Ht) as (I1 & I2 & I3 & I4).
    unfold errorAtCurrent in *.
    splits; auto.
    + rewrite I2, Hprev. reflexivity.
    + rewrite I4, Hp, app_nil_r, Hm. reflexivity.
Qed.

Lemma advance_loop_only_errors : forall errs s,
  pending (scanner s) = errs ->
  Forall (fun e => type e = TOKEN_ERROR) errs ->
  type (current (parser (advance_loop errs s))) = TOKEN_EOF /\
  previous (parser (advance_loop errs s)) = previous (parser s) /\
  pending (scanner (advance_loop errs s)) = [] /\
  messages (advance_loop errs s) =
    messages s ++
    (if panicMode (parser s) then []
     else match errs with [] => [] | e :: _ => [(lexeme e ++ trailing e)%string] end).
Proof.
  induction errs as [|e errs IH]; intros s Hs He.
  - simpl. unfold scanToken. rewrite Hs. simpl. splits; auto.
    destruct (panicMode (parser s)); rewrite app_nil_r; reflexivity.
  - inversion He as [|? ? He1 He2]; subst. simpl. rewrite He1.
    set (s1 := set_current e (set_scanner (mkScanner errs (line e)) s)).
    destruct (errorAt_flags (current (parser s1)) (lexeme e ++ trailing e) s1)
      as (Hp & Hsc & _ & Hprev & Hm).
    destruct (IH (errorAtCurrent (lexeme e ++ trailing e) s1)) as (I1 & I2 & I3 & I4); auto.
    { unfold errorAtCurrent. rewrite Hsc. reflexivity. }
    unfold errorAtCurrent in *.
    splits; auto.
    + rewrite I2, Hprev. reflexivity.
    + rewrite I4, Hp, app_nil_r, Hm. reflexivity.
Qed.

(** Every token list is a run of error tokens followed by nothing or by a
    token of another kind. *)
Lemma leading_errors (l : list Token) :
  exists errs rest,
    l = errs ++ rest /\ Forall (fun e => type e = TOKEN_ERROR) errs /\
    match rest with [] => True | t :: _ => type t <> TOKEN_ERROR end.
Proof.
  induction l as [|t l (errs & rest & E & He & Hr)].
  - exists [], []. auto.
  - destruct (type t) eqn:Et;
      try (exists [], (t :: l); splits; auto; rewrite Et; discriminate).
    exists (t :: errs), rest. rewrite E. splits; auto.
Qed.

(** X1: [advance] makes the current token the previous one and skips every
    error token the scanner delivers, so that the new current token is never
    an error token: it is the first token of another kind, or the end of
    input when the scanner has only error tokens left or nothing at all.  Of
    the error tokens skipped only the first is reported, and none is when the
    parser is already in panic mode. *)
Theorem advance_skips_error_tokens s :
  exists errs,
    Forall (fun e => type e = TOKEN_ERROR) errs /\
    previous (parser (advance s)) = current (parser s) /\
    type (current (parser (advance s))) <> TOKEN_ERROR /\
    (pending (scanner s) =
       errs ++ current (parser (advance s)) :: pending (scanner (advance s)) \/
     pending (scanner s) = errs /\ pending (scanner (advance s)) = [] /\
     type (current (parser (advance s))) = TOKEN_EOF) /\
    messages (advance s) =
      messages s ++
      (if panicMode (parser s) then []
       else match errs with [] => [] | e :: _ => [(lexeme e ++ trailing e)%string] end).
Proof.
  destruct (leading_errors (pending (scanner s))) as (errs & rest & E & He & Hr).
  exists errs. split; [exact He|]. unfold advance. rewrite E.
  set (s0 := set_parser _ s).
  destruct rest as [|t rest].
  - rewrite app_nil_r in *.
    destruct (advance_loop_only_errors errs s0 E He) as (H1 & H2 & H3 & H4).
    splits; auto. rewrite H1. discriminate.
  - destruct (advance_loop_errors t rest errs s0 He Hr) as (H1 & H2 & H3 & H4).
    splits; auto.
    + rewrite H1. exact Hr.
    + left. rewrite H1, H3. reflexivity.
Qed.



(** * Constants *)

Lemma error_chunk msg s : currentChunk (error msg s) = currentChunk s.
Proof. unfold currentChunk, error. rewrite errorAt_compiler. reflexivity. Qed.

Lemma makeConstant_spec v s :
  constants (currentChunk (snd (makeConstant v s))) = constants (currentChunk s) ++ [v] /\
  code (currentChunk (snd (makeConstant v s))) = code (currentChunk s) /\
  (Z.of_nat (length (constants (currentChunk s))) <= UINT8_MAX ->
   fst (makeConstant v s) = Z.of_nat (length (constants (currentChunk s))) /\
   messages (snd (makeConstant v s)) = messages s) /\
  (UINT8_MAX < Z.of_nat (length (constants (currentChunk s))) ->
   fst (makeConstant v s) = 0 /\
   messages (snd (makeConstant v s)) =
     messages s ++ (if panicMode (parser s) then [] else ["Too many constants in one chunk."])).
Proof.
  unfold makeConstant, addConstant.
  destruct (Z.of_nat (length (constants (currentChunk s))) >? UINT8_MAX) eqn:E; simpl.
  - rewrite error_chunk. simpl. splits; auto; [lia|].
    intros _. split; auto. rewrite error_messages. reflexivity.
  - splits; auto; [|lia]. intros H. split; auto.
    apply Z.mod_small. unfold UINT8_MAX in *. lia.
Qed.

(** X2: [makeConstant] always appends the value to the constant table.  While
    the table held fewer than 256 values, the index it returns is where the
    value is then found, and nothing is reported; from the 257th value on it
    returns 0 and calls [error] with "Too many constants in one chunk.". *)
Theorem makeConstant_index v s :
  constants (currentChunk (snd (makeConstant v s))) = constants (currentChunk s) ++ [v] /\
  (Z.of_nat (length (constants (currentChunk s))) < UINT8_COUNT ->
   constants (currentChunk (snd (makeConstant v s))) !! Z.to_nat (fst (makeConstant v s))
     = Some v /\
   messages (snd (makeConstant v s)) = messages s) /\
  (UINT8_COUNT <= Z.of_nat (length (constants (currentChunk s))) ->
   fst (makeConstant v s) = 0 /\
   messages (snd (makeConstant v s)) =
     messages s ++ (if panicMode (parser s) then [] else ["Too many constants in one chunk."])).
Proof.
  destruct (makeConstant_spec v s) as (H1 & _ & H2 & H3). splits; auto.
  - intros H. destruct H2 as [Hi Hm]; [unfold UINT8_COUNT, UINT8_MAX in *; lia|].
    split; auto. rewrite H1, Hi, Nat2Z.id.
    rewrite lookup_app_r by lia. rewrite Nat.sub_diag. reflexivity.
  - intros H. apply H3. unfold UINT8_COUNT, UINT8_MAX in *. lia.
Qed.

Lemma makeConstant_index_witness :
  (constants (currentChunk (snd (makeConstant (NUMBER_VAL "7")
       (state_with (frame_with_constants 255) false))))
     !! Z.to_nat (fst (makeConstant (NUMBER_VAL "7")
                         (state_with (frame_with_constants 255) false)))
     = Some (NUMBER_VAL "7") /\
   messages (snd (makeConstant (NUMBER_VAL "7")
                    (state_with (frame_with_constants 255) false))) = []) /\
  (fst (makeConstant (NUMBER_VAL "7") (state_with (frame_with_constants 256) false)) = 0 /\
   messages (snd (makeConstant (NUMBER_VAL "7")
                    (state_with (frame_with_constants 256) false)))
   = ["Too many constants in one chunk."]).
Proof.
  split.
  - exact (proj1 (proj2 (makeConstant_index (NUMBER_VAL "7")
                           (state_with (frame_with_constants 255) false)))
                 ltac:(vm_compute; reflexivity)).
  - exact (proj2 (proj2 (makeConstant_index (NUMBER_VAL "7")
                           (state_with (frame_with_constants 256) false)))
                 ltac:(vm_compute; discriminate)).
Defined.

Lemma emitBytes_code a b s :
  code (currentChunk (emitBytes a b s)) = code (currentChunk s) ++ [a; b].
Proof.
  unfold emitBytes. rewrite !emitByte_code, <- app_assoc. reflexivity.
Qed.

Lemma emitByte_constants b s :
  constants (currentChunk (emitByte b s)) = constants (currentChunk s).
Proof. reflexivity. Qed.

Lemma emitByte_messages b s : messages (emitByte b s) = messages s.
Proof. reflexivity. Qed.

(** X3: with room in the constant table, [emitConstant] appends
    [OP_CONSTANT k] to the chunk, where the table holds the value at [k]; the
    constants already there keep their places and nothing is reported. *)
Theorem emitConstant_loads_value v s :
  Z.of_nat (length (constants (currentChunk s))) < UINT8_COUNT ->
  exists k : nat,
    code (currentChunk (emitConstant v s)) =
      code (currentChunk s) ++ [OP_CONSTANT; Z.of_nat k] /\
    constants (currentChunk (emitConstant v s)) !! k = Some v /\
    (forall j u, constants (currentChunk s) !! j = Some u ->
                 constants (currentChunk (emitConstant v s)) !! j = Some u) /\
    messages (emitConstant v s) = messages s.
Proof.
  intros H. destruct (makeConstant_spec v s) as (H1 & Hc & H2 & _).
  destruct H2 as [Hi Hm]; [unfold UINT8_COUNT, UINT8_MAX in *; lia|].
  exists (length (constants (currentChunk s))).
  unfold emitConstant. destruct (makeConstant v s) as [c s1] eqn:E. cbn [fst snd] in *.
  rewrite emitBytes_code. unfold emitBytes. rewrite !emitByte_constants, !emitByte_messages.
  rewrite Hc, Hi, H1, Hm. splits; auto.
  - rewrite lookup_app_r by lia. rewrite Nat.sub_diag. reflexivity.
  - intros j u Hj. rewrite lookup_app_l; auto. apply lookup_lt_Some in Hj. exact Hj.
Qed.

Lemma emitConstant_loads_value_witness :
  exists k : nat,
    code (currentChunk (emitConstant (NUMBER_VAL "7") (compile_init []))) =
      [OP_CONSTANT; Z.of_nat k] /\
    constants (currentChunk (emitConstant (NUMBER_VAL "7") (compile_init []))) !! k
      = Some (NUMBER_VAL "7") /\
    (forall j u, constants (currentChunk (compile_init [])) !! j = Some u ->
                 constants (currentChunk (emitConstant (NUMBER_VAL "7") (compile_init []))) !! j
                 = Some u) /\
    messages (emitConstant (NUMBER_VAL "7") (compile_init [])) = [].
Proof.
  exact (emitConstant_loads_value (NUMBER_VAL "7") (compile_init [])
           ltac:(vm_compute; reflexivity)).
Defined.



(** * Jumps *)

Lemma low_byte z : Z.land z 255 = z mod 256.
Proof. change 255 with (Z.ones 8). rewrite Z.land_ones by lia. reflexivity. Qed.

Lemma high_byte z : Z.land (Z.shiftr z 8) 255 = (z / 256) mod 256.
Proof. rewrite low_byte, Z.shiftr_div_pow2 by lia. reflexivity. Qed.

Lemma set_currentChunk_chunk k s : currentChunk (set_currentChunk k s) = k.
Proof. destruct k. reflexivity. Qed.

Lemma emitJump_code op s :
  code (currentChunk (snd (emitJump op s))) = code (currentChunk s) ++ [op; 255; 255] /\
  fst (emitJump op s) = Z.of_nat (length (code (currentChunk s))) + 1 /\
  messages (snd (emitJump op s)) = messages s.
Proof.
  unfold emitJump. cbn [fst snd]. rewrite emitBytes_code, emitByte_code, <- app_assoc.
  splits; auto.
  unfold count. rewrite emitBytes_code, emitByte_code, !length_app. simpl. lia.
Qed.

Lemma patchJump_code s front x y body :
  code (currentChunk s) = front ++ x :: y :: body ->
  exists s',
    patchJump (Z.of_nat (length front)) s = Ok tt s' /\
    code (currentChunk s') =
      front ++ [(Z.of_nat (length body) / 256) mod 256; Z.of_nat (length body) mod 256]
            ++ body /\
    constants (currentChunk s') = constants (currentChunk s) /\
    messages s' =
      messages s ++
      (if Z.of_nat (length body) >? UINT16_MAX
       then if panicMode (parser s) then [] else ["Too much code to jump over."]
       else []).
Proof.
  intros Hc. unfold patchJump.
  assert (Hj : count (currentChunk s) - Z.of_nat (length front) - 2
               = Z.of_nat (length body)).
  { unfold count. rewrite Hc, length_app. simpl. lia. }
  rewrite Hj.
  set (s1 := if Z.of_nat (length body) >? UINT16_MAX
             then error "Too much code to jump over." s else s).
  assert (Hk : currentChunk s1 = currentChunk s).
  { unfold s1. destruct (_ >? _); auto using error_chunk. }
  assert (Hm : messages s1 = messages s ++
      (if Z.of_nat (length body) >? UINT16_MAX
       then if panicMode (parser s) then [] else ["Too much code to jump over."]
       else [])).
  { unfold s1. destruct (_ >? _); [apply error_messages | rewrite app_nil_r; reflexivity]. }
  rewrite Hk.
  assert (Hb : (0 <=? Z.of_nat (length front)) &&
               (Z.of_nat (length front) + 1 <? count (currentChunk s)) = true).
  { unfold count. rewrite Hc, length_app. simpl.
    apply andb_true_intro. split; [apply Z.leb_le | apply Z.ltb_lt]; lia. }
  rewrite Hb. eexists. split; [reflexivity|].
  rewrite !set_currentChunk_chunk. cbn [code constants].
  change (messages (set_currentChunk ?k s1)) with (messages s1).
  splits; auto.
  rewrite Hc, low_byte, high_byte.
  replace (Z.to_nat (Z.of_nat (length front) + 1)) with (length front + 1)%nat by lia.
  rewrite Nat2Z.id.
  rewrite (insert_app_r_alt front _ (length front)) by lia.
  rewrite Nat.sub_diag. simpl.
  rewrite (insert_app_r_alt front _ (length front + 1)) by lia.
  replace (length front + 1 - length front)%nat with 1%nat by lia. reflexivity.
Qed.

(** X4: a jump emitted by [emitJump] and patched by [patchJump] after
    [body] was emitted behind it carries, in place of its two placeholder
    bytes, the length of [body] as a big-endian 16-bit number; the rest of the
    chunk is untouched and nothing is reported, as long as [body] has at most
    65535 bytes. *)
Theorem patchJump_encodes_distance op s s2 body :
  code (currentChunk s2) = code (currentChunk (snd (emitJump op s))) ++ body ->
  Z.of_nat (length body) <= UINT16_MAX ->
  exists s3 hi lo,
    patchJump (fst (emitJump op s)) s2 = Ok tt s3 /\
    code (currentChunk s3) = code (currentChunk s) ++ [op; hi; lo] ++ body /\
    0 <= hi < 256 /\ 0 <= lo < 256 /\
    256 * hi + lo = Z.of_nat (length body) /\
    messages s3 = messages s2.
Proof.
  intros Hc Hlen. destruct (emitJump_code op s) as (He & Hi & _).
  rewrite He in Hc.
  replace ((code (currentChunk s) ++ [op; 255; 255]) ++ body)
    with ((code (currentChunk s) ++ [op]) ++ 255 :: 255 :: body) in Hc
    by (rewrite <- !app_assoc; reflexivity).
  destruct (patchJump_code s2 _ 255 255 body Hc) as (s3 & Hp & H1 & _ & H3).
  rewrite length_app in Hp. simpl in Hp.
  replace (Z.of_nat (length (code (currentChunk s)) + 1))
    with (fst (emitJump op s)) in Hp by (rewrite Hi; lia).
  exists s3, ((Z.of_nat (length body) / 256) mod 256), (Z.of_nat (length body) mod 256).
  unfold UINT16_MAX in *.
  assert (Hq : 0 <= Z.of_nat (length body) / 256 < 256).
  { split; [apply Z.div_pos; lia | apply Z.div_lt_upper_bound; lia]. }
  splits; auto; try (apply Z.mod_pos_bound; lia).
  - rewrite H1, <- !app_assoc. reflexivity.
  - rewrite (Z.mod_small _ _ Hq). symmetry. apply Z.div_mod. lia.
  - rewrite H3. destruct (_ >? _) eqn:E; [lia|]. apply app_nil_r.
Qed.

Lemma patchJump_encodes_distance_witness :
  exists s3 hi lo,
    patchJump (fst (emitJump OP_JUMP (compile_init [])))
              (emitByte OP_POP (snd (emitJump OP_JUMP (compile_init [])))) = Ok tt s3 /\
    code (currentChunk s3) = [OP_JUMP; hi; lo; OP_POP] /\
    0 <= hi < 256 /\ 0 <= lo < 256 /\ 256 * hi + lo = 1 /\
    messages s3 = [].
Proof.
  exact (patchJump_encodes_distance OP_JUMP (compile_init [])
           (emitByte OP_POP (snd (emitJump OP_JUMP (compile_init [])))) [OP_POP]
           ltac:(vm_compute; reflexivity) ltac:(vm_compute; discriminate)).
Defined.

(** X5: when more than 65535 bytes follow the jump, [patchJump] calls
    [error] with "Too much code to jump over." and still stores the low 16
    bits of the distance. *)
Theorem patchJump_too_far op s s2 body :
  code (currentChunk s2) = code (currentChunk (snd (emitJump op s))) ++ body ->
  UINT16_MAX < Z.of_nat (length body) ->
  exists s3,
    patchJump (fst (emitJump op s)) s2 = Ok tt s3 /\
    code (currentChunk s3) =
      code (currentChunk s) ++
      [op; (Z.of_nat (length body) / 256) mod 256; Z.of_nat (length body) mod 256] ++ body /\
    messages s3 =
      messages s2 ++
      (if panicMode (parser s2) then [] else ["Too much code to jump over."]).
Proof.
  intros Hc Hlen. destruct (emitJump_code op s) as (He & Hi & _).
  rewrite He in Hc.
  replace ((code (currentChunk s) ++ [op; 255; 255]) ++ body)
    with ((code (currentChunk s) ++ [op]) ++ 255 :: 255 :: body) in Hc
    by (rewrite <- !app_assoc; reflexivity).
  destruct (patchJump_code s2 _ 255 255 body Hc) as (s3 & Hp & H1 & _ & H3).
  rewrite length_app in Hp. simpl in Hp.
  replace (Z.of_nat (length (code (currentChunk s)) + 1))
    with (fst (emitJump op s)) in Hp by (rewrite Hi; lia).
  exists s3. splits; auto.
  - rewrite H1, <- !app_assoc. reflexivity.
  - rewrite H3. destruct (_ >? _) eqn:E; [reflexivity|lia].
Qed.

Lemma patchJump_too_far_witness :
  exists s3,
    patchJump (fst (emitJump OP_JUMP (state_with (frame_with [] 0) false)))
              long_jump_state = Ok tt s3 /\
    code (currentChunk s3) = [OP_JUMP; 0; 0] ++ repeat OP_NIL (Z.to_nat 65536) /\
    messages s3 = ["Too much code to jump over."].
Proof.
  destruct (patchJump_too_far OP_JUMP (state_with (frame_with [] 0) false)
              long_jump_state (repeat OP_NIL (Z.to_nat 65536))
              eq_refl ltac:(rewrite repeat_length, Z2Nat.id; unfold UINT16_MAX; lia))
    as (s3 & H1 & H2 & H3).
  exists s3. split; [exact H1|]. split; [|exact H3].
  rewrite H2, repeat_length. reflexivity.
Defined.



(** X6: [emitLoop] appends [OP_LOOP] and a big-endian 16-bit operand such
    that the position just after the operand, less the operand, is
    [loopStart]; when that distance exceeds 65535 it calls [error] with
    "Loop body too large.". *)
Theorem emitLoop_jumps_back loopStart s :
  0 <= loopStart <= count (currentChunk s) ->
  (count (currentChunk s) + 3 - loopStart <= UINT16_MAX ->
   exists hi lo,
     code (currentChunk (emitLoop loopStart s)) =
       code (currentChunk s) ++ [OP_LOOP; hi; lo] /\
     0 <= hi < 256 /\ 0 <= lo < 256 /\
     count (currentChunk (emitLoop loopStart s)) - (256 * hi + lo) = loopStart /\
     messages (emitLoop loopStart s) = messages s) /\
  (UINT16_MAX < count (currentChunk s) + 3 - loopStart ->
   messages (emitLoop loopStart s) =
     messages s ++ (if panicMode (parser s) then [] else ["Loop body too large."])).
Proof.
  intros Hl. unfold emitLoop. cbv zeta.
  set (s1 := emitByte OP_LOOP s).
  assert (Hn : count (currentChunk s1) - loopStart + 2 = count (currentChunk s) + 3 - loopStart).
  { unfold s1, count. rewrite emitByte_code, length_app. simpl. lia. }
  rewrite Hn. set (off := count (currentChunk s) + 3 - loopStart).
  split; intros Ho.
  - destruct (off >? UINT16_MAX) eqn:E; [lia|].
    exists ((off / 256) mod 256), (off mod 256).
    rewrite high_byte, low_byte.
    assert (Hq : 0 <= off / 256 < 256).
    { unfold UINT16_MAX in *.
      split; [apply Z.div_pos; lia | apply Z.div_lt_upper_bound; lia]. }
    assert (Hc : code (currentChunk (emitBytes ((off / 256) mod 256) (off mod 256) s1)) =
                 code (currentChunk s) ++ [OP_LOOP; (off / 256) mod 256; off mod 256]).
    { rewrite emitBytes_code. unfold s1. rewrite emitByte_code, <- app_assoc. reflexivity. }
    splits; auto; try (apply Z.mod_pos_bound; lia).
    unfold count at 1. rewrite Hc, length_app. simpl.
    rewrite (Z.mod_small _ _ Hq), <- Z.div_mod by lia.
    unfold off, count. lia.
  - destruct (off >? UINT16_MAX) eqn:E; [|lia].
    unfold emitBytes. rewrite !emitByte_messages, error_messages. reflexivity.
Qed.

Lemma emitLoop_jumps_back_witness :
  (exists hi lo,
     code (currentChunk (emitLoop 0 (emitByte OP_NIL (compile_init [])))) =
       [OP_NIL; OP_LOOP; hi; lo] /\
     0 <= hi < 256 /\ 0 <= lo < 256 /\
     4 - (256 * hi + lo) = 0 /\
     messages (emitLoop 0 (emitByte OP_NIL (compile_init []))) = []) /\
  messages (emitLoop 0 long_jump_state) = ["Loop body too large."].
Proof.
  split.
  - exact (proj1 (emitLoop_jumps_back 0 (emitByte OP_NIL (compile_init []))
                    ltac:(vm_compute; split; discriminate))
                 ltac:(vm_compute; discriminate)).
  - exact (proj2 (emitLoop_jumps_back 0 long_jump_state
                    ltac:(unfold count; lia))
                 ltac:(unfold count, long_jump_state;
                       rewrite set_currentChunk_chunk; cbn [code];
                       rewrite length_app, repeat_length; unfold UINT16_MAX; simpl length; lia)).
Defined.



(** * The rule table *)

(** X7: whenever the loop of [parsePrecedence] goes round for a precedence
    above [PREC_NONE], the token it consumes has an infix handler in the rule
    table, and that handler is the one called: the call through [infixRule]
    is never a call through a null pointer. *)
Theorem infix_rule_never_null rec prec canAssign s :
  PREC_NONE < prec ->
  prec <= precedence (getRule (type (current (parser s)))) ->
  type (previous (parser (advance s))) = type (current (parser s)) /\
  exists fn,
    infix (getRule (type (current (parser s)))) = Some fn /\
    infixLoop rec prec canAssign s =
      bind (callRule rec fn canAssign) (fun _ => rec _ (InfixLoop prec canAssign))
           (advance s).
Proof.
  intros Hp Hle.
  destruct (advance_spec s) as (_ & _ & Hprev & _).
  split; [rewrite Hprev; reflexivity|].
  destruct (getRule_infix (type (current (parser s)))) as (_ & fn & Hfn);
    [unfold PREC_NONE in *; lia|].
  exists fn. split; auto.
  unfold infixLoop, bind, gets, step.
  apply Z.leb_le in Hle. rewrite Hle, Hprev, Hfn. reflexivity.
Qed.

Lemma infix_rule_never_null_witness :
  type (previous (parser (advance (compile_init [kw TOKEN_PLUS; num "1"])))) = TOKEN_PLUS /\
  exists fn,
    infix (getRule TOKEN_PLUS) = Some fn /\
    infixLoop (exec 0) PREC_ASSIGNMENT true (compile_init [kw TOKEN_PLUS; num "1"]) =
      bind (callRule (exec 0) fn true)
           (fun _ => exec 0 _ (InfixLoop PREC_ASSIGNMENT true))
           (advance (compile_init [kw TOKEN_PLUS; num "1"])).
Proof.
  exact (infix_rule_never_null (exec 0) PREC_ASSIGNMENT true
           (compile_init [kw TOKEN_PLUS; num "1"])
           ltac:(vm_compute; reflexivity) ltac:(vm_compute; discriminate)).
Defined.



(** * Declaring and resolving locals *)

(** A second [error] in a row prints nothing and changes nothing. *)
Lemma error_error m1 m2 s : error m1 (error m2 s) = error m2 s.
Proof.
  unfold error at 1. unfold errorAt at 1.
  destruct (errorAt_flags (previous (parser s)) m2 s) as (Hp & _).
  unfold error. rewrite Hp. reflexivity.
Qed.

Lemma declareVariable_loop_scope nm d rest : forall scope s,
  scopeDepth (compiler s) = d ->
  Forall (fun l => depth l = -1 \/ d <= depth l) scope ->
  match rest with
  | [] => True
  | l :: _ => depth l <> -1 /\ depth l < d
  end ->
  declareVariable_loop (scope ++ rest) nm s =
    if existsb (fun l => identifiersEqual nm (lname l)) scope
    then error redeclaration_message s else s.
Proof.
  induction scope as [|l scope IH]; intros s Hd Hs Hr.
  - simpl. destruct rest as [|l rest']; [reflexivity|]. simpl.
    destruct Hr as [H1 H2]. rewrite Hd.
    destruct (depth l =? -1) eqn:E1; [lia|].
    destruct (depth l <? d) eqn:E2; [reflexivity|lia].
  - inversion Hs as [|? ? Hl Hs']; subst. simpl.
    assert (Hc : negb (depth l =? -1) && (depth l <? scopeDepth (compiler s)) = false).
    { destruct Hl as [Hl|Hl].
      - rewrite Hl. reflexivity.
      - destruct (depth l <? scopeDepth (compiler s)) eqn:E; [lia|]. apply andb_false_r. }
    rewrite Hc. destruct (identifiersEqual nm (lname l)) eqn:Em; simpl.
    + rewrite IH; auto.
      * destruct (existsb _ scope); [apply error_error | reflexivity].
      * unfold error. rewrite errorAt_compiler. reflexivity.
    + apply IH; auto.
Qed.

Lemma existsb_rev' {A} (f : A -> bool) (l : list A) : existsb f (rev l) = existsb f l.
Proof.
  induction l as [|x l IH]; [reflexivity|]. simpl.
  rewrite existsb_app, IH. simpl. rewrite orb_false_r. apply orb_comm.
Qed.

(** X8: inside a scope, [declareVariable] compares the new name with the
    locals of the current scope only (those above the topmost initialised
    local of an outer scope): it calls [error] with "Already variable with
    this name in this scope." exactly when one of them has the name, and
    shadowing a local of an outer scope is accepted.  In both cases the new
    local is then handed to [addLocal]. *)
Theorem declareVariable_same_scope_only s below scope :
  scopeDepth (compiler s) <> 0 ->
  locals (compiler s) = below ++ scope ->
  Forall (fun l => depth l = -1 \/ scopeDepth (compiler s) <= depth l) scope ->
  match rev below with
  | [] => True
  | l :: _ => depth l <> -1 /\ depth l < scopeDepth (compiler s)
  end ->
  declareVariable s =
    addLocal (previous (parser s))
      (if existsb (fun l => identifiersEqual (previous (parser s)) (lname l)) scope
       then error redeclaration_message s else s).
Proof.
  intros Hd Hl Hs Hb. unfold declareVariable.
  destruct (scopeDepth (compiler s) =? 0) eqn:E; [lia|].
  rewrite Hl, rev_app_distr.
  rewrite (declareVariable_loop_scope _ (scopeDepth (compiler s))); auto.
  - rewrite existsb_rev'. reflexivity.
  - apply List.Forall_rev. exact Hs.
Qed.

Lemma declareVariable_same_scope_only_witness :
  declareVariable (state_with (frame_with [mkLocal (ident "a") 1 false] 2) false) =
    addLocal (ident "a") (state_with (frame_with [mkLocal (ident "a") 1 false] 2) false) /\
  declareVariable (state_with (frame_with [mkLocal (ident "a") 2 false] 2) false) =
    addLocal (ident "a")
      (error redeclaration_message
         (state_with (frame_with [mkLocal (ident "a") 2 false] 2) false)).
Proof.
  split.
  - exact (declareVariable_same_scope_only
             (state_with (frame_with [mkLocal (ident "a") 1 false] 2) false)
             [mkLocal (syntheticToken "this") 0 false; mkLocal (ident "a") 1 false] []
             ltac:(discriminate) eq_refl (List.Forall_nil _)
             ltac:(split; [discriminate | reflexivity])).
  - exact (declareVariable_same_scope_only
             (state_with (frame_with [mkLocal (ident "a") 2 false] 2) false)
             [mkLocal (syntheticToken "this") 0 false] [mkLocal (ident "a") 2 false]
             ltac:(discriminate) eq_refl
             ltac:(constructor; [right; vm_compute; discriminate | constructor])
             ltac:(split; [discriminate | reflexivity])).
Defined.

Lemma resolveLocal_loop_none nm : forall l,
  Forall (fun x => identifiersEqual nm (lname x) = false) l ->
  resolveLocal_loop l nm = None.
Proof.
  induction l as [|x l IH]; intros H; [reflexivity|].
  inversion H as [|? ? Hx Hl]; subst. simpl. rewrite Hx. auto.
Qed.

Lemma resolveLocal_none c nm s :
  Forall (fun l => identifiersEqual nm (lname l) = false) (locals c) ->
  resolveLocal c nm s = (-1, s).
Proof.
  intros H. unfold resolveLocal. rewrite resolveLocal_loop_none; auto.
  apply List.Forall_rev. exact H.
Qed.

Lemma resolveLocal_found c nm s below local above :
  locals c = below ++ local :: above ->
  identifiersEqual nm (lname local) = true ->
  Forall (fun l => identifiersEqual nm (lname l) = false) above ->
  depth local <> -1 ->
  resolveLocal c nm s = (Z.of_nat (length below), s).
Proof.
  intros Hl Hm Ha Hd. unfold resolveLocal.
  rewrite Hl, (resolveLocal_loop_first nm local above below Hm Ha).
  destruct (depth local =? -1) eqn:E; [lia|reflexivity].
Qed.

(** X9: [resolveLocal] returns -1 and reports nothing when no local of
    the frame has the name, and otherwise the slot of the last declared local
    with that name, silently when that local is initialised. *)
Theorem resolveLocal_innermost c nm s :
  (Forall (fun l => identifiersEqual nm (lname l) = false) (locals c) ->
   resolveLocal c nm s = (-1, s)) /\
  (forall below local above,
     locals c = below ++ local :: above ->
     identifiersEqual nm (lname local) = true ->
     Forall (fun l => identifiersEqual nm (lname l) = false) above ->
     depth local <> -1 ->
     resolveLocal c nm s = (Z.of_nat (length below), s)).
Proof.
  split.
  - apply resolveLocal_none.
  - apply resolveLocal_found.
Qed.

Lemma resolveLocal_innermost_witness :
  resolveLocal (frame_with [mkLocal (ident "a") 1 false] 1) (ident "b")
               (state_with (frame_with [] 0) false)
    = (-1, state_with (frame_with [] 0) false) /\
  resolveLocal (frame_with [mkLocal (ident "a") 1 false; mkLocal (ident "b") 1 false;
                            mkLocal (ident "a") 2 false; mkLocal (ident "c") 2 false] 2)
               (ident "a") (state_with (frame_with [] 0) false)
    = (3, state_with (frame_with [] 0) false).
Proof.
  split.
  - exact (proj1 (resolveLocal_innermost (frame_with [mkLocal (ident "a") 1 false] 1)
                    (ident "b") (state_with (frame_with [] 0) false))
                 ltac:(repeat constructor)).
  - exact (proj2 (resolveLocal_innermost
                    (frame_with [mkLocal (ident "a") 1 false; mkLocal (ident "b") 1 false;
                                 mkLocal (ident "a") 2 false; mkLocal (ident "c") 2 false] 2)
                    (ident "a") (state_with (frame_with [] 0) false))
                 [mkLocal (syntheticToken "this") 0 false; mkLocal (ident "a") 1 false;
                  mkLocal (ident "b") 1 false]
                 (mkLocal (ident "a") 2 false) [mkLocal (ident "c") 2 false]
                 eq_refl eq_refl ltac:(repeat constructor) ltac:(discriminate)).
Defined.

Lemma resolveLocal_loop_top nm local below :
  identifiersEqual nm (lname local) = true ->
  resolveLocal_loop (rev (below ++ [local])) nm = Some (Z.of_nat (length below), local).
Proof.
  intros H. apply (resolveLocal_loop_first nm local [] below H). constructor.
Qed.

Lemma identifiersEqual_refl nm : identifiersEqual nm nm = true.
Proof. apply String.eqb_refl. Qed.

(** X10: in a scope with room for another local, a name added by
    [addLocal] resolves to the new slot with the self-initializer error until
    [markInitialized] has run, and to the same slot without any report
    afterwards; [markInitialized] gives the local the current scope depth. *)
Theorem declared_local_resolves nm s :
  0 < scopeDepth (compiler s) ->
  localCount (compiler s) < UINT8_COUNT ->
  resolveLocal (compiler (addLocal nm s)) nm (addLocal nm s) =
    (localCount (compiler s), error self_initializer_message (addLocal nm s)) /\
  exists s',
    markInitialized (addLocal nm s) = Ok tt s' /\
    locals (compiler s') =
      locals (compiler s) ++ [mkLocal nm (scopeDepth (compiler s)) false] /\
    resolveLocal (compiler s') nm s' = (localCount (compiler s), s').
Proof.
  intros Hd Hn.
  assert (Ha : addLocal nm s =
    set_compiler (set_locals (locals (compiler s) ++ [mkLocal nm (-1) false]) (compiler s)) s).
  { unfold addLocal. destruct (localCount (compiler s) =? UINT8_COUNT) eqn:E; [lia|reflexivity]. }
  rewrite Ha. split.
  - unfold resolveLocal. simpl locals.
    rewrite (resolveLocal_loop_top nm (mkLocal nm (-1) false) (locals (compiler s))
               (identifiersEqual_refl nm)).
    reflexivity.
  - unfold markInitialized. simpl.
    destruct (scopeDepth (compiler s) =? 0) eqn:E; [lia|].
    destruct (locals (compiler s) ++ [mkLocal nm (-1) false]) eqn:El.
    { destruct (locals (compiler s)); discriminate. }
    rewrite <- El. eexists. split; [reflexivity|]. simpl.
    rewrite alter_last. simpl. split; [reflexivity|].
    unfold resolveLocal. simpl locals.
    rewrite (resolveLocal_loop_top nm (mkLocal nm (scopeDepth (compiler s)) false)
               (locals (compiler s)) (identifiersEqual_refl nm)).
    simpl.
    destruct (scopeDepth (compiler s) =? -1) eqn:E1; [lia|reflexivity].
Qed.

Lemma declared_local_resolves_witness :
  resolveLocal (compiler (addLocal (ident "x") (state_with (frame_with [] 1) false)))
               (ident "x") (addLocal (ident "x") (state_with (frame_with [] 1) false)) =
    (1, error self_initializer_message
              (addLocal (ident "x") (state_with (frame_with [] 1) false))) /\
  exists s',
    markInitialized (addLocal (ident "x") (state_with (frame_with [] 1) false)) = Ok tt s' /\
    locals (compiler s') =
      [mkLocal (syntheticToken "this") 0 false; mkLocal (ident "x") 1 false] /\
    resolveLocal (compiler s') (ident "x") s' = (1, s').
Proof.
  exact (declared_local_resolves (ident "x") (state_with (frame_with [] 1) false)
           ltac:(reflexivity) ltac:(reflexivity)).
Defined.

(** * Scopes *)

(** X11: in a frame that obeys the stack discipline, [beginScope] followed
    at once by [endScope] gives back the very same state: nothing is popped
    and nothing is emitted. *)
Theorem empty_scope_is_neutral s :
  wf (compiler s) -> endScope (beginScope s) = Ok tt s.
Proof.
  intros ((rest & Hhd) & _ & Hle). unfold endScope, beginScope.
  destruct s as [sc p c e k err]. destruct c as [f ty ls ups d]. simpl in *.
  unfold depths in *. simpl in *.
  destruct (exists_last (l := ls)) as (ls' & top & ->); [destruct ls; discriminate|].
  rewrite rev_app_distr. simpl.
  rewrite map_app in Hle. apply Forall_app in Hle as [_ Ht].
  inversion Ht as [|? ? Htop _]; subst.
  unfold set_compiler, set_scopeDepth; simpl.
  destruct (depth top >? d + 1 - 1) eqn:E; [lia|].
  replace (d + 1 - 1) with d by lia. reflexivity.
Qed.

Lemma empty_scope_is_neutral_witness :
  endScope (beginScope (state_with two_inner_locals false)) =
    Ok tt (state_with two_inner_locals false).
Proof.
  exact (empty_scope_is_neutral (state_with two_inner_locals false) two_inner_locals_wf).
Defined.



(** * Upvalues *)

Lemma addUpvalue_loop_none idx isLoc n : forall ups i,
  Forall (fun u => ~ (index u = idx /\ isLocal u = isLoc)) ups ->
  addUpvalue_loop ups i n idx isLoc = None.
Proof.
  induction ups as [|u ups IH]; intros i H; [reflexivity|].
  inversion H as [|? ? Hu Hr]; subst. simpl.
  destruct (i <? n); [|reflexivity].
  destruct (index u =? idx) eqn:E1; simpl; auto.
  destruct (Bool.eqb (isLocal u) isLoc) eqn:E2; auto.
  exfalso. apply Hu. split; [lia | apply eqb_prop; exact E2].
Qed.

Lemma capture_at below local above e :
  locals e = below ++ local :: above ->
  locals (capture (Z.of_nat (length below)) e) =
    below ++ mkLocal (lname local) (depth local) true :: above.
Proof.
  intros H. unfold capture. simpl. rewrite H, Nat2Z.id.
  rewrite (alter_app_r_alt _ below _ (length below)) by lia.
  rewrite Nat.sub_diag. reflexivity.
Qed.

(** X12: when the directly enclosing frame has an initialised local with
    the name and the function has not captured that slot yet,
    [resolveUpvalue] appends the descriptor (slot, local) to the function's
    upvalues, returns its index, and marks the local of the enclosing frame as
    captured, leaving its name and depth alone. *)
Theorem resolveUpvalue_captures_parent_local c e outer nm s below local above :
  locals e = below ++ local :: above ->
  identifiersEqual nm (lname local) = true ->
  Forall (fun l => identifiersEqual nm (lname l) = false) above ->
  depth local <> -1 ->
  Z.of_nat (length below) < UINT8_COUNT ->
  Forall (fun u => ~ (index u = Z.of_nat (length below) /\ isLocal u = true)) (upvalues c) ->
  upvalueCount (function c) <> UINT8_COUNT ->
  exists c' e',
    resolveUpvalue c (e :: outer) nm s = (upvalueCount (function c), c', e' :: outer, s) /\
    upvalues c' = upvalues c ++ [mkUpvalue (Z.of_nat (length below)) true] /\
    upvalueCount (function c') = upvalueCount (function c) + 1 /\
    locals c' = locals c /\
    locals e' = below ++ mkLocal (lname local) (depth local) true :: above /\
    scopeDepth e' = scopeDepth e.
Proof.
  intros Hl Hm Ha Hd Hb Hu Hn.
  pose proof (resolveLocal_found e nm s below local above Hl Hm Ha Hd) as Hr.
  simpl. rewrite Hr.
  destruct (Z.of_nat (length below) =? -1) eqn:E; [lia|]. simpl.
  rewrite Z.mod_small by (unfold UINT8_COUNT in *; lia).
  unfold addUpvalue. rewrite addUpvalue_loop_none by exact Hu.
  destruct (upvalueCount (function c) =? UINT8_COUNT) eqn:E1; [lia|].
  eexists _, _. split; [reflexivity|]. simpl. splits; auto.
  apply (capture_at below local above e Hl).
Qed.

Lemma resolveUpvalue_captures_parent_local_witness :
  exists c' e',
    resolveUpvalue inner_frame [frame_with [mkLocal (ident "a") 1 false] 1] (ident "a")
                   (state_with inner_frame false)
      = (0, c', [e'], state_with inner_frame false) /\
    upvalues c' = [mkUpvalue 1 true] /\
    upvalueCount (function c') = 1 /\
    locals c' = locals inner_frame /\
    locals e' = [mkLocal (syntheticToken "this") 0 false; mkLocal (ident "a") 1 true] /\
    scopeDepth e' = 1.
Proof.
  exact (resolveUpvalue_captures_parent_local inner_frame
           (frame_with [mkLocal (ident "a") 1 false] 1) [] (ident "a")
           (state_with inner_frame false)
           [mkLocal (syntheticToken "this") 0 false] (mkLocal (ident "a") 1 false) []
           eq_refl eq_refl (List.Forall_nil _) ltac:(discriminate) ltac:(reflexivity)
           (List.Forall_nil _) ltac:(discriminate)).
Defined.

Lemma resolveUpvalue_none nm s : forall outer c,
  Forall (fun e => Forall (fun l => identifiersEqual nm (lname l) = false) (locals e)) outer ->
  resolveUpvalue c outer nm s = (-1, c, outer, s).
Proof.
  induction outer as [|e outer IH]; intros c H; [reflexivity|].
  inversion H as [|? ? He Ho]; subst. simpl.
  rewrite (resolveLocal_none e nm s He). simpl.
  rewrite (IH e Ho). reflexivity.
Qed.

(** X13: when no enclosing frame declares the name, [resolveUpvalue]
    returns -1 and leaves every frame and the parser as they were, however
    long the chain of enclosing frames. *)
Theorem resolveUpvalue_unknown_name nm s : forall outer c,
  Forall (fun e => Forall (fun l => identifiersEqual nm (lname l) = false) (locals e)) outer ->
  resolveUpvalue c outer nm s = (-1, c, outer, s).
Proof. apply resolveUpvalue_none. Qed.

Lemma resolveUpvalue_unknown_name_witness :
  resolveUpvalue inner_frame [frame_with [mkLocal (ident "a") 1 false] 1; frame_with [] 0]
                 (ident "b") (state_with inner_frame false)
  = (-1, inner_frame, [frame_with [mkLocal (ident "a") 1 false] 1; frame_with [] 0],
     state_with inner_frame false).
Proof.
  exact (resolveUpvalue_unknown_name (ident "b") (state_with inner_frame false)
           [frame_with [mkLocal (ident "a") 1 false] 1; frame_with [] 0] inner_frame
           ltac:(repeat constructor)).
Defined.

(** X14: a descriptor that the function does not hold yet is appended at
    index [upvalueCount] while fewer than 256 are held, the count staying in
    step with the array and within 256; with 256 held, [addUpvalue] returns 0,
    leaves the frame alone and calls [error] with "Too many closure variables
    in function.". *)
Theorem addUpvalue_capacity c idx isLoc s :
  synced c ->
  upvalueCount (function c) <= UINT8_COUNT ->
  Forall (fun u => ~ (index u = idx /\ isLocal u = isLoc)) (upvalues c) ->
  (upvalueCount (function c) < UINT8_COUNT ->
   exists c',
     addUpvalue c idx isLoc s = (upvalueCount (function c), c', s) /\
     upvalues c' = upvalues c ++ [mkUpvalue idx isLoc] /\
     synced c' /\ upvalueCount (function c') <= UINT8_COUNT) /\
  (upvalueCount (function c) = UINT8_COUNT ->
   addUpvalue c idx isLoc s = (0, c, error "Too many closure variables in function." s)).
Proof.
  intros Hs Hle Hu. unfold addUpvalue. rewrite addUpvalue_loop_none by exact Hu.
  split; intros Hn.
  - destruct (upvalueCount (function c) =? UINT8_COUNT) eqn:E; [lia|].
    eexists. split; [reflexivity|]. simpl. splits; auto; [|lia].
    unfold synced in *. simpl. rewrite length_app, Hs. simpl. lia.
  - rewrite Hn, Z.eqb_refl. reflexivity.
Qed.

Lemma addUpvalue_capacity_witness :
  (exists c',
     addUpvalue closure_frame 2 true (state_with closure_frame false) =
       (1, c', state_with closure_frame false) /\
     upvalues c' = [mkUpvalue 1 true; mkUpvalue 2 true] /\
     synced c' /\ upvalueCount (function c') <= UINT8_COUNT) /\
  addUpvalue full_closure_frame 7 false (state_with full_closure_frame false) =
    (0, full_closure_frame,
     error "Too many closure variables in function." (state_with full_closure_frame false)).
Proof.
  split.
  - exact (proj1 (addUpvalue_capacity closure_frame 2 true (state_with closure_frame false)
                    eq_refl ltac:(vm_compute; discriminate)
                    ltac:(repeat constructor; intros [H _]; discriminate H))
                 ltac:(reflexivity)).
  - exact (proj2 (addUpvalue_capacity full_closure_frame 7 false
                    (state_with full_closure_frame false)
                    ltac:(vm_compute; reflexivity) ltac:(vm_compute; discriminate)
                    ltac:(apply List.Forall_forall; intros u Hu [_ H];
                          apply in_map_iff in Hu as (i & <- & _); discriminate H))
                 ltac:(reflexivity)).
Defined.


(** * Variable references *)

Lemma set_frames_same s : set_frames (compiler s) (enclosing s) s = s.
Proof. destruct s. reflexivity. Qed.

(** X15: a name that is an initialised local of the current frame is read
    with [OP_GET_LOCAL slot]; when assignment is allowed and [=] follows, the
    right-hand side is compiled first and [OP_SET_LOCAL slot] is emitted
    after it. *)
Theorem namedVariable_local rec nm s below local above :
  locals (compiler s) = below ++ local :: above ->
  identifiersEqual nm (lname local) = true ->
  Forall (fun l => identifiersEqual nm (lname l) = false) above ->
  depth local <> -1 ->
  Z.of_nat (length below) < UINT8_COUNT ->
  (forall canAssign,
     canAssign && check TOKEN_EQUAL s = false ->
     namedVariable rec nm canAssign s =
       Ok tt (emitBytes OP_GET_LOCAL (Z.of_nat (length below)) s)) /\
  (forall s2,
     check TOKEN_EQUAL s = true ->
     rec _ (ParsePrecedence PREC_ASSIGNMENT) (advance s) = Ok tt s2 ->
     namedVariable rec nm true s =
       Ok tt (emitBytes OP_SET_LOCAL (Z.of_nat (length below)) s2)).
Proof.
  intros Hl Hm Ha Hd Hb.
  assert (Hr : namedVariable_resolve nm s =
               ((Z.of_nat (length below), OP_GET_LOCAL, OP_SET_LOCAL), s)).
  { unfold namedVariable_resolve.
    rewrite (resolveLocal_found (compiler s) nm s below local above Hl Hm Ha Hd).
    destruct (Z.of_nat (length below) =? -1) eqn:E; [lia|]. reflexivity. }
  assert (Hmod : Z.of_nat (length below) mod 256 = Z.of_nat (length below)).
  { apply Z.mod_small. unfold UINT8_COUNT in *. lia. }
  split.
  - intros canAssign Hc. unfold namedVariable, bind, run, ret, step, match_.
    rewrite Hr, Hmod. destruct canAssign; [|reflexivity].
    simpl in Hc. rewrite Hc. reflexivity.
  - intros s2 Hc Hrec.
    unfold namedVariable, bind, run, ret, step, match_, expression, parsePrecedence.
    rewrite Hr, Hmod, Hc. simpl. rewrite Hrec. reflexivity.
Qed.

Lemma namedVariable_local_witness :
  namedVariable (exec 0) (ident "a") true
                (state_with (frame_with [mkLocal (ident "a") 1 false] 1) false) =
    Ok tt (emitBytes OP_GET_LOCAL 1
             (state_with (frame_with [mkLocal (ident "a") 1 false] 1) false)).
Proof.
  exact (proj1 (namedVariable_local (exec 0) (ident "a")
                  (state_with (frame_with [mkLocal (ident "a") 1 false] 1) false)
                  [mkLocal (syntheticToken "this") 0 false] (mkLocal (ident "a") 1 false) []
                  eq_refl eq_refl (List.Forall_nil _) ltac:(discriminate) ltac:(reflexivity))
               true eq_refl).
Defined.

Lemma makeConstant_frames v s :
  locals (compiler (snd (makeConstant v s))) = locals (compiler s) /\
  enclosing (snd (makeConstant v s)) = enclosing s.
Proof.
  unfold makeConstant, addConstant. destruct (_ >? _); simpl; auto.
  unfold error. rewrite errorAt_compiler, errorAt_enclosing. auto.
Qed.

(** X16: a name that no frame declares is treated as a global: its lexeme
    is appended to the constant table and [OP_GET_GLOBAL k] is emitted for
    its index [k], with no change to any frame's locals and nothing
    reported. *)
Theorem namedVariable_global rec nm s :
  Forall (fun l => identifiersEqual nm (lname l) = false) (locals (compiler s)) ->
  Forall (fun e => Forall (fun l => identifiersEqual nm (lname l) = false) (locals e))
         (enclosing s) ->
  Z.of_nat (length (constants (currentChunk s))) < UINT8_COUNT ->
  exists s',
    namedVariable rec nm false s = Ok tt s' /\
    code (currentChunk s') =
      code (currentChunk s) ++
      [OP_GET_GLOBAL; Z.of_nat (length (constants (currentChunk s)))] /\
    constants (currentChunk s') = constants (currentChunk s) ++ [OBJ_STRING (lexeme nm)] /\
    locals (compiler s') = locals (compiler s) /\ enclosing s' = enclosing s /\
    messages s' = messages s.
Proof.
  intros Hl He Hk.
  destruct (makeConstant_spec (OBJ_STRING (lexeme nm)) s) as (H1 & H2 & H3 & _).
  destruct H3 as [Hi Hm]; [unfold UINT8_COUNT, UINT8_MAX in *; lia|].
  destruct (makeConstant_frames (OBJ_STRING (lexeme nm)) s) as [Hf1 Hf2].
  unfold namedVariable, bind, run, ret, step, namedVariable_resolve.
  rewrite (resolveLocal_none (compiler s) nm s Hl). simpl.
  rewrite (resolveUpvalue_none nm s (enclosing s) (compiler s) He). simpl.
  rewrite set_frames_same. unfold identifierConstant.
  destruct (makeConstant (OBJ_STRING (lexeme nm)) s) as [k s1] eqn:E. cbn [fst snd] in *.
  eexists. split; [reflexivity|].
  rewrite emitBytes_code. unfold emitBytes.
  rewrite !emitByte_constants, !emitByte_messages, H1, H2, Hm, Hi.
  rewrite Z.mod_small by (unfold UINT8_COUNT in *; lia).
  splits; auto.
Qed.

Lemma namedVariable_global_witness :
  exists s',
    namedVariable (exec 0) (ident "g") false
                  (state_with (frame_with [mkLocal (ident "a") 1 false] 1) false) = Ok tt s' /\
    code (currentChunk s') = [OP_GET_GLOBAL; 0] /\
    constants (currentChunk s') = [OBJ_STRING "g"] /\
    locals (compiler s') =
      [mkLocal (syntheticToken "this") 0 false; mkLocal (ident "a") 1 false] /\
    enclosing s' = [] /\
    messages s' = [].
Proof.
  exact (namedVariable_global (exec 0) (ident "g")
           (state_with (frame_with [mkLocal (ident "a") 1 false] 1) false)
           ltac:(repeat constructor) (List.Forall_nil _) ltac:(reflexivity)).
Defined.



(** * Error recovery *)

Lemma synchronizeLoop_unfold rec s :
  synchronizeLoop rec s =
    if at_boundary s then Ok tt s else rec _ SynchronizeLoop (advance s).
Proof.
  unfold synchronizeLoop, at_boundary, bind, gets, ret, step.
  destruct (type (current (parser s))); try reflexivity;
    destruct (type (previous (parser s))); reflexivity.
Qed.

Lemma advance_loop_drop : forall toks s,
  pending (scanner s) = toks ->
  exists m, pending (scanner (advance_loop toks s)) = drop m toks.
Proof.
  induction toks as [|t toks IH]; intros s Hs.
  - exists 0%nat. simpl. exact Hs.
  - simpl. destruct (type t) eqn:Ety; try (exists 1%nat; reflexivity).
    match goal with |- context [advance_loop toks ?s1] =>
      destruct (IH s1) as (m & Hm) end.
    { unfold errorAtCurrent, errorAt. destruct (panicMode _); reflexivity. }
    exists (S m). rewrite Hm. reflexivity.
Qed.

Lemma advance_drop s :
  exists m, pending (scanner (advance s)) = drop m (pending (scanner s)).
Proof. unfold advance. apply advance_loop_drop. reflexivity. Qed.

Lemma synchronizeLoop_stops fuel : forall s s',
  exec fuel _ SynchronizeLoop s = Ok tt s' ->
  at_boundary s' = true /\
  compiler s' = compiler s /\ enclosing s' = enclosing s /\
  currentClass s' = currentClass s /\
  (exists n, pending (scanner s') = drop n (pending (scanner s))) /\
  (at_boundary s = true -> s' = s).
Proof.
  induction fuel as [|fuel IH]; intros s s' H; [discriminate|].
  simpl in H. rewrite synchronizeLoop_unfold in H.
  destruct (at_boundary s) eqn:E.
  - inversion H; subst. splits; auto. exists 0%nat. reflexivity.
  - destruct (IH _ _ H) as (H1 & H2 & H3 & H4 & (n & H5) & _).
    destruct (advance_spec s) as (_ & _ & _ & Hc & He).
    split; [exact H1|]. split; [congruence|]. split; [congruence|].
    split; [|split; [|discriminate]].
    + rewrite H4. unfold advance.
      match goal with |- currentClass (advance_loop ?t ?s0) = _ =>
        destruct (advance_loop_spec t s0 eq_refl) as (_ & _ & Hk & _) end.
      exact Hk.
    + destruct (advance_drop s) as (m & Hm).
      exists (m + n)%nat. rewrite H5, Hm, drop_drop. reflexivity.
Qed.

(** X17: [synchronize] always returns, and it stops at a statement
    boundary: at the end of input, just after a [;], or in front of [class],
    [fun], [var], [for], [if], [while], [print] or [return].  It only skips
    tokens, leaving the frames and the class chain alone, and when the parser
    already stands at a boundary it does no more than clear the panic flag. *)
Theorem synchronize_stops_at_boundary s :
  exists fuel0 s',
    (forall fuel, (fuel0 <= fuel)%nat -> synchronize (exec fuel) s = Ok tt s') /\
    at_boundary s' = true /\
    compiler s' = compiler s /\ enclosing s' = enclosing s /\
    currentClass s' = currentClass s /\
    (exists n, pending (scanner s') = drop n (pending (scanner s))) /\
    (at_boundary s = true -> s' = clear_panic s).
Proof.
  set (s0 := clear_panic s).
  destruct (exec_total (5 * measure s0 + 1) _ SynchronizeLoop s0) as (a & s' & He & _).
  { unfold fits. simpl. lia. }
  { exact I. }
  destruct a. exists (5 * measure s0 + 1)%nat, s'.
  destruct (synchronizeLoop_stops _ _ _ He) as (H1 & H2 & H3 & H4 & H5 & H6).
  splits; auto.
  intros fuel Hf. unfold synchronize, bind, step.
  apply (exec_stable _ fuel _ _ _ _ _ He Hf).
Qed.

(** * Declarations and statements as a whole *)

(** X18: in a frame that obeys the stack discipline, [declaration] always
    returns, whatever the tokens, and it returns with the scopes, frames and
    classes it opened closed again: the scope depth, the kind of the frame,
    the class chain and the shape of the enclosing frames are as before, the
    chunk has not shrunk, the discipline still holds, and unless the input was
    at its end at least one token has been consumed. *)
Theorem declaration_is_balanced s :
  wf (compiler s) ->
  exists fuel0 s',
    (forall fuel, (fuel0 <= fuel)%nat -> exec fuel _ Declaration s = Ok tt s') /\
    scopeDepth (compiler s') = scopeDepth (compiler s) /\
    ftype (compiler s') = ftype (compiler s) /\
    currentClass s' = currentClass s /\
    Forall2 frame_sim (enclosing s) (enclosing s') /\
    (codelen (compiler s) <= codelen (compiler s'))%nat /\
    wf (compiler s') /\
    (type (current (parser s)) <> TOKEN_EOF -> (measure s' < measure s)%nat).
Proof.
  intros Hw.
  destruct (exec_total (5 * measure s + 3) _ Declaration s) as (a & s' & He & Hp).
  { unfold fits. simpl. lia. }
  { exact Hw. }
  destruct a. exists (5 * measure s + 3)%nat, s'.
  destruct Hp as ((HB & Hd & Hk) & Hw' & Hs). destruct HB.
  splits; auto.
  intros fuel Hf. apply (exec_stable _ fuel _ _ _ _ _ He Hf).
Qed.

Lemma declaration_is_balanced_witness :
  exists fuel0 s',
    (forall fuel, (fuel0 <= fuel)%nat ->
       exec fuel _ Declaration (compile_init local_self_init) = Ok tt s') /\
    scopeDepth (compiler s') = 0 /\
    ftype (compiler s') = TYPE_SCRIPT /\
    currentClass s' = [] /\
    Forall2 frame_sim [] (enclosing s') /\
    (0 <= codelen (compiler s'))%nat /\
    wf (compiler s') /\
    (TOKEN_LEFT_BRACE <> TOKEN_EOF ->
     (measure s' < measure (compile_init local_self_init))%nat).
Proof.
  exact (declaration_is_balanced (compile_init local_self_init)
           (compile_init_wf local_self_init)).
Defined.



(** * Short-circuit operators *)

Lemma two_bytes n :
  0 <= n <= UINT16_MAX ->
  0 <= (n / 256) mod 256 < 256 /\ 0 <= n mod 256 < 256 /\
  256 * ((n / 256) mod 256) + n mod 256 = n.
Proof.
  unfold UINT16_MAX. intros H.
  assert (Hq : 0 <= n / 256 < 256).
  { split; [apply Z.div_pos; lia | apply Z.div_lt_upper_bound; lia]. }
  rewrite (Z.mod_small _ _ Hq). splits; try lia; try (apply Z.mod_pos_bound; lia).
  symmetry. apply Z.div_mod. lia.
Qed.

(** X19: [and_] wraps the right operand in [OP_JUMP_IF_FALSE d; OP_POP;
    rhs], where the two operand bytes [d] hold the length of [rhs] plus one:
    the jump lands just behind the right operand. *)
Theorem and_skips_right_operand (rec : forall A, Task A -> M A) canAssign s s2 rhs :
  rec _ (ParsePrecedence PREC_AND)
      (emitByte OP_POP (snd (emitJump OP_JUMP_IF_FALSE s))) = Ok tt s2 ->
  code (currentChunk s2) =
    code (currentChunk (emitByte OP_POP (snd (emitJump OP_JUMP_IF_FALSE s)))) ++ rhs ->
  Z.of_nat (length rhs) + 1 <= UINT16_MAX ->
  exists s3 hi lo,
    and_ rec canAssign s = Ok tt s3 /\
    code (currentChunk s3) =
      code (currentChunk s) ++ [OP_JUMP_IF_FALSE; hi; lo; OP_POP] ++ rhs /\
    0 <= hi < 256 /\ 0 <= lo < 256 /\
    256 * hi + lo = Z.of_nat (length rhs) + 1 /\
    messages s3 = messages s2.
Proof.
  intros Hrec Hc Hlen.
  destruct (emitJump_code OP_JUMP_IF_FALSE s) as (He & Hi & _).
  rewrite emitByte_code, He in Hc.
  replace (((code (currentChunk s) ++ [OP_JUMP_IF_FALSE; 255; 255]) ++ [OP_POP]) ++ rhs)
    with ((code (currentChunk s) ++ [OP_JUMP_IF_FALSE]) ++ 255 :: 255 :: (OP_POP :: rhs)) in Hc
    by (rewrite <- !app_assoc; reflexivity).
  destruct (patchJump_code s2 _ 255 255 (OP_POP :: rhs) Hc) as (s3 & Hp & H1 & _ & H3).
  rewrite length_app in Hp. simpl length in *.
  replace (Z.of_nat (length (code (currentChunk s)) + 1))
    with (fst (emitJump OP_JUMP_IF_FALSE s)) in Hp by (rewrite Hi; lia).
  replace (Z.of_nat (S (length rhs))) with (Z.of_nat (length rhs) + 1) in * by lia.
  destruct (two_bytes (Z.of_nat (length rhs) + 1)) as (B1 & B2 & B3); [lia|].
  exists s3, (((Z.of_nat (length rhs) + 1) / 256) mod 256),
             ((Z.of_nat (length rhs) + 1) mod 256).
  split; [|split; [|split; [exact B1|split; [exact B2|split; [exact B3|]]]]].
  - unfold and_, bind, run, step, parsePrecedence.
    rewrite (surjective_pairing (emitJump OP_JUMP_IF_FALSE s)).
    cbn [fst snd]. rewrite Hrec. exact Hp.
  - rewrite H1, <- !app_assoc. reflexivity.
  - rewrite H3. destruct (_ >? _) eqn:E; [lia|]. apply app_nil_r.
Qed.

Lemma and_skips_right_operand_witness :
  exists s3 hi lo,
    and_ (exec 3) false (after_left_operand TOKEN_AND) = Ok tt s3 /\
    code (currentChunk s3) =
      [OP_GET_GLOBAL; 0] ++ [OP_JUMP_IF_FALSE; hi; lo; OP_POP] ++ [OP_GET_GLOBAL; 1] /\
    0 <= hi < 256 /\ 0 <= lo < 256 /\ 256 * hi + lo = 2 + 1 /\
    messages s3 = [].
Proof.
  refine (and_skips_right_operand (exec 3) false (after_left_operand TOKEN_AND) _
            [OP_GET_GLOBAL; 1]
            ltac:(vm_compute; reflexivity) ltac:(vm_compute; reflexivity)
            ltac:(vm_compute; discriminate)).
Defined.

(** X20: [or_] emits [OP_JUMP_IF_FALSE 3; OP_JUMP d; OP_POP; rhs]: the
    first jump skips the three bytes of the second, and the operand [d] of
    the second is the length of [rhs] plus one, so that it lands just behind
    the right operand. *)
Theorem or_skips_right_operand (rec : forall A, Task A -> M A) canAssign s s1 s2 rhs :
  patchJump (fst (emitJump OP_JUMP_IF_FALSE s))
            (snd (emitJump OP_JUMP (snd (emitJump OP_JUMP_IF_FALSE s)))) = Ok tt s1 ->
  rec _ (ParsePrecedence PREC_OR) (emitByte OP_POP s1) = Ok tt s2 ->
  code (currentChunk s2) = code (currentChunk (emitByte OP_POP s1)) ++ rhs ->
  Z.of_nat (length rhs) + 1 <= UINT16_MAX ->
  exists s3 hi lo,
    or_ rec canAssign s = Ok tt s3 /\
    code (currentChunk s3) =
      code (currentChunk s) ++
      [OP_JUMP_IF_FALSE; 0; 3; OP_JUMP; hi; lo; OP_POP] ++ rhs /\
    0 <= hi < 256 /\ 0 <= lo < 256 /\
    256 * hi + lo = Z.of_nat (length rhs) + 1 /\
    messages s3 = messages s2.
Proof.
  intros Hp1 Hrec Hc Hlen.
  destruct (emitJump_code OP_JUMP_IF_FALSE s) as (He & Hi & _).
  set (sa := snd (emitJump OP_JUMP_IF_FALSE s)) in *.
  destruct (emitJump_code OP_JUMP sa) as (He2 & Hi2 & _).
  set (sb := snd (emitJump OP_JUMP sa)) in *.
  pose proof Hi2 as Hj. rewrite He, length_app in Hj. simpl length in Hj.
  assert (Hcb : code (currentChunk sb) =
                (code (currentChunk s) ++ [OP_JUMP_IF_FALSE]) ++ 255 :: 255 :: [OP_JUMP; 255; 255]).
  { rewrite He2, He, <- !app_assoc. reflexivity. }
  destruct (patchJump_code sb _ 255 255 _ Hcb) as (s1' & Hp & H1 & _ & _).
  rewrite length_app in Hp. simpl length in Hp.
  replace (Z.of_nat (length (code (currentChunk s)) + 1))
    with (fst (emitJump OP_JUMP_IF_FALSE s)) in Hp by (rewrite Hi; lia).
  rewrite Hp1 in Hp. inversion Hp; subst s1'. clear Hp.
  change ((Z.of_nat (length [OP_JUMP; 255; 255]) / 256) mod 256) with 0 in H1.
  change (Z.of_nat (length [OP_JUMP; 255; 255]) mod 256) with 3 in H1.
  rewrite emitByte_code, H1 in Hc.
  replace ((((code (currentChunk s) ++ [OP_JUMP_IF_FALSE]) ++ [0; 3] ++ [OP_JUMP; 255; 255])
              ++ [OP_POP]) ++ rhs)
    with ((code (currentChunk s) ++ [OP_JUMP_IF_FALSE; 0; 3; OP_JUMP])
            ++ 255 :: 255 :: (OP_POP :: rhs)) in Hc
    by (rewrite <- !app_assoc; reflexivity).
  destruct (patchJump_code s2 _ 255 255 (OP_POP :: rhs) Hc) as (s3 & Hq & H2 & _ & H3).
  rewrite length_app in Hq. simpl length in Hq, H3, H2.
  replace (Z.of_nat (length (code (currentChunk s)) + 4))
    with (fst (emitJump OP_JUMP sa)) in Hq by (rewrite Hj; lia).
  replace (Z.of_nat (S (length rhs))) with (Z.of_nat (length rhs) + 1) in * by lia.
  destruct (two_bytes (Z.of_nat (length rhs) + 1)) as (B1 & B2 & B3); [lia|].
  exists s3, (((Z.of_nat (length rhs) + 1) / 256) mod 256),
             ((Z.of_nat (length rhs) + 1) mod 256).
  split; [|split; [|split; [exact B1|split; [exact B2|split; [exact B3|]]]]].
  - unfold or_, bind, run, step, parsePrecedence.
    rewrite (surjective_pairing (emitJump OP_JUMP_IF_FALSE s)).
    fold sa. rewrite (surjective_pairing (emitJump OP_JUMP sa)). fold sb.
    cbn [fst snd]. rewrite Hp1, Hrec. exact Hq.
  - rewrite H2, <- !app_assoc. reflexivity.
  - rewrite H3. destruct (_ >? _) eqn:E; [lia|]. apply app_nil_r.
Qed.

Lemma or_skips_right_operand_witness :
  exists s3 hi lo,
    or_ (exec 3) false (after_left_operand TOKEN_OR) = Ok tt s3 /\
    code (currentChunk s3) =
      [OP_GET_GLOBAL; 0] ++
      [OP_JUMP_IF_FALSE; 0; 3; OP_JUMP; hi; lo; OP_POP] ++ [OP_GET_GLOBAL; 1] /\
    0 <= hi < 256 /\ 0 <= lo < 256 /\ 256 * hi + lo = 2 + 1 /\
    messages s3 = [].
Proof.
  refine (or_skips_right_operand (exec 3) false (after_left_operand TOKEN_OR) _ _
            [OP_GET_GLOBAL; 1]
            ltac:(vm_compute; reflexivity) ltac:(vm_compute; reflexivity)
            ltac:(vm_compute; reflexivity) ltac:(vm_compute; discriminate)).
Defined.



(** * Control flow *)

Lemma patchJump_emitJump op s s2 body :
  code (currentChunk s2) = code (currentChunk (snd (emitJump op s))) ++ body ->
  Z.of_nat (length body) <= UINT16_MAX ->
  exists s3,
    patchJump (fst (emitJump op s)) s2 = Ok tt s3 /\
    code (currentChunk s3) =
      code (currentChunk s) ++ [op] ++ operand (Z.of_nat (length body)) ++ body /\
    messages s3 = messages s2.
Proof.
  intros Hc Hlen. destruct (emitJump_code op s) as (He & Hi & _).
  rewrite He in Hc.
  replace ((code (currentChunk s) ++ [op; 255; 255]) ++ body)
    with ((code (currentChunk s) ++ [op]) ++ 255 :: 255 :: body) in Hc
    by (rewrite <- !app_assoc; reflexivity).
  destruct (patchJump_code s2 _ 255 255 body Hc) as (s3 & Hp & H1 & _ & H3).
  rewrite length_app in Hp. simpl length in Hp.
  replace (Z.of_nat (length (code (currentChunk s)) + 1))
    with (fst (emitJump op s)) in Hp by (rewrite Hi; lia).
  exists s3. split; [exact Hp|]. split.
  - rewrite H1, <- !app_assoc. reflexivity.
  - rewrite H3. destruct (_ >? _) eqn:E; [lia|]. apply app_nil_r.
Qed.

Lemma consume_chunk ty msg s : currentChunk (consume ty msg s) = currentChunk s.
Proof.
  unfold currentChunk, consume, errorAtCurrent.
  destruct (check ty s); [rewrite advance_compiler | rewrite errorAt_compiler]; reflexivity.
Qed.

Lemma emitLoop_code loopStart s :
  count (currentChunk s) + 3 - loopStart <= UINT16_MAX ->
  code (currentChunk (emitLoop loopStart s)) =
    code (currentChunk s) ++ [OP_LOOP] ++
    operand (count (currentChunk s) + 3 - loopStart) /\
  messages (emitLoop loopStart s) = messages s.
Proof.
  intros Ho. unfold emitLoop. cbv zeta.
  set (s1 := emitByte OP_LOOP s).
  assert (Hn : count (currentChunk s1) - loopStart + 2 = count (currentChunk s) + 3 - loopStart).
  { unfold s1, count. rewrite emitByte_code, length_app. simpl. lia. }
  rewrite Hn. destruct (_ >? _) eqn:E; [lia|].
  rewrite high_byte, low_byte, emitBytes_code. unfold s1.
  rewrite emitByte_code, <- app_assoc. split; reflexivity.
Qed.

(** X21: [whileStatment] lays a loop out as the condition,
    [OP_JUMP_IF_FALSE d1; OP_POP], the body, [OP_LOOP d2; OP_POP]: the exit
    jump [d1] spans the [OP_POP], the body and the loop instruction, and the
    backward distance [d2] leads from behind the loop instruction to the
    first byte of the condition. *)
Theorem whileStatment_layout (rec : forall A, Task A -> M A) s s2 s4 cond body :
  rec _ (ParsePrecedence PREC_ASSIGNMENT)
      (consume TOKEN_LEFT_PAREN "Expect '(' after 'while'." s) = Ok tt s2 ->
  code (currentChunk s2) = code (currentChunk s) ++ cond ->
  rec _ Statement
      (emitByte OP_POP
         (snd (emitJump OP_JUMP_IF_FALSE
                 (consume TOKEN_RIGHT_PAREN "Expect ')' after condition." s2)))) = Ok tt s4 ->
  code (currentChunk s4) =
    code (currentChunk s) ++ cond ++ [OP_JUMP_IF_FALSE; 255; 255; OP_POP] ++ body ->
  Z.of_nat (length cond + length body) + 7 <= UINT16_MAX ->
  exists s5,
    whileStatment rec s = Ok tt s5 /\
    code (currentChunk s5) =
      code (currentChunk s) ++ cond ++
      [OP_JUMP_IF_FALSE] ++ operand (Z.of_nat (length body) + 4) ++ [OP_POP] ++
      body ++
      [OP_LOOP] ++ operand (Z.of_nat (length cond + length body) + 7) ++
      [OP_POP] /\
    messages s5 = messages s4.
Proof.
  intros Hc1 Hcode1 Hb1 Hcode2 Hlen.
  set (s3 := consume TOKEN_RIGHT_PAREN "Expect ')' after condition." s2) in *.
  assert (Hk3 : code (currentChunk s3) = code (currentChunk s) ++ cond).
  { unfold s3. rewrite consume_chunk. exact Hcode1. }
  destruct (emitLoop_code (count (currentChunk s)) s4) as [HL HLm].
  { unfold count. rewrite Hcode2, !length_app. simpl. lia. }
  assert (Hoff : count (currentChunk s4) + 3 - count (currentChunk s)
                 = Z.of_nat (length cond + length body) + 7).
  { unfold count. rewrite Hcode2, !length_app. simpl. lia. }
  rewrite Hoff in HL.
  destruct (emitJump_code OP_JUMP_IF_FALSE s3) as (He & _).
  destruct (patchJump_emitJump OP_JUMP_IF_FALSE s3 (emitLoop (count (currentChunk s)) s4)
              ([OP_POP] ++ body ++ [OP_LOOP] ++
               operand (Z.of_nat (length cond + length body) + 7)))
    as (s5 & Hp & H1 & H2).
  { rewrite HL, Hcode2, He, Hk3, <- !app_assoc. reflexivity. }
  { rewrite !length_app. simpl. lia. }
  exists (emitByte OP_POP s5). split; [|split].
  - unfold whileStatment, bind, gets, step, run, expression, parsePrecedence, statement.
    rewrite Hc1. fold s3.
    rewrite (surjective_pairing (emitJump OP_JUMP_IF_FALSE s3)). cbn [fst snd].
    rewrite Hb1, Hp. reflexivity.
  - rewrite emitByte_code, H1, Hk3, <- !app_assoc.
    replace (Z.of_nat (length ([OP_POP] ++ body ++ [OP_LOOP] ++
               operand (Z.of_nat (length cond + length body) + 7))))
      with (Z.of_nat (length body) + 4)
      by (rewrite !length_app; simpl; lia).
    reflexivity.
  - rewrite emitByte_messages, H2, HLm. reflexivity.
Qed.


Lemma whileStatment_layout_witness :
  exists s5,
    whileStatment (exec 10) after_while = Ok tt s5 /\
    code (currentChunk s5) =
      [] ++ [OP_GET_GLOBAL; 0] ++
      [OP_JUMP_IF_FALSE] ++ operand (3 + 4) ++ [OP_POP] ++
      [OP_GET_GLOBAL; 1; OP_POP] ++
      [OP_LOOP] ++ operand (5 + 7) ++
      [OP_POP] /\
    messages s5 = [].
Proof.
  refine (whileStatment_layout (exec 10) after_while _ _
            [OP_GET_GLOBAL; 0] [OP_GET_GLOBAL; 1; OP_POP]
            ltac:(vm_compute; reflexivity) ltac:(vm_compute; reflexivity)
            ltac:(vm_compute; reflexivity) ltac:(vm_compute; reflexivity)
            ltac:(vm_compute; discriminate)).
Defined.

(** * A variable initialised from a global of its own name *)

Lemma advance_plain s t rest :
  pending (scanner s) = t :: rest -> type t <> TOKEN_ERROR ->
  advance s =
    mkState (mkScanner rest (line t))
            (mkParser t (current (parser s)) (hadError (parser s)) (panicMode (parser s)))
            (compiler s) (enclosing s) (currentClass s) (stderr s).
Proof.
  intros Hp Ht. unfold advance. rewrite Hp. simpl.
  destruct (type t); try reflexivity. congruence.
Qed.

Lemma advance_at_end s :
  pending (scanner s) = [] ->
  advance s =
    mkState (scanner s)
            (mkParser (mkToken TOKEN_EOF "" (sline (scanner s)) "") (current (parser s))
                      (hadError (parser s)) (panicMode (parser s)))
            (compiler s) (enclosing s) (currentClass s) (stderr s).
Proof.
  intros Hp. unfold advance. rewrite Hp. simpl. unfold scanToken. simpl. rewrite Hp.
  reflexivity.
Qed.

Lemma advance_quiet s :
  match pending (scanner s) with [] => True | t :: _ => type t <> TOKEN_ERROR end ->
  compiler (advance s) = compiler s /\ enclosing (advance s) = enclosing s /\
  stderr (advance s) = stderr s /\
  hadError (parser (advance s)) = hadError (parser s) /\
  panicMode (parser (advance s)) = panicMode (parser s) /\
  pending (scanner (advance s)) = tl (pending (scanner s)).
Proof.
  destruct (pending (scanner s)) as [|t rest] eqn:E; intros H.
  - rewrite (advance_at_end s E). simpl. rewrite E. auto 10.
  - rewrite (advance_plain s t rest E H). simpl. auto 10.
Qed.

Lemma makeConstant_plain v s :
  Z.of_nat (length (constants (currentChunk s))) < UINT8_COUNT ->
  makeConstant v s =
    (Z.of_nat (length (constants (currentChunk s))),
     set_currentChunk (mkChunk (code (currentChunk s)) (lines (currentChunk s))
                               (constants (currentChunk s) ++ [v])) s).
Proof.
  intros H. unfold makeConstant, addConstant.
  destruct (_ >? _) eqn:E; [unfold UINT8_COUNT, UINT8_MAX in *; lia|].
  rewrite Z.mod_small by (unfold UINT8_COUNT in *; lia). reflexivity.
Qed.

Lemma infixLoop_stops rec prec canAssign s :
  precedence (getRule (type (current (parser s)))) < prec ->
  infixLoop rec prec canAssign s = Ok tt s.
Proof.
  intros H. unfold infixLoop, bind, gets, ret.
  destruct (prec <=? _) eqn:E; [lia | reflexivity].
Qed.

Lemma match_no ty s : type (current (parser s)) <> ty -> match_ ty s = (false, s).
Proof. intros H. unfold match_. apply check_false in H. rewrite H. reflexivity. Qed.

Lemma match_yes ty s : type (current (parser s)) = ty -> match_ ty s = (true, advance s).
Proof. intros H. unfold match_. apply check_true in H. rewrite H. reflexivity. Qed.

Lemma consume_yes ty msg s :
  type (current (parser s)) = ty -> consume ty msg s = advance s.
Proof. intros H. unfold consume. apply check_true in H. rewrite H. reflexivity. Qed.

(** A reference to a name that no frame declares, followed by [;]: the
    expression is the one load of the global. *)
Lemma global_reference fuel s ref semi rest :
  current (parser s) = ref -> type ref = TOKEN_IDENTIFIER ->
  pending (scanner s) = semi :: rest -> type semi = TOKEN_SEMICOLON ->
  Forall (fun l => identifiersEqual ref (lname l) = false) (locals (compiler s)) ->
  Forall (fun e => Forall (fun l => identifiersEqual ref (lname l) = false) (locals e))
         (enclosing s) ->
  Z.of_nat (length (constants (currentChunk s))) < UINT8_COUNT ->
  exec (2 + fuel) _ (ParsePrecedence PREC_ASSIGNMENT) s =
    Ok tt (emitBytes OP_GET_GLOBAL (Z.of_nat (length (constants (currentChunk s))))
             (set_currentChunk
                (mkChunk (code (currentChunk s)) (lines (currentChunk s))
                         (constants (currentChunk s) ++ [OBJ_STRING (lexeme ref)]))
                (advance s))).
Proof.
  intros Hc Ht Hp Hs Hl He Hk.
  assert (Ha := advance_plain s semi rest Hp ltac:(rewrite Hs; discriminate)).
  change (exec (2 + fuel) () (ParsePrecedence PREC_ASSIGNMENT) s)
    with (parsePrecedence_body (exec (S fuel)) PREC_ASSIGNMENT s).
  unfold parsePrecedence_body, bind, step, gets.
  set (s1 := advance s) in *.
  assert (Hprev : previous (parser s1) = ref) by (rewrite Ha; simpl; exact Hc).
  assert (Hcur : type (current (parser s1)) = TOKEN_SEMICOLON) by (rewrite Ha; simpl; exact Hs).
  assert (Hcomp : compiler s1 = compiler s) by (rewrite Ha; reflexivity).
  assert (Hencl : enclosing s1 = enclosing s) by (rewrite Ha; reflexivity).
  rewrite Hprev, Ht. cbn [getRule prefix].
  change (PREC_ASSIGNMENT <=? PREC_ASSIGNMENT) with true.
  unfold callRule, variable, namedVariable, bind, gets, run. rewrite Hprev.
  unfold namedVariable_resolve.
  rewrite resolveLocal_none by (rewrite Hcomp; exact Hl).
  change (negb (-1 =? -1)) with false. cbv beta iota zeta.
  rewrite resolveUpvalue_none by (rewrite Hencl; exact He).
  change (negb (-1 =? -1)) with false. cbv beta iota zeta.
  rewrite set_frames_same. unfold identifierConstant.
  assert (Hch : currentChunk s1 = currentChunk s)
    by (unfold currentChunk; rewrite Hcomp; auto).
  rewrite makeConstant_plain by (rewrite Hch; exact Hk).
  rewrite !Hch.
  set (s2 := set_currentChunk _ s1).
  cbv beta iota zeta.
  rewrite (match_no TOKEN_EQUAL s2) by (unfold s2; simpl; rewrite Hcur; discriminate).
  cbv beta iota zeta. unfold step.
  rewrite Z.mod_small by (unfold UINT8_COUNT in *; lia).
  set (s3 := emitBytes _ _ s2).
  change (exec (S fuel) () (InfixLoop PREC_ASSIGNMENT true) s3)
    with (infixLoop (exec fuel) PREC_ASSIGNMENT true s3).
  rewrite infixLoop_stops by (unfold s3, s2; simpl; rewrite Hcur; reflexivity).
  rewrite (match_no TOKEN_EQUAL s3) by (unfold s3, s2; simpl; rewrite Hcur; discriminate).
  reflexivity.
Qed.

(** The declaration [var a = b;] at scope depth 0, with [var] the current
    token and [b] declared by no frame. *)
Lemma global_declaration fuel s name eq ref semi rest :
  scopeDepth (compiler s) = 0 ->
  type (current (parser s)) = TOKEN_VAR ->
  pending (scanner s) = name :: eq :: ref :: semi :: rest ->
  type name = TOKEN_IDENTIFIER -> type eq = TOKEN_EQUAL ->
  type ref = TOKEN_IDENTIFIER -> type semi = TOKEN_SEMICOLON ->
  match rest with [] => True | t :: _ => type t <> TOKEN_ERROR end ->
  panicMode (parser s) = false ->
  Forall (fun l => identifiersEqual ref (lname l) = false) (locals (compiler s)) ->
  Forall (fun e => Forall (fun l => identifiersEqual ref (lname l) = false) (locals e))
         (enclosing s) ->
  Z.of_nat (length (constants (currentChunk s))) + 2 <= UINT8_COUNT ->
  exists s',
    exec (3 + fuel) _ Declaration s = Ok tt s' /\
    code (currentChunk s') =
      code (currentChunk s) ++
      [OP_GET_GLOBAL; Z.of_nat (length (constants (currentChunk s))) + 1;
       OP_DEFINE_GLOBAL; Z.of_nat (length (constants (currentChunk s)))] /\
    constants (currentChunk s') =
      constants (currentChunk s) ++ [OBJ_STRING (lexeme name); OBJ_STRING (lexeme ref)] /\
    locals (compiler s') = locals (compiler s) /\
    scopeDepth (compiler s') = 0 /\
    stderr s' = stderr s /\
    hadError (parser s') = hadError (parser s) /\
    panicMode (parser s') = false /\
    pending (scanner s') = tl rest.
Proof.
  intros Hd Hcur Hp T1 T2 T3 T4 Hr Hpm Hl He Hk.
  change (exec (3 + fuel) () Declaration s)
    with (declaration_body (exec (2 + fuel)) s).
  unfold declaration_body, bind, run.
  rewrite (match_no TOKEN_CLASS), (match_no TOKEN_FUN), (match_yes TOKEN_VAR)
    by (rewrite Hcur; first [reflexivity | discriminate]).
  rewrite (advance_plain s name _ Hp) by (rewrite T1; discriminate).
  set (s1 := mkState _ _ _ _ _ _).
  unfold varDeclaration, bind, run, parseVariable.
  rewrite (consume_yes TOKEN_IDENTIFIER _ s1) by exact T1.
  rewrite (advance_plain s1 eq (ref :: semi :: rest) eq_refl) by (rewrite T2; discriminate).
  set (s2 := mkState _ _ _ _ _ _).
  assert (Hdv : declareVariable s2 = s2).
  { unfold declareVariable. change (scopeDepth (compiler s2)) with (scopeDepth (compiler s)).
    rewrite Hd. reflexivity. }
  rewrite Hdv. change (scopeDepth (compiler s2)) with (scopeDepth (compiler s)). rewrite Hd.
  change (0 >? 0) with false. cbv iota.
  unfold identifierConstant. change (previous (parser s2)) with name.
  rewrite makeConstant_plain
    by (change (currentChunk s2) with (currentChunk s); unfold UINT8_COUNT in *; lia).
  change (currentChunk s2) with (currentChunk s).
  set (s3 := set_currentChunk _ s2). cbv beta iota zeta.
  rewrite (match_yes TOKEN_EQUAL s3) by exact T2.
  rewrite (advance_plain s3 ref (semi :: rest) eq_refl) by (rewrite T3; discriminate).
  set (s4 := mkState _ _ _ _ _ _). cbv beta iota zeta.
  unfold expression, parsePrecedence.
  rewrite (global_reference fuel s4 ref semi rest eq_refl T3 eq_refl T4 Hl He)
    by (unfold s4, s3; simpl; rewrite length_app; simpl; unfold UINT8_COUNT in *; lia).
  rewrite (advance_plain s4 semi rest eq_refl) by (rewrite T4; discriminate).
  set (s5 := emitBytes _ _ _). unfold step.
  rewrite (consume_yes TOKEN_SEMICOLON _ s5) by exact T4.
  destruct (advance_quiet s5 Hr) as (Q1 & Q2 & Q3 & Q4 & Q5 & Q6).
  set (s6 := advance s5) in *.
  unfold defineVariable. rewrite Q1.
  change (scopeDepth (compiler s5)) with (scopeDepth (compiler s)). rewrite Hd.
  change (0 >? 0) with false. cbv iota. unfold gets, when.
  change (panicMode (parser (emitBytes OP_DEFINE_GLOBAL
            (Z.of_nat (length (constants (currentChunk s)))) s6)))
    with (panicMode (parser s6)).
  rewrite Q5. change (panicMode (parser s5)) with (panicMode (parser s)). rewrite Hpm.
  eexists. split; [reflexivity|].
  rewrite emitBytes_code. unfold emitBytes. rewrite !emitByte_constants.
  cbn [compiler parser scanner stderr emitByte set_currentChunk set_compiler].
  unfold currentChunk. rewrite Q1, Q3, Q4, Q6.
  splits; try reflexivity.
  - unfold s5. fold (currentChunk (emitBytes OP_GET_GLOBAL
      (Z.of_nat (length (constants (currentChunk s4)))) (set_currentChunk
        (mkChunk (code (currentChunk s4)) (lines (currentChunk s4))
           (constants (currentChunk s4) ++ [OBJ_STRING (lexeme ref)]))
        (mkState (mkScanner rest (line semi))
           (mkParser semi (current (parser s4)) (hadError (parser s4)) (panicMode (parser s4)))
           (compiler s4) (enclosing s4) (currentClass s4) (stderr s4))))).
    rewrite emitBytes_code. simpl. rewrite length_app, <- app_assoc. simpl.
    unfold currentChunk. rewrite Nat2Z.inj_add. reflexivity.
  - simpl. rewrite <- app_assoc. reflexivity.
  - exact Hd.
  - rewrite Q5. exact Hpm.
Qed.

(** C10: at scope depth 0 [declareVariable] does nothing; so, in any state
    at scope depth 0 in which no frame declares [a], the parser is not in
    panic mode and the chunk has room for two more constants, the declaration
    [var a = a;] compiles without any report and without a new local: the
    name goes into the constant table twice, [OP_GET_GLOBAL] for the second
    entry is followed by [OP_DEFINE_GLOBAL] for the first, and the scanner is
    left behind the [;].  In particular the program [var a = a;] compiles to
    these two instructions and the implicit return. *)
Theorem global_self_initializer_compiles :
  (forall s, scopeDepth (compiler s) = 0 -> declareVariable s = s) /\
  (forall fuel s name eq ref semi rest,
     scopeDepth (compiler s) = 0 ->
     type (current (parser s)) = TOKEN_VAR ->
     pending (scanner s) = name :: eq :: ref :: semi :: rest ->
     type name = TOKEN_IDENTIFIER -> type eq = TOKEN_EQUAL ->
     type ref = TOKEN_IDENTIFIER -> type semi = TOKEN_SEMICOLON ->
     lexeme ref = lexeme name ->
     match rest with [] => True | t :: _ => type t <> TOKEN_ERROR end ->
     panicMode (parser s) = false ->
     Forall (fun l => identifiersEqual name (lname l) = false) (locals (compiler s)) ->
     Forall (fun e => Forall (fun l => identifiersEqual name (lname l) = false) (locals e))
            (enclosing s) ->
     Z.of_nat (length (constants (currentChunk s))) + 2 <= UINT8_COUNT ->
     exists s',
       exec (3 + fuel) _ Declaration s = Ok tt s' /\
       code (currentChunk s') =
         code (currentChunk s) ++
         [OP_GET_GLOBAL; Z.of_nat (length (constants (currentChunk s))) + 1;
          OP_DEFINE_GLOBAL; Z.of_nat (length (constants (currentChunk s)))] /\
       constants (currentChunk s') =
         constants (currentChunk s) ++
         [OBJ_STRING (lexeme name); OBJ_STRING (lexeme name)] /\
       locals (compiler s') = locals (compiler s) /\
       scopeDepth (compiler s') = 0 /\
       stderr s' = stderr s /\
       hadError (parser s') = hadError (parser s) /\
       panicMode (parser s') = false /\
       pending (scanner s') = tl rest) /\
  (exists f s,
     compile 100 global_self_init = Ok (Some f) s /\ stderr s = [] /\
     code (chunk f) = [OP_GET_GLOBAL; 1; OP_DEFINE_GLOBAL; 0; OP_NIL; OP_RETURN] /\
     constants (chunk f) = [OBJ_STRING "a"; OBJ_STRING "a"]).
Proof.
  split; [|split].
  - intros s H. unfold declareVariable. rewrite H. reflexivity.
  - intros fuel s name eq ref semi rest Hd Hcur Hp T1 T2 T3 T4 Hx Hr Hpm Hl He Hk.
    assert (Hi : forall l, identifiersEqual ref l = identifiersEqual name l).
    { intros l. unfold identifiersEqual. rewrite Hx. reflexivity. }
    destruct (global_declaration fuel s name eq ref semi rest) as (s' & H); auto.
    + eapply List.Forall_impl; [|exact Hl]. intros l Hn. rewrite Hi. exact Hn.
    + eapply List.Forall_impl; [|exact He]. intros e Hn.
      eapply List.Forall_impl; [|exact Hn]. intros l Hm. rewrite Hi. exact Hm.
    + exists s'. rewrite Hx in H. exact H.
  - eexists _, _. split; [vm_compute; reflexivity|]. splits; reflexivity.
Qed.

Lemma global_self_initializer_compiles_witness :
  declareVariable (compile_init global_self_init) = compile_init global_self_init /\
  exists s',
    exec 3 _ Declaration (compile_init global_self_init) = Ok tt s' /\
    code (currentChunk s') = [OP_GET_GLOBAL; 1; OP_DEFINE_GLOBAL; 0] /\
    constants (currentChunk s') = [OBJ_STRING "a"; OBJ_STRING "a"] /\
    locals (compiler s') = [mkLocal (syntheticToken "this") 0 false] /\
    scopeDepth (compiler s') = 0 /\
    stderr s' = [] /\
    hadError (parser s') = false /\
    panicMode (parser s') = false /\
    pending (scanner s') = [].
Proof.
  split.
  - exact (proj1 global_self_initializer_compiles (compile_init global_self_init) eq_refl).
  - exact (proj1 (proj2 global_self_initializer_compiles) 0%nat
             (compile_init global_self_init)
             (ident "a") (kw TOKEN_EQUAL) (ident "a") (kw TOKEN_SEMICOLON) []
             eq_refl eq_refl ltac:(vm_compute; reflexivity)
             eq_refl eq_refl eq_refl eq_refl eq_refl I eq_refl
             ltac:(repeat constructor) (List.Forall_nil _)
             ltac:(vm_compute; discriminate)).
Defined.
